(** * Splash: camera calibration, blending map and window swap

    A shallow embedding of the parts of the Splash video-mapping engine
    (camera.cpp, window.cpp) that its specification makes claims about,
    with the theorems that settle those claims, and of code around
    them: the input queues, the input textures and the GL context of a
    window, attribute values (coretypes.h), the editing of calibration
    points, the colour balance, and the copy of an image in chunks
    (image.cpp).

    Conventions of the embedding:
    - [unsigned short] cells are [Z] with the wrap-around modulo 2^16
      written out ([to_ushort]); C's integer division is [Z.quot].
    - [std::vector] accessed by index is a [list] read with stdpp's lookup
      [l !! i] and written with [<[i:=v]> l]; an access out of range is
      undefined behaviour in C++ and is [None] here.
    - [double] and [float] values are idealised as real numbers ([R]);
      the places where the floating-point code would divide by zero are
      singled out by explicit predicates. *)

From Stdlib Require Import ZArith List Bool Lia Reals Lra String.
From stdpp Require Import base list.

Local Open Scope Z_scope.

(** ** The blending map (Camera::computeBlendingMap) *)

Module BlendMap.

(** Conversion to [unsigned short]. *)
Definition to_ushort (v : Z) : Z := v mod 65536.

(** The local variables of the hole-filling pass. *)
Record HoleState := mkHole {
  lastFilledPixel : Z;
  nextFilledPixel : Z;
  holeStart : nat;
  holeEnd : nat;
  hole : bool
}.

Definition initHole : HoleState := mkHole 0 0 0 0 false.

(** [vector<bool>] and [vector<unsigned short>] reads.  Every read of the
    hole-filling pass is in range (x < width, y < height); the default
    is what an absent cell would read as. *)
Definition getSet (isSet : list bool) (i : nat) : bool := default false (isSet !! i).
Definition getPix (camMap : list Z) (i : nat) : Z := default 0 (camMap !! i).

Section Row.
(** [mapSpec.width] and the offset [y * mapSpec.width] of the row. *)
Variable width : nat.
Variable base : nat.

(** The inner loop [for (xx = x + 2; xx < width; ++xx)]: it has no
    [break], every set cell met overwrites [nextFilledPixel] and
    [holeEnd].  [n] counts the iterations left. *)
Fixpoint findHoleEnd (camMap : list Z) (isSet : list bool)
    (n : nat) (xx : nat) (st : HoleState) : HoleState :=
  match n with
  | O => st
  | S n' =>
      let st' :=
        if getSet isSet (base + xx)
        then mkHole (lastFilledPixel st) (getPix camMap (base + xx))
                    (holeStart st) xx true
        else st in
      findHoleEnd camMap isSet n' (S xx) st'
  end.

(** The value written in a hole at column [x]: the step is computed on
    [int]s, with C's truncating division, and converted to
    [unsigned short], and so is the sum.  (The product stays inside
    [int] for rows of up to 32768 cells.) *)
Definition holeValue (st : HoleState) (x : nat) : Z :=
  let step := to_ushort
    (Z.quot ((nextFilledPixel st - lastFilledPixel st)
             * (Z.of_nat x - Z.of_nat (holeStart st)))
            (Z.of_nat (holeEnd st) - Z.of_nat (holeStart st))) in
  to_ushort (lastFilledPixel st + step).

(** The loop over [x].  [continue] goes to [S x]; [x -= 1; continue]
    stays at [x].  The loop is not structural in [x], so it takes fuel:
    [None] is fuel exhausted. *)
Fixpoint fillRowFrom (fuel : nat) (x : nat) (st : HoleState)
    (camMap : list Z) (isSet : list bool) : option (list Z * list bool) :=
  match fuel with
  | O => None
  | S fuel' =>
      if (width <=? x)%nat then Some (camMap, isSet)
      else if negb (getSet isSet (base + x)) && negb (hole st) then
        fillRowFrom fuel' (S x) st camMap isSet
      else if getSet isSet (base + x) && negb (hole st) then
        if (x <? width - 1)%nat && getSet isSet (base + x + 1) then
          fillRowFrom fuel' (S x) st camMap isSet
        else
          let st0 := mkHole (getPix camMap (base + x)) (nextFilledPixel st)
                            x (holeEnd st) (hole st) in
          let st1 := findHoleEnd camMap isSet (width - (x + 2)) (x + 2) st0 in
          fillRowFrom fuel' (S x) st1 camMap isSet
      else if getSet isSet (base + x) && hole st then
        fillRowFrom fuel' x
          (mkHole (lastFilledPixel st) (nextFilledPixel st)
                  (holeStart st) (holeEnd st) false)
          camMap isSet
      else
        fillRowFrom fuel' (S x) st
          (<[(base + x)%nat := holeValue st x]> camMap)
          (<[(base + x)%nat := true]> isSet)
  end.

(** One row: each column is visited at most twice. *)
Definition fillRow (camMap : list Z) (isSet : list bool) :=
  fillRowFrom (2 * width + 1) 0 initHole camMap isSet.
End Row.

(** The loop over the rows, [y] from [y0] for [n] rows. *)
Fixpoint fillHolesFrom (width : nat) (n : nat) (y : nat)
    (camMap : list Z) (isSet : list bool) : option (list Z * list bool) :=
  match n with
  | O => Some (camMap, isSet)
  | S n' =>
      match fillRow width (y * width) camMap isSet with
      | None => None
      | Some (camMap', isSet') => fillHolesFrom width n' (S y) camMap' isSet'
      end
  end.

Definition fillHoles (width height : nat) (camMap : list Z) (isSet : list bool) :=
  fillHolesFrom width height 0 camMap isSet.

(** The accumulation [imageMap[y + width * x] += camMap[y + width * x]]
    for x < width, at a fixed [y]; an index out of range is [None]. *)
Definition addCell (i : nat) (camMap : list Z) (imageMap : list Z) : option (list Z) :=
  match imageMap !! i, camMap !! i with
  | Some a, Some c => Some (<[i := to_ushort (a + c)]> imageMap)
  | _, _ => None
  end.

Fixpoint accumulateRow (width : nat) (y : nat) (n : nat) (x : nat)
    (camMap : list Z) (imageMap : list Z) : option (list Z) :=
  match n with
  | O => Some imageMap
  | S n' =>
      match addCell (y + width * x) camMap imageMap with
      | None => None
      | Some imageMap' => accumulateRow width y n' (S x) camMap imageMap'
      end
  end.

Fixpoint accumulateFrom (width : nat) (n : nat) (y : nat)
    (camMap : list Z) (imageMap : list Z) : option (list Z) :=
  match n with
  | O => Some imageMap
  | S n' =>
      match accumulateRow width y width 0 camMap imageMap with
      | None => None
      | Some imageMap' => accumulateFrom width n' (S y) camMap imageMap'
      end
  end.

Definition accumulate (width height : nat) (camMap imageMap : list Z) :=
  accumulateFrom width height 0 camMap imageMap.

End BlendMap.

(** ** The window swap protocol (Window::render, Window::swapBuffers) *)

Module Window.

(** [atomic_int]: 32-bit two's complement, [fetch_add] wraps. *)
Definition wrap_int (v : Z) : Z := (v + 2147483648) mod 4294967296 - 2147483648.

Inductive DrawBuffer := GL_FRONT | GL_BACK.

(** What one call of swapBuffers did: the pre-increment counter value
    it read, the buffer it blitted to, and whether it called
    [glfwSwapBuffers]. *)
Record SwapAction := mkSwap {
  windowIndex : Z;
  drawBuffer : DrawBuffer;
  presented : bool
}.

(** The effect of Window::render on the static counter
    [_swappableWindowsCount]: the assignment it makes, in every call,
    once the window is drawn and the render fence is made. *)
Definition render (count : Z) : Z := 0.

(** Window::swapBuffers; [have_osx] is the build-time HAVE_OSX. *)
Definition swapBuffers (have_osx : bool) (count : Z) : Z * SwapAction :=
  let windowIndex := count in
  let count' := wrap_int (count + 1) in
  let buf :=
    if have_osx then GL_BACK
    else if negb (windowIndex =? 0) then GL_FRONT else GL_BACK in
  let swap :=
    if have_osx then true else (windowIndex =? 0) in
  (count', mkSwap windowIndex buf swap).

(** The calls the windows make on the shared counter.  Both the store
    and the [fetch_add] are atomic, so a concurrent execution is one of
    the interleavings of these events. *)
Inductive Event :=
| Render (w : nat)
| SwapBuffers (w : nat).

(** The state of a run: the counter, the number of times it was reset,
    and the swaps performed so far, oldest first. *)
Record Run := mkRun {
  count : Z;
  resets : nat;
  swaps : list (nat * SwapAction)
}.

Definition step (have_osx : bool) (r : Run) (e : Event) : Run :=
  match e with
  | Render w => mkRun (render (count r)) (S (resets r)) (swaps r)
  | SwapBuffers w =>
      let '(c, a) := swapBuffers have_osx (count r) in
      mkRun c (resets r) (swaps r ++ [(w, a)])
  end.

Definition run (have_osx : bool) (c0 : Z) (sched : list Event) : Run :=
  fold_left (step have_osx) sched (mkRun c0 0 []).

Definition isRender (w : nat) (e : Event) : bool :=
  match e with Render w' => (w =? w')%nat | _ => false end.

Definition isSwap (w : nat) (e : Event) : bool :=
  match e with SwapBuffers w' => (w =? w')%nat | _ => false end.

Definition eventWindow (e : Event) : nat :=
  match e with Render w => w | SwapBuffers w => w end.

(** Window [w] renders once and then swaps once. *)
Fixpoint rendersThenSwaps (w : nat) (sched : list Event) : bool :=
  match sched with
  | [] => false
  | e :: rest =>
      if isRender w e then
        (length (List.filter (isRender w) rest) =? 0)%nat
        && (length (List.filter (isSwap w) rest) =? 1)%nat
      else if isSwap w e then false
      else rendersThenSwaps w rest
  end.

(** A frame-group of [n] windows: every event is of a window below [n],
    and each of them renders and then swaps. *)
Definition frameGroup (n : nat) (sched : list Event) : bool :=
  forallb (fun e => (eventWindow e <? n)%nat) sched
  && forallb (fun w => rendersThenSwaps w sched) (seq 0 n).

(** The swaps that read the counter at 0. *)
Definition firstClaimants (r : Run) : list (nat * SwapAction) :=
  List.filter (fun s => windowIndex (snd s) =? 0) (swaps r).

End Window.

(** ** The GLM functions the camera calls

    GLM is an external header library; these are its definitions
    (glm/geometric, gtc/matrix_transform, gtx/euler_angles) written over
    the reals.  Matrices are column-major like GLM's. *)

Module Glm.
Local Open Scope R_scope.

Record dvec2 := mkVec2 { x2 : R; y2 : R }.
Record dvec3 := mkVec3 { x3 : R; y3 : R; z3 : R }.
Record dvec4 := mkVec4 { x4 : R; y4 : R; z4 : R; w4 : R }.
Record dmat4 := mkMat4 { col0 : dvec4; col1 : dvec4; col2 : dvec4; col3 : dvec4 }.

Definition Reqb (a b : R) : bool := if Req_dec_T a b then true else false.
Definition Rltb (a b : R) : bool := if Rlt_dec a b then true else false.

(** [operator==] on dvec3. *)
Definition vec3_eqb (a b : dvec3) : bool :=
  Reqb (x3 a) (x3 b) && Reqb (y3 a) (y3 b) && Reqb (z3 a) (z3 b).

Definition sub3 (a b : dvec3) : dvec3 :=
  mkVec3 (x3 a - x3 b) (y3 a - y3 b) (z3 a - z3 b).
Definition scale3 (a : dvec3) (k : R) : dvec3 :=
  mkVec3 (x3 a * k) (y3 a * k) (z3 a * k).
Definition dot (a b : dvec3) : R := x3 a * x3 b + y3 a * y3 b + z3 a * z3 b.
Definition cross (a b : dvec3) : dvec3 :=
  mkVec3 (y3 a * z3 b - y3 b * z3 a)
         (z3 a * x3 b - z3 b * x3 a)
         (x3 a * y3 b - x3 b * y3 a).
Definition length (a : dvec3) : R := sqrt (dot a a).
Definition inversesqrt (x : R) : R := 1 / sqrt x.
Definition normalize (a : dvec3) : dvec3 := scale3 a (inversesqrt (dot a a)).

(** [dvec3(v)] of a dvec4. *)
Definition xyz (v : dvec4) : dvec3 := mkVec3 (x4 v) (y4 v) (z4 v).

(** [m * v]. *)
Definition mulMV (m : dmat4) (v : dvec4) : dvec4 :=
  mkVec4
    (x4 (col0 m) * x4 v + x4 (col1 m) * y4 v + x4 (col2 m) * z4 v + x4 (col3 m) * w4 v)
    (y4 (col0 m) * x4 v + y4 (col1 m) * y4 v + y4 (col2 m) * z4 v + y4 (col3 m) * w4 v)
    (z4 (col0 m) * x4 v + z4 (col1 m) * y4 v + z4 (col2 m) * z4 v + z4 (col3 m) * w4 v)
    (w4 (col0 m) * x4 v + w4 (col1 m) * y4 v + w4 (col2 m) * z4 v + w4 (col3 m) * w4 v).

(** [glm::lookAt] (right-handed). *)
Definition lookAt (eye center up : dvec3) : dmat4 :=
  let f := normalize (sub3 center eye) in
  let s := normalize (cross f up) in
  let u := cross s f in
  mkMat4 (mkVec4 (x3 s) (x3 u) (- x3 f) 0)
         (mkVec4 (y3 s) (y3 u) (- y3 f) 0)
         (mkVec4 (z3 s) (z3 u) (- z3 f) 0)
         (mkVec4 (- dot s eye) (- dot u eye) (dot f eye) 1).

(** Where [lookAt] normalises a vector of length zero: in floating
    point the normalisation is [0 * (1 / sqrt 0)], a NaN, and the matrix
    is unusable. *)
Definition lookAt_degenerate (eye center up : dvec3) : Prop :=
  dot (sub3 center eye) (sub3 center eye) = 0
  \/ (let f := normalize (sub3 center eye) in dot (cross f up) (cross f up) = 0).

(** [glm::frustum]. *)
Definition frustum (l r b t n f : R) : dmat4 :=
  mkMat4 (mkVec4 (2 * n / (r - l)) 0 0 0)
         (mkVec4 0 (2 * n / (t - b)) 0 0)
         (mkVec4 ((r + l) / (r - l)) ((t + b) / (t - b)) (- (f + n) / (f - n)) (-1))
         (mkVec4 0 0 (- (2 * f * n) / (f - n)) 0).

(** [glm::yawPitchRoll]. *)
Definition yawPitchRoll (yaw pitch roll : R) : dmat4 :=
  let ch := cos yaw in let sh := sin yaw in
  let cp := cos pitch in let sp := sin pitch in
  let cb := cos roll in let sb := sin roll in
  mkMat4 (mkVec4 (ch * cb + sh * sp * sb) (sb * cp) (- sh * cb + ch * sp * sb) 0)
         (mkVec4 (- ch * sb + sh * sp * cb) (cb * cp) (sb * sh + ch * sp * cb) 0)
         (mkVec4 (sh * cp) (- sp) (ch * cp) 0)
         (mkVec4 0 0 0 1).

(** [glm::project (obj, model, proj, viewport)]. *)
Definition project (obj : dvec3) (model proj : dmat4) (viewport : dvec4) : dvec3 :=
  let tmp := mkVec4 (x3 obj) (y3 obj) (z3 obj) 1 in
  let tmp := mulMV model tmp in
  let tmp := mulMV proj tmp in
  let tmp := mkVec4 (x4 tmp / w4 tmp) (y4 tmp / w4 tmp) (z4 tmp / w4 tmp) (w4 tmp / w4 tmp) in
  let tmp := mkVec4 (x4 tmp * 0.5 + 0.5) (y4 tmp * 0.5 + 0.5) (z4 tmp * 0.5 + 0.5) (w4 tmp * 0.5 + 0.5) in
  mkVec3 (x4 tmp * z4 viewport + x4 viewport)
         (y4 tmp * w4 viewport + y4 viewport)
         (z4 tmp).

End Glm.

(** ** The camera (Camera::... in camera.cpp) *)

Module Camera.
Import Glm.
Local Open Scope R_scope.

(** The renderable objects a camera is linked to.  Their code is not
    part of the camera; the camera only calls these two methods. *)
Class Renderable (O : Type) := {
  Object_addCalibrationPoint : dvec3 -> O -> O;
  Object_removeCalibrationPoint : dvec3 -> O -> O
}.

(** Modelled from the spec: the declaration of CalibrationPoint (in
    camera.h) is missing from the sources; the fields are the ones the
    code reads, and the one-argument constructor leaves the point
    not set. *)
Record CalibrationPoint := mkPoint {
  world : dvec3;
  screen : dvec2;
  isSet : bool
}.

Definition CalibrationPoint_of_world (w : dvec3) : CalibrationPoint :=
  mkPoint w (mkVec2 0 0) false.

(** The members of Camera the modelled functions use.  The class is
    declared in a header that is not among the sources, so the types
    are the ones the uses in camera.cpp call for: the lens and pose
    parameters are floating-point numbers, [_selectedCalibrationPoint]
    is an [int] (it is assigned -1 and compared with [int] loop
    indices).  A linked object is held through a weak pointer: [None]
    is an expired one. *)
Record Camera (O : Type) := mkCamera {
  _fov : R; _cx : R; _cy : R;
  _near : R; _far : R;
  _width : R; _height : R;
  _eye : dvec3; _target : dvec3; _up : dvec3;
  _calibrationPoints : list CalibrationPoint;
  _selectedCalibrationPoint : Z;
  _calibrationCalledOnce : bool;
  _updatedParams : bool;
  _objects : list (option O)
}.
Arguments mkCamera {O}.
Arguments _fov {O}.
Arguments _cx {O}.
Arguments _cy {O}.
Arguments _near {O}.
Arguments _far {O}.
Arguments _width {O}.
Arguments _height {O}.
Arguments _eye {O}.
Arguments _target {O}.
Arguments _up {O}.
Arguments _calibrationPoints {O}.
Arguments _selectedCalibrationPoint {O}.
Arguments _calibrationCalledOnce {O}.
Arguments _updatedParams {O}.
Arguments _objects {O}.

Definition M_PI : R := PI.

(** The six bounds [l, r, b, t, n, f] that computeProjectionMatrix
    hands to [frustum]. *)
Record Bounds := mkBounds { bl : R; br : R; bb : R; bt : R; bn : R; bf : R }.

Definition projectionBounds {O} (cam : Camera O) (fov cx cy : R) : Bounds :=
  let n := _near cam in
  let f := _far cam in
  let tTemp := n * tan (fov * M_PI / 360) in
  let bTemp := - tTemp in
  let t := tTemp - (cy - 0.5) * (tTemp - bTemp) in
  let b := bTemp - (cy - 0.5) * (tTemp - bTemp) in
  let rTemp := tTemp * _width cam / _height cam in
  let lTemp := bTemp * _width cam / _height cam in
  let r := rTemp - (cx - 0.5) * (rTemp - lTemp) in
  let l := lTemp - (cx - 0.5) * (rTemp - lTemp) in
  mkBounds l r b t n f.

(** Camera::computeProjectionMatrix(fov, cx, cy). *)
Definition computeProjectionMatrix {O} (cam : Camera O) (fov cx cy : R) : dmat4 :=
  let k := projectionBounds cam fov cx cy in
  frustum (bl k) (br k) (bb k) (bt k) (bn k) (bf k).

Definition set_target {O} (cam : Camera O) (t : dvec3) : Camera O :=
  mkCamera (_fov cam) (_cx cam) (_cy cam) (_near cam) (_far cam)
           (_width cam) (_height cam) (_eye cam) t (_up cam)
           (_calibrationPoints cam) (_selectedCalibrationPoint cam)
           (_calibrationCalledOnce cam) (_updatedParams cam) (_objects cam).

(** The guard of computeViewMatrix: the camera after the test
    [_eye == _target]. *)
Definition fixTarget {O} (cam : Camera O) : Camera O :=
  if vec3_eqb (_eye cam) (_target cam) then
    set_target cam
      (mkVec3 (x3 (_eye cam) + y3 (_up cam))
              (y3 (_eye cam) + z3 (_up cam))
              (z3 (_eye cam) + x3 (_up cam)))
  else cam.

(** Camera::computeViewMatrix(): the camera it leaves and the matrix
    it returns. *)
Definition computeViewMatrix {O} (cam : Camera O) : Camera O * dmat4 :=
  let cam' := fixTarget cam in
  (cam', lookAt (_eye cam') (_target cam') (_up cam')).

(** *** The calibration objective *)

(** [gsl_vector_get]; the vectors of the calibration have 9 entries. *)
Definition gsl_vector_get (v : list R) (i : nat) : R := nth i v 0.

(** The loop that fills [objectPoints] and [imagePoints], in step. *)
Fixpoint collectPoints {O} (camera : Camera O) (pts : list CalibrationPoint)
    (objectPoints imagePoints : list dvec3) : list dvec3 * list dvec3 :=
  match pts with
  | [] => (objectPoints, imagePoints)
  | point :: rest =>
      if negb (isSet point) then collectPoints camera rest objectPoints imagePoints
      else
        collectPoints camera rest
          (objectPoints ++ [mkVec3 (x3 (world point)) (y3 (world point)) (z3 (world point))])
          (imagePoints ++ [mkVec3 ((x2 (screen point) + 1) / 2 * _width camera)
                                  ((y2 (screen point) + 1) / 2 * _height camera)
                                  0])
  end.

Definition zero3 : dvec3 := mkVec3 0 0 0.

(** The loop [for (i = 0; i < imagePoints.size(); ++i)] that sums the
    squared distances; [n] counts the iterations left. *)
Fixpoint sumDistances (objectPoints imagePoints : list dvec3)
    (lookM projM : dmat4) (viewport : dvec4)
    (n : nat) (i : nat) (summedDistance : R) : R :=
  match n with
  | O => summedDistance
  | S n' =>
      let projectedPoint := project (nth i objectPoints zero3) lookM projM viewport in
      let projectedPoint := mkVec3 (x3 projectedPoint) (y3 projectedPoint) 0 in
      sumDistances objectPoints imagePoints lookM projM viewport n' (S i)
        (summedDistance
         + ((x3 (nth i imagePoints zero3) - x3 projectedPoint) ^ 2
            + (y3 (nth i imagePoints zero3) - y3 projectedPoint) ^ 2))
  end.

(** Camera::cameraCalibration_f (v, params); [params] is the camera, or
    NULL. *)
Definition cameraCalibration_f {O} (v : list R) (params : option (Camera O)) : R :=
  match params with
  | None => 0
  | Some camera =>
      let fov := gsl_vector_get v 0 in
      let cx := gsl_vector_get v 1 in
      let cy := gsl_vector_get v 2 in
      let eye := mkVec3 (gsl_vector_get v 3) (gsl_vector_get v 4) (gsl_vector_get v 5) in
      let euler := mkVec3 (gsl_vector_get v 6) (gsl_vector_get v 7) (gsl_vector_get v 8) in
      let rotateMat := yawPitchRoll (x3 euler) (y3 euler) (z3 euler) in
      let targetTmp := mulMV rotateMat (mkVec4 1 0 0 0) in
      let upTmp := mulMV rotateMat (mkVec4 0 0 1 0) in
      let target := xyz targetTmp in
      let up := xyz upTmp in
      let '(objectPoints, imagePoints) :=
        collectPoints camera (_calibrationPoints camera) [] [] in
      let lookM := lookAt eye target up in
      let projM := computeProjectionMatrix camera fov cx cy in
      let viewport := mkVec4 0 0 (_width camera) (_height camera) in
      let summedDistance :=
        sumDistances objectPoints imagePoints lookM projM viewport
          (List.length imagePoints) 0 0 in
      summedDistance / INR (List.length imagePoints)
  end.

(** *** Calibration *)

(** Log::Priority, and a line of the log.  A line written without a
    priority has [None]. *)
Inductive Priority := DEBUGGING | MESSAGE | WARNING | ERROR.
Definition LogLine : Type := option Priority * string.

(** What the two minimisation stages of doCalibration leave in
    [selectedValues] and [minValue], and how many times an iteration
    reported an error.  The stages run the GSL simplex minimiser from
    random starts on a thread pool; only their outcome is modelled,
    as a function of the objective and of the camera they start from. *)
Record Minimum := mkMinimum {
  selectedValues : list R;
  minValue : R;
  failedIterations : nat
}.

Definition Minimizer (O : Type) : Type := (list R -> R) -> Camera O -> Minimum.

(** The count [pointsSet] of doCalibration. *)
Fixpoint countPointsSet (pts : list CalibrationPoint) (pointsSet : Z) : Z :=
  match pts with
  | [] => pointsSet
  | point :: rest =>
      countPointsSet rest (if isSet point then (pointsSet + 1)%Z else pointsSet)
  end.

Definition set_calibrationCalledOnce {O} (cam : Camera O) (b : bool) : Camera O :=
  mkCamera (_fov cam) (_cx cam) (_cy cam) (_near cam) (_far cam)
           (_width cam) (_height cam) (_eye cam) (_target cam) (_up cam)
           (_calibrationPoints cam) (_selectedCalibrationPoint cam)
           b (_updatedParams cam) (_objects cam).

(** The third step of doCalibration: the selected values become the
    parameters of the camera. *)
Definition applySelectedValues {O} (cam : Camera O) (sv : list R) : Camera O :=
  let euler := mkVec3 (nth 6 sv 0) (nth 7 sv 0) (nth 8 sv 0) in
  let rotateMat := yawPitchRoll (x3 euler) (y3 euler) (z3 euler) in
  let target := mulMV rotateMat (mkVec4 1 0 0 0) in
  let up := mulMV rotateMat (mkVec4 0 0 1 0) in
  mkCamera (nth 0 sv 0) (nth 1 sv 0) (nth 2 sv 0) (_near cam) (_far cam)
           (_width cam) (_height cam)
           (mkVec3 (nth 3 sv 0) (nth 4 sv 0) (nth 5 sv 0))
           (normalize (xyz target)) (normalize (xyz up))
           (_calibrationPoints cam) (_selectedCalibrationPoint cam)
           (_calibrationCalledOnce cam) true (_objects cam).

Definition msgNeeds6 : LogLine :=
  (Some WARNING, "Camera::doCalibration - Calibration needs at least 6 points"%string).
Definition msgUse7 : LogLine :=
  (Some MESSAGE, "Camera::doCalibration - For better calibration results, use at least 7 points"%string).
Definition msgStarting : LogLine :=
  (None, "Camera::doCalibration - Starting calibration..."%string).
Definition msgIterationError : LogLine :=
  (Some WARNING, "Camera::doCalibration - An error has occured during minimization"%string).
Definition msgMinimumFound : LogLine :=
  (None, "Camera::doCalibration - Minumum found at (fov, cx, cy): "%string).
Definition msgMinimumValue : LogLine :=
  (None, "Camera::doCalibration - Minimum value: "%string).

(** Camera::doCalibration (): the value returned, the camera it leaves
    and the lines it logs (the numbers printed after the last two are
    left out). *)
Definition doCalibration {O} (gsl : Minimizer O) (cam : Camera O)
    : bool * Camera O * list LogLine :=
  let pointsSet := countPointsSet (_calibrationPoints cam) 0 in
  if (pointsSet <? 6)%Z then (false, cam, [msgNeeds6])
  else
    let log0 := if (pointsSet <? 7)%Z then [msgUse7] else [] in
    let cam1 := set_calibrationCalledOnce cam true in
    let m := gsl (fun v => cameraCalibration_f v (Some cam1)) cam1 in
    let cam2 := applySelectedValues cam1 (selectedValues m) in
    (true, cam2,
     log0 ++ [msgStarting] ++ repeat msgIterationError (failedIterations m)
          ++ [msgMinimumFound; msgMinimumValue]).

(** *** Editing the calibration points

    The functions below return [None] where the C++ code has undefined
    behaviour: a call through an expired weak pointer ([lock ()] gives
    a null pointer, which these loops do not test), a division by
    zero, a signed overflow. *)

Definition set_selected {O} (cam : Camera O) (sel : Z) : Camera O :=
  mkCamera (_fov cam) (_cx cam) (_cy cam) (_near cam) (_far cam)
           (_width cam) (_height cam) (_eye cam) (_target cam) (_up cam)
           (_calibrationPoints cam) sel
           (_calibrationCalledOnce cam) (_updatedParams cam) (_objects cam).

Definition set_points {O} (cam : Camera O) (pts : list CalibrationPoint)
    (sel : Z) (calledOnce : bool) (objs : list (option O)) : Camera O :=
  mkCamera (_fov cam) (_cx cam) (_cy cam) (_near cam) (_far cam)
           (_width cam) (_height cam) (_eye cam) (_target cam) (_up cam)
           pts sel calledOnce (_updatedParams cam) objs.

(** [for (auto& objWeakPtr : _objects) objWeakPtr.lock ()->f (...)]. *)
Fixpoint forEachObject {O} (f : O -> O) (objs : list (option O)) : option (list (option O)) :=
  match objs with
  | [] => Some []
  | None :: _ => None
  | Some object :: rest =>
      match forEachObject f rest with
      | None => None
      | Some rest' => Some (Some (f object) :: rest')
      end
  end.

(** The search loop of addCalibrationPoint, from index [i]. *)
Fixpoint findWorld (pts : list CalibrationPoint) (w : dvec3) (i : nat) : option nat :=
  match pts with
  | [] => None
  | p :: rest => if vec3_eqb (world p) w then Some i else findWorld rest w (S i)
  end.

(** Camera::addCalibrationPoint (worldPoint); the argument is the list
    of the values' [asFloat ()]. *)
Definition addCalibrationPoint {O} `{Renderable O} (worldPoint : list R) (cam : Camera O)
    : option (bool * Camera O) :=
  if (List.length worldPoint <? 3)%nat then Some (false, cam)
  else
    let w := mkVec3 (nth 0 worldPoint 0) (nth 1 worldPoint 0) (nth 2 worldPoint 0) in
    match findWorld (_calibrationPoints cam) w 0 with
    | Some i => Some (true, set_selected cam (Z.of_nat i))
    | None =>
        let pts := _calibrationPoints cam ++ [CalibrationPoint_of_world w] in
        let sel := (Z.of_nat (List.length pts) - 1)%Z in
        match forEachObject (Object_addCalibrationPoint w) (_objects cam) with
        | None => None
        | Some objs =>
            Some (true, set_points cam pts sel (_calibrationCalledOnce cam) objs)
        end
    end.

(** [numeric_limits<double>::max ()]. *)
Definition DBL_MAX : R := (2 - / 2 ^ 52) * 2 ^ 1023.

(** The search loop of removeCalibrationPoint for a screen point, from
    index [i]. *)
Fixpoint nearestLoop (pts : list CalibrationPoint) (screenPoint : dvec3)
    (lookM projM : dmat4) (viewport : dvec4)
    (i : nat) (minDist : R) (index : Z) : R * Z :=
  match pts with
  | [] => (minDist, index)
  | p :: rest =>
      let projectedPoint := project (world p) lookM projM viewport in
      let projectedPoint := mkVec3 (x3 projectedPoint) (y3 projectedPoint) 0 in
      if Rltb (length (sub3 projectedPoint screenPoint)) minDist then
        nearestLoop rest screenPoint lookM projM viewport (S i)
          (length (sub3 projectedPoint screenPoint)) (Z.of_nat i)
      else
        nearestLoop rest screenPoint lookM projM viewport (S i) minDist index
  end.

(** The loop of removeCalibrationPoint for a world point:
    [for (i = 0; i < _calibrationPoints.size (); ++i)], erasing inside
    the loop.  [n] bounds the iterations left; [i] grows at each one
    and the vector never does, so its size is bound enough. *)
Fixpoint removeWorldLoop {O} `{Renderable O} (n : nat) (i : nat) (w : dvec3) (unlessSet : bool)
    (pts : list CalibrationPoint) (sel : Z) (objs : list (option O))
    : option (list CalibrationPoint * Z * list (option O)) :=
  match n with
  | O => Some (pts, sel, objs)
  | S n' =>
      match pts !! i with
      | None => Some (pts, sel, objs)
      | Some p =>
          if vec3_eqb (world p) w then
            if isSet p && unlessSet then
              removeWorldLoop n' (S i) w unlessSet pts sel objs
            else
              match forEachObject (Object_removeCalibrationPoint w) objs with
              | None => None
              | Some objs' =>
                  removeWorldLoop n' (S i) w unlessSet (delete i pts) (-1)%Z objs'
              end
          else removeWorldLoop n' (S i) w unlessSet pts sel objs
      end
  end.

(** Camera::removeCalibrationPoint (point, unlessSet). *)
Definition removeCalibrationPoint {O} `{Renderable O} (point : list R) (unlessSet : bool)
    (cam : Camera O) : option (Camera O) :=
  if (List.length point =? 2)%nat then
    let screenPoint := mkVec3 (nth 0 point 0) (nth 1 point 0) 0 in
    let lookM := lookAt (_eye cam) (_target cam) (_up cam) in
    let projM := computeProjectionMatrix cam (_fov cam) (_cx cam) (_cy cam) in
    let viewport := mkVec4 0 0 (_width cam) (_height cam) in
    let '(minDist, index) :=
      nearestLoop (_calibrationPoints cam) screenPoint lookM projM viewport
        0 DBL_MAX (-1)%Z in
    if negb (index =? -1)%Z then
      match _calibrationPoints cam !! Z.to_nat index with
      | None => None
      | Some p =>
          match forEachObject (Object_removeCalibrationPoint (world p)) (_objects cam) with
          | None => None
          | Some objs =>
              Some (set_points cam (delete (Z.to_nat index) (_calibrationPoints cam))
                               (_selectedCalibrationPoint cam) false objs)
          end
      end
    else Some cam
  else if (List.length point =? 3)%nat then
    let w := mkVec3 (nth 0 point 0) (nth 1 point 0) (nth 2 point 0) in
    match removeWorldLoop (List.length (_calibrationPoints cam)) 0 w unlessSet
            (_calibrationPoints cam) (_selectedCalibrationPoint cam) (_objects cam) with
    | None => None
    | Some (pts, sel, objs) => Some (set_points cam pts sel false objs)
    end
  else Some cam.

(** Conversions of the handler below: [int] to [size_t] and back. *)
Definition to_size_t (v : Z) : Z := (v mod 2 ^ 64)%Z.
Definition to_int (v : Z) : Z := ((v + 2 ^ 31) mod 2 ^ 32 - 2 ^ 31)%Z.
Definition INT_MAX : Z := (2 ^ 31 - 1)%Z.

(** The attribute handler selectNextCalibrationPoint. *)
Definition selectNextCalibrationPoint {O} (cam : Camera O) : option (bool * Camera O) :=
  let size := Z.of_nat (List.length (_calibrationPoints cam)) in
  if (INT_MAX <? _selectedCalibrationPoint cam + 1)%Z then None
  else if (size =? 0)%Z then None
  else
    Some (true,
          set_selected cam
            (to_int (to_size_t (_selectedCalibrationPoint cam + 1) mod size)%Z)).

(** The attribute handler selectPreviousCalibrationPoint. *)
Definition selectPreviousCalibrationPoint {O} (cam : Camera O) : option (bool * Camera O) :=
  let size := Z.of_nat (List.length (_calibrationPoints cam)) in
  if (_selectedCalibrationPoint cam =? 0)%Z then
    Some (true, set_selected cam (to_int (to_size_t (size - 1))))
  else if (_selectedCalibrationPoint cam - 1 <? - INT_MAX - 1)%Z then None
  else Some (true, set_selected cam (_selectedCalibrationPoint cam - 1)%Z).

(** Camera::deselectCalibrationPoint (). *)
Definition deselectCalibrationPoint {O} (cam : Camera O) : Camera O :=
  set_selected cam (-1)%Z.

End Camera.

(** ** Reference definitions for the statements *)

Import BlendMap.

(** A row of five cells, set at columns 0, 2 and 4, with one camera's
    weights (4096 plus a blend factor) in the set cells. *)
Definition threeSetCells : list Z := [4196; 0; 4296; 0; 4146].
Definition threeSetFlags : list bool := [true; false; true; false; true].

(** The value the interpolation between the bracketing cells gives. *)
Definition bracketValue (lastKnown nextKnown : Z) (holeStart holeEnd x : Z) : Z :=
  lastKnown + Z.quot ((nextKnown - lastKnown) * (x - holeStart)) (holeEnd - holeStart).

(** The cells of the row at [base] are set at columns [a] and [b] and
    nowhere else. *)
Definition onlySetAt (width base a b : nat) (isSet : list bool) : Prop :=
  forall x : nat, (x < width)%nat ->
    (getSet isSet (base + x) = true <-> x = a \/ x = b).

(** The map and the flags after the columns [x], ..., [x + k - 1] of a
    hole were filled. *)
Fixpoint fillRange (base : nat) (st : HoleState) (x k : nat) (camMap : list Z) : list Z :=
  match k with
  | O => camMap
  | S k' => fillRange base st (S x) k' (<[(base + x)%nat := holeValue st x]> camMap)
  end.

Fixpoint setRange (base : nat) (x k : nat) (isSet : list bool) : list bool :=
  match k with
  | O => isSet
  | S k' => setRange base (S x) k' (<[(base + x)%nat := true]> isSet)
  end.

(** [finishes x st camMap isSet r]: from column [x] on, the loop ends
    with [r]. *)
Definition finishes (width base : nat) (x : nat) (st : HoleState)
    (camMap : list Z) (isSet : list bool) (r : list Z * list bool) : Prop :=
  exists fuel, fillRowFrom width base fuel x st camMap isSet = Some r.

(** A row of ten cells, set at columns 0 and 9 with the values 100
    and 200. *)
Definition rampCells : list Z := [100; 0; 0; 0; 0; 0; 0; 0; 0; 200].
Definition rampFlags : list bool :=
  [true; false; false; false; false; false; false; false; false; true].

(** The indices the accumulation visits, in order. *)
Definition accIndices (width height : nat) : list nat :=
  flat_map (fun y => map (fun x => (y + width * x)%nat) (seq 0 width)) (seq 0 height).

(** The additions of the camera's cells at the indices [idx], in order. *)
Fixpoint addCells (idx : list nat) (camMap imageMap : list Z) : option (list Z) :=
  match idx with
  | [] => Some imageMap
  | i :: rest =>
      match addCell i camMap imageMap with
      | None => None
      | Some imageMap' => addCells rest camMap imageMap'
      end
  end.

(** A cell of the shared map after the camera's cell [c] was added to it
    [n] times. *)
Definition addTimes (n : nat) (c : Z) (a : Z) : Z :=
  match n with
  | O => a
  | S _ => to_ushort (a + Z.of_nat n * c)
  end.

(** The sum of two maps cell by cell, in unsigned 16-bit arithmetic. *)
Definition addMaps (imageMap camMap : list Z) : list Z :=
  zip_with (fun a c => to_ushort (a + c)) imageMap camMap.

(** The swap protocol as the specification describes it. *)
Module SwapSpec.
Import Window.

(** The action of the swap that reads the counter at [k], on a build
    without HAVE_OSX: the first claimant blits to the back buffer and
    presents, the others blit to the front buffer. *)
Definition actionAt (k : Z) : SwapAction :=
  mkSwap k (if k =? 0 then GL_BACK else GL_FRONT) (k =? 0).

(** The swaps of the windows [ws], in order, the first one reading [k]. *)
Fixpoint swapTrace (k : Z) (ws : list nat) : list (nat * SwapAction) :=
  match ws with
  | [] => []
  | w :: rest => (w, actionAt k) :: swapTrace (k + 1) rest
  end.

(** A swap that is not the first claimant bypasses the presentation. *)
Definition bypasses (s : nat * SwapAction) : bool :=
  match drawBuffer (snd s) with GL_FRONT => negb (presented (snd s)) | GL_BACK => false end.

Definition othersBypass (r : Run) : bool :=
  forallb (fun s => (windowIndex (snd s) =? 0) || bypasses s) (swaps r).

(** The frame-group in which each window renders and swaps before the
    next one renders. *)
Definition oneWindowAfterTheOther : list Event :=
  [Render 0; SwapBuffers 0; Render 1; SwapBuffers 1].

End SwapSpec.

(** The notions the statements about the camera use, and the cameras
    they are tried on. *)
Module CameraSpec.
Import Glm Camera.
Local Open Scope R_scope.

(** A camera with the default lens, no calibration point and no linked
    object, at a given pose. *)
Definition cameraAt (eye target up : dvec3) : Camera unit :=
  mkCamera 35 0.5 0.5 0.1 100 512 512 eye target up [] (-1)%Z false false [].

(** The eye on the target, and no up vector. *)
Definition cameraWithoutUp : Camera unit :=
  cameraAt (mkVec3 0 0 0) (mkVec3 0 0 0) (mkVec3 0 0 0).

(** The eye on the target, and an up vector along the diagonal. *)
Definition cameraDiagonalUp : Camera unit :=
  cameraAt (mkVec3 0 0 0) (mkVec3 0 0 0) (mkVec3 1 1 1).

(** The eye on the target, and the default up vector. *)
Definition cameraDefaultUp : Camera unit :=
  cameraAt (mkVec3 1 0 5) (mkVec3 1 0 5) (mkVec3 0 0 1).

(** The calibration objective as the specification describes it, for
    the parameter vector [v] = (fov, cx, cy, eye, euler). *)

(** The view: look-at from the eye, with the forward vector (1, 0, 0)
    and the up vector (0, 0, 1) rotated by yaw, pitch and roll. *)
Definition calibrationView (v : list R) : dmat4 :=
  let r := yawPitchRoll (nth 6 v 0) (nth 7 v 0) (nth 8 v 0) in
  lookAt (mkVec3 (nth 3 v 0) (nth 4 v 0) (nth 5 v 0))
         (xyz (mulMV r (mkVec4 1 0 0 0)))
         (xyz (mulMV r (mkVec4 0 0 1 0))).

(** The pixel a world point projects to. *)
Definition projectedPixel {O} (cam : Camera O) (v : list R) (w : dvec3) : dvec3 :=
  project w (calibrationView v)
          (computeProjectionMatrix cam (nth 0 v 0) (nth 1 v 0) (nth 2 v 0))
          (mkVec4 0 0 (_width cam) (_height cam)).

(** The pixel of an observed screen point, from [-1, 1] to pixels. *)
Definition observedPixel {O} (cam : Camera O) (s : dvec2) : dvec2 :=
  mkVec2 ((x2 s + 1) / 2 * _width cam) ((y2 s + 1) / 2 * _height cam).

(** The squared pixel distance of one calibration point. *)
Definition squaredError {O} (cam : Camera O) (v : list R) (p : CalibrationPoint) : R :=
  (x2 (observedPixel cam (screen p)) - x3 (projectedPixel cam v (world p))) ^ 2
  + (y2 (observedPixel cam (screen p)) - y3 (projectedPixel cam v (world p))) ^ 2.

Definition sumR (l : list R) : R := fold_right Rplus 0 l.

(** The mean of the squared errors over the points that are set. *)
Definition meanSquaredError {O} (cam : Camera O) (v : list R) : R :=
  let used := List.filter isSet (_calibrationPoints cam) in
  sumR (map (squaredError cam v) used) / INR (List.length used).

(** The number of calibration points that are set. *)
Definition numberSet {O} (cam : Camera O) : nat :=
  List.length (List.filter isSet (_calibrationPoints cam)).

(** A calibration point that is set. *)
Definition setPoint (x y z sx sy : R) : CalibrationPoint :=
  mkPoint (mkVec3 x y z) (mkVec2 sx sy) true.

(** A camera with six set points. *)
Definition cameraSixPoints : Camera unit :=
  mkCamera 35 0.5 0.5 0.1 100 512 512
           (mkVec3 1 0 5) (mkVec3 0 0 0) (mkVec3 0 0 1)
           [setPoint 0 0 0 0 0; setPoint 1 0 0 0.5 0; setPoint 0 1 0 0 0.5;
            setPoint 0 0 1 0.5 0.5; setPoint 1 1 0 (-0.5) 0; setPoint 1 0 1 0 (-0.5)]
           (-1)%Z false false [].

(** A minimiser that stays at its start. *)
Definition idleMinimizer : Minimizer unit :=
  fun f cam => mkMinimum [35; 0.5; 0.5; 1; 0; 5; 0; 0; 0] 0 0.

(** The states reachable through addCalibrationPoint from a camera
    without calibration points. *)
Inductive reachableByAdd {O} `{Renderable O} : Camera O -> Prop :=
| reach_empty (cam : Camera O) :
    _calibrationPoints cam = [] -> reachableByAdd cam
| reach_add (cam cam' : Camera O) (worldPoint : list R) (ret : bool) :
    reachableByAdd cam ->
    addCalibrationPoint worldPoint cam = Some (ret, cam') ->
    reachableByAdd cam'.

(** The world coordinates of the calibration points, in order. *)
Definition worlds {O} (cam : Camera O) : list dvec3 :=
  map world (_calibrationPoints cam).

(** Every weak pointer of the camera still has its object. *)
Definition allObjectsAlive {O} (cam : Camera O) : Prop :=
  Forall (fun o => o <> None) (_objects cam).

(** A renderable that records the calibration points it is told of. *)
Definition Recorder : Type := list dvec3.

#[export] Instance Recorder_Renderable : Renderable Recorder := {
  Object_addCalibrationPoint w o := o ++ [w];
  Object_removeCalibrationPoint w o := List.filter (fun p => negb (vec3_eqb p w)) o
}.

#[export] Instance unit_Renderable : Renderable unit := {
  Object_addCalibrationPoint _ o := o;
  Object_removeCalibrationPoint _ o := o
}.

(** A camera with one calibration point, linked to two objects. *)
Definition cameraOnePoint : Camera Recorder :=
  mkCamera 35 0.5 0.5 0.1 100 512 512
           (mkVec3 1 0 5) (mkVec3 0 0 0) (mkVec3 0 0 1)
           [CalibrationPoint_of_world (mkVec3 1 2 3)]
           0%Z false false [Some [mkVec3 1 2 3]; Some [mkVec3 1 2 3]].

(** A camera with three calibration points, the first one selected. *)
Definition cameraThreePoints : Camera unit :=
  mkCamera 35 0.5 0.5 0.1 100 512 512
           (mkVec3 1 0 5) (mkVec3 0 0 0) (mkVec3 0 0 1)
           [CalibrationPoint_of_world (mkVec3 0 0 0);
            CalibrationPoint_of_world (mkVec3 1 0 0);
            CalibrationPoint_of_world (mkVec3 0 1 0)]
           0%Z false false [].

(** The same camera after the point is deselected and the handler
    selectPreviousCalibrationPoint has run: the selection is -2. *)
Definition cameraSelectionBelow : Camera unit :=
  set_selected cameraThreePoints (-2)%Z.

(** A camera at the origin that looks down the negative z axis, with a
    field of view of 90 degrees on a viewport of 2 by 2 pixels, and one
    calibration point that is set; the point projects to the pixel
    (1, 1), the centre of the viewport. *)
Definition cameraOneSetPoint : Camera unit :=
  mkCamera 90 0.5 0.5 1 3 2 2
           (mkVec3 0 0 0) (mkVec3 0 0 (-1)) (mkVec3 0 1 0)
           [mkPoint (mkVec3 0 0 (-2)) (mkVec2 0 0) true]
           0%Z true false [].


(** Two calibration points that are set and one that is not, two of
    them at the same world point. *)
Definition cameraMixedPoints : Camera unit :=
  mkCamera 35 0.5 0.5 0.1 100 512 512
           (mkVec3 1 0 5) (mkVec3 0 0 0) (mkVec3 0 0 1)
           [mkPoint (mkVec3 1 2 3) (mkVec2 0 0) true;
            mkPoint (mkVec3 4 5 6) (mkVec2 0 0) false;
            mkPoint (mkVec3 1 2 3) (mkVec2 0 0) false]
           1%Z true false [].

End CameraSpec.

(** ** The input queues of the windows (Window::keyCallback, getKeys, ...)

    The queues are static members shared by all the windows; every
    function below holds [_callbackMutex] from its first statement to
    its last, so each is one atomic step on the queues. *)

Module WindowInput.

(** A [GLFWwindow*]. *)
Definition GLFWwindow : Type := nat.

Record Queues := mkQueues {
  _keys : list (GLFWwindow * list Z);
  _chars : list (GLFWwindow * Z);
  _mouseBtn : list (GLFWwindow * list Z);
  _pathDropped : list string;
  _quitFlag : bool
}.

Definition noInput : Queues := mkQueues [] [] [] [] false.

(** Window::keyCallback. *)
Definition keyCallback (win : GLFWwindow) (key scancode action mods : Z) (q : Queues) : Queues :=
  mkQueues (_keys q ++ [(win, [key; scancode; action; mods])])
           (_chars q) (_mouseBtn q) (_pathDropped q) (_quitFlag q).

(** Window::charCallback. *)
Definition charCallback (win : GLFWwindow) (codepoint : Z) (q : Queues) : Queues :=
  mkQueues (_keys q) (_chars q ++ [(win, codepoint)])
           (_mouseBtn q) (_pathDropped q) (_quitFlag q).

(** Window::mouseBtnCallback. *)
Definition mouseBtnCallback (win : GLFWwindow) (button action mods : Z) (q : Queues) : Queues :=
  mkQueues (_keys q) (_chars q) (_mouseBtn q ++ [(win, [button; action; mods])])
           (_pathDropped q) (_quitFlag q).

(** Window::pathdropCallback: [count] strings of the array [paths]; a
    count beyond the array reads out of it. *)
Fixpoint pushPaths (count : nat) (paths : list string) (dropped : list string)
    : option (list string) :=
  match count with
  | O => Some dropped
  | S count' =>
      match paths with
      | [] => None
      | p :: rest => pushPaths count' rest (dropped ++ [p])
      end
  end.

Definition pathdropCallback (win : GLFWwindow) (count : nat) (paths : list string)
    (q : Queues) : option Queues :=
  match pushPaths count paths (_pathDropped q) with
  | None => None
  | Some dropped =>
      Some (mkQueues (_keys q) (_chars q) (_mouseBtn q) dropped (_quitFlag q))
  end.

(** Window::closeCallback. *)
Definition closeCallback (win : GLFWwindow) (q : Queues) : Queues :=
  mkQueues (_keys q) (_chars q) (_mouseBtn q) (_pathDropped q) true.

(** The reference arguments of getKeys and getMouseBtn: the window and
    three integers. *)
Record KeyOut := mkKeyOut { out_win : GLFWwindow; out_key : Z; out_action : Z; out_mods : Z }.

(** Window::getKeys (win, key, action, mods): the value returned (the
    size of the queue plus one, converted to int), the reference
    arguments after the call, and the queues.  An event vector shorter
    than the indices read has no defined result. *)
Definition getKeys (out : KeyOut) (q : Queues) : option (Z * KeyOut * Queues) :=
  match _keys q with
  | [] => Some (0, out, q)
  | (win, keys) :: rest =>
      match keys !! 0%nat, keys !! 2%nat, keys !! 3%nat with
      | Some key, Some action, Some mods =>
          Some (Window.wrap_int (Z.of_nat (List.length rest) + 1),
                mkKeyOut win key action mods,
                mkQueues rest (_chars q) (_mouseBtn q) (_pathDropped q) (_quitFlag q))
      | _, _, _ => None
      end
  end.

(** Window::getMouseBtn (win, btn, action, mods). *)
Definition getMouseBtn (out : KeyOut) (q : Queues) : option (Z * KeyOut * Queues) :=
  match _mouseBtn q with
  | [] => Some (0, out, q)
  | (win, mouse) :: rest =>
      match mouse !! 0%nat, mouse !! 1%nat, mouse !! 2%nat with
      | Some btn, Some action, Some mods =>
          Some (Window.wrap_int (Z.of_nat (List.length rest) + 1),
                mkKeyOut win btn action mods,
                mkQueues (_keys q) (_chars q) rest (_pathDropped q) (_quitFlag q))
      | _, _, _ => None
      end
  end.

(** Window::getChars (win, codepoint). *)
Definition getChars (out : GLFWwindow * Z) (q : Queues) : Z * (GLFWwindow * Z) * Queues :=
  match _chars q with
  | [] => (0, out, q)
  | (win, codepoint) :: rest =>
      (Window.wrap_int (Z.of_nat (List.length rest) + 1), (win, codepoint),
       mkQueues (_keys q) rest (_mouseBtn q) (_pathDropped q) (_quitFlag q))
  end.

(** Window::getPathDropped (). *)
Definition getPathDropped (q : Queues) : list string * Queues :=
  (_pathDropped q,
   mkQueues (_keys q) (_chars q) (_mouseBtn q) [] (_quitFlag q)).

(** The calls of a run: the callbacks the windowing library makes and
    the polls of the application, in the order in which they take the
    mutex. *)
Inductive Call :=
| KeyEvent (win : GLFWwindow) (key scancode action mods : Z)
| CharEvent (win : GLFWwindow) (codepoint : Z)
| MouseBtnEvent (win : GLFWwindow) (button action mods : Z)
| PathDrop (win : GLFWwindow) (paths : list string)
| CloseEvent (win : GLFWwindow)
| PollKeys
| PollMouseBtn
| PollChars
| PollPaths.

(** What the polls of a run have returned, oldest first. *)
Record Polled := mkPolled {
  polledKeys : list (Z * KeyOut);
  polledMouse : list (Z * KeyOut);
  polledChars : list (Z * (GLFWwindow * Z));
  polledPaths : list (list string)
}.

Record Trace := mkTrace {
  queues : Queues;
  keyOut : KeyOut;
  mouseOut : KeyOut;
  charOut : GLFWwindow * Z;
  polled : Polled
}.

Definition call (t : Trace) (c : Call) : option Trace :=
  let p := polled t in
  match c with
  | KeyEvent win key scancode action mods =>
      Some (mkTrace (keyCallback win key scancode action mods (queues t))
                    (keyOut t) (mouseOut t) (charOut t) p)
  | CharEvent win codepoint =>
      Some (mkTrace (charCallback win codepoint (queues t))
                    (keyOut t) (mouseOut t) (charOut t) p)
  | MouseBtnEvent win button action mods =>
      Some (mkTrace (mouseBtnCallback win button action mods (queues t))
                    (keyOut t) (mouseOut t) (charOut t) p)
  | PathDrop win paths =>
      match pathdropCallback win (List.length paths) paths (queues t) with
      | None => None
      | Some q => Some (mkTrace q (keyOut t) (mouseOut t) (charOut t) p)
      end
  | CloseEvent win =>
      Some (mkTrace (closeCallback win (queues t)) (keyOut t) (mouseOut t) (charOut t) p)
  | PollKeys =>
      match getKeys (keyOut t) (queues t) with
      | None => None
      | Some (ret, out, q) =>
          Some (mkTrace q out (mouseOut t) (charOut t)
                  (mkPolled (polledKeys p ++ [(ret, out)]) (polledMouse p)
                            (polledChars p) (polledPaths p)))
      end
  | PollMouseBtn =>
      match getMouseBtn (mouseOut t) (queues t) with
      | None => None
      | Some (ret, out, q) =>
          Some (mkTrace q (keyOut t) out (charOut t)
                  (mkPolled (polledKeys p) (polledMouse p ++ [(ret, out)])
                            (polledChars p) (polledPaths p)))
      end
  | PollChars =>
      let '(ret, out, q) := getChars (charOut t) (queues t) in
      Some (mkTrace q (keyOut t) (mouseOut t) out
              (mkPolled (polledKeys p) (polledMouse p)
                        (polledChars p ++ [(ret, out)]) (polledPaths p)))
  | PollPaths =>
      let '(paths, q) := getPathDropped (queues t) in
      Some (mkTrace q (keyOut t) (mouseOut t) (charOut t)
              (mkPolled (polledKeys p) (polledMouse p) (polledChars p)
                        (polledPaths p ++ [paths])))
  end.

Fixpoint calls (t : Trace) (cs : list Call) : option Trace :=
  match cs with
  | [] => Some t
  | c :: rest =>
      match call t c with
      | None => None
      | Some t' => calls t' rest
      end
  end.

Definition start (out0 : KeyOut) : Trace :=
  mkTrace noInput out0 out0 (out_win out0, out_key out0) (mkPolled [] [] [] []).

(** The key events of a run as a poll reports them: window, key,
    action and modifiers (the scancode is not reported). *)
Definition keyEvents (cs : list Call) : list KeyOut :=
  flat_map (fun c => match c with
                     | KeyEvent win key scancode action mods => [mkKeyOut win key action mods]
                     | _ => []
                     end) cs.

Definition mouseEvents (cs : list Call) : list KeyOut :=
  flat_map (fun c => match c with
                     | MouseBtnEvent win button action mods => [mkKeyOut win button action mods]
                     | _ => []
                     end) cs.

Definition droppedPaths (cs : list Call) : list string :=
  flat_map (fun c => match c with PathDrop _ paths => paths | _ => [] end) cs.

(** The events the polls have delivered: a poll that returns 0
    delivers nothing. *)
Definition delivered (ps : list (Z * KeyOut)) : list KeyOut :=
  map snd (List.filter (fun p => negb (fst p =? 0)) ps).

(** The events still queued, as a poll would report them. *)
Definition pendingKeys (q : Queues) : list KeyOut :=
  map (fun e => mkKeyOut (fst e) (nth 0 (snd e) 0) (nth 2 (snd e) 0) (nth 3 (snd e) 0))
      (_keys q).

Definition pendingMouse (q : Queues) : list KeyOut :=
  map (fun e => mkKeyOut (fst e) (nth 0 (snd e) 0) (nth 1 (snd e) 0) (nth 2 (snd e) 0))
      (_mouseBtn q).

End WindowInput.

(** The invariant of the input queues and what a run has seen of each
    kind of event so far: what the polls delivered, then what is still
    queued. *)
Module WindowInputSpec.
Import WindowInput.

Definition wellFormed (n : nat) (q : Queues) : Prop :=
  Forall (fun e => List.length (snd e) = 4%nat) (_keys q)
  /\ Forall (fun e => List.length (snd e) = 3%nat) (_mouseBtn q)
  /\ (List.length (_keys q) <= n)%nat
  /\ (List.length (_mouseBtn q) <= n)%nat.

Definition keysSeen (t : Trace) : list KeyOut :=
  delivered (polledKeys (polled t)) ++ pendingKeys (queues t).

Definition mouseSeen (t : Trace) : list KeyOut :=
  delivered (polledMouse (polled t)) ++ pendingMouse (queues t).

Definition pathsSeen (t : Trace) : list string :=
  concat (polledPaths (polled t)) ++ _pathDropped (queues t).

End WindowInputSpec.

(** ** The input textures of a window (Window::setTexture,
    Window::unsetTexture) *)

Module WindowTextures.

(** A texture object, by identity. *)
Definition Texture : Type := nat.

(** The calls made on the [_screen] object. *)
Inductive ScreenCall :=
| AddTexture (tex : Texture)
| RemoveTexture (tex : Texture).

(** [_inTextures] is a vector of weak pointers: each entry points to a
    texture, and is expired once that texture has been destroyed
    ([gone]). *)
Record State := mkState {
  _inTextures : list Texture;
  gone : list Texture;
  _screen : list ScreenCall
}.

Definition noTexture : State := mkState [] [] [].

Definition expired (s : State) (t : Texture) : bool := existsb (Nat.eqb t) (gone s).

(** The predicate given to find_if by both functions. *)
Definition sameTexture (s : State) (tex : Texture) (t : Texture) : bool :=
  if expired s t then false
  else if Nat.eqb t tex then true
  else false.

(** std::find_if: the index of the first entry satisfying the
    predicate, [None] for end(). *)
Fixpoint find_if (p : Texture -> bool) (l : list Texture) : option nat :=
  match l with
  | [] => None
  | t :: rest => if p t then Some O else option_map S (find_if p rest)
  end.

(** Window::setTexture. *)
Definition setTexture (tex : Texture) (s : State) : State :=
  match find_if (sameTexture s tex) (_inTextures s) with
  | Some _ => s
  | None => mkState (_inTextures s ++ [tex]) (gone s) (_screen s ++ [AddTexture tex])
  end.

(** Window::unsetTexture. *)
Definition unsetTexture (tex : Texture) (s : State) : State :=
  match find_if (sameTexture s tex) (_inTextures s) with
  | Some textureIt =>
      mkState (delete textureIt (_inTextures s)) (gone s)
              (_screen s ++ [RemoveTexture tex])
  | None => s
  end.

(** The Camera branches of Window::linkTo and Window::unlinkFrom: a
    loop over the camera's textures. *)
Definition linkCamera (texs : list Texture) (s : State) : State :=
  fold_left (fun s tex => setTexture tex s) texs s.

Definition unlinkCamera (texs : list Texture) (s : State) : State :=
  fold_left (fun s tex => unsetTexture tex s) texs s.

(** What happens to a window's textures in a run: the calls above, and
    the destruction of a texture somewhere else. *)
Inductive Call :=
| SetTexture (tex : Texture)
| UnsetTexture (tex : Texture)
| LinkCamera (texs : list Texture)
| UnlinkCamera (texs : list Texture)
| Destroyed (tex : Texture).

Definition call (s : State) (c : Call) : State :=
  match c with
  | SetTexture tex => setTexture tex s
  | UnsetTexture tex => unsetTexture tex s
  | LinkCamera texs => linkCamera texs s
  | UnlinkCamera texs => unlinkCamera texs s
  | Destroyed tex => mkState (_inTextures s) (tex :: gone s) (_screen s)
  end.

Definition calls (s : State) (cs : list Call) : State := fold_left call cs s.

End WindowTextures.

(** A texture handed to a call is held by a shared pointer, hence not
    destroyed, and a destroyed texture never comes back. *)
Module WindowTexturesSpec.
Import WindowTextures.

Definition usable (s : State) (c : Call) : Prop :=
  match c with
  | SetTexture tex | UnsetTexture tex => expired s tex = false
  | LinkCamera texs | UnlinkCamera texs => Forall (fun tex => expired s tex = false) texs
  | Destroyed _ => True
  end.

Fixpoint possible (s : State) (cs : list Call) : Prop :=
  match cs with
  | [] => True
  | c :: rest => usable s c /\ possible (call s c) rest
  end.

(** How many times the screen was told to add, and to remove, a
    texture. *)
Definition added (tex : Texture) (log : list ScreenCall) : nat :=
  List.length (List.filter (fun c => match c with AddTexture t => Nat.eqb t tex | _ => false end) log).

Definition removed (tex : Texture) (log : list ScreenCall) : nat :=
  List.length (List.filter (fun c => match c with RemoveTexture t => Nat.eqb t tex | _ => false end) log).

(** How many entries of [_inTextures] point to a texture. *)
Definition entries (tex : Texture) (l : list Texture) : nat :=
  List.length (List.filter (fun t => Nat.eqb t tex) l).


(** The screen has been told of every entry of [_inTextures]. *)
Definition inSync (s : State) : Prop :=
  forall tex,
    (entries tex (_inTextures s) + removed tex (_screen s))%nat = added tex (_screen s).

End WindowTexturesSpec.

(** ** The GL context of a window (GlWindow::setAsCurrentContext,
    GlWindow::releaseContext) *)

Module GlContext.

Definition GLFWwindow : Type := nat.

(** A GlWindow object; a pointer is [None] when it is nullptr, the
    mutex is [true] when it is locked. *)
Record GlWindow := mkGlWindow {
  _mutex : bool;
  _previousWindow : option GLFWwindow;
  _window : option GLFWwindow
}.

(** The calling thread: its current context (glfwGetCurrentContext) and
    the GlWindow objects, by identity. *)
Record Thread := mkThread {
  currentContext : option GLFWwindow;
  objects : nat -> GlWindow
}.

Definition ptr_eqb (a b : option GLFWwindow) : bool :=
  match a, b with
  | None, None => true
  | Some x, Some y => Nat.eqb x y
  | _, _ => false
  end.

Definition store (k : nat) (o : GlWindow) (objs : nat -> GlWindow) : nat -> GlWindow :=
  fun j => if Nat.eqb j k then o else objs j.

(** GlWindow::setAsCurrentContext on the object [k].  Locking a mutex
    that the thread already holds never returns. *)
Definition setAsCurrentContext (k : nat) (t : Thread) : option Thread :=
  let o := objects t k in
  let previous := currentContext t in
  if ptr_eqb previous (_window o) then
    Some (mkThread (currentContext t)
                   (store k (mkGlWindow (_mutex o) previous (_window o)) (objects t)))
  else if _mutex o then None
  else
    Some (mkThread (_window o)
                   (store k (mkGlWindow true previous (_window o)) (objects t))).

(** GlWindow::releaseContext on the object [k].  Unlocking a mutex that
    is not locked is undefined. *)
Definition releaseContext (k : nat) (t : Thread) : option Thread :=
  let o := objects t k in
  if ptr_eqb (_window o) (_previousWindow o) then
    Some (mkThread (currentContext t)
                   (store k (mkGlWindow (_mutex o) None (_window o)) (objects t)))
  else if ptr_eqb (currentContext t) (_window o) then
    let '(current, previous) :=
      match _previousWindow o with
      | None => (None, _previousWindow o)
      | Some p => (Some p, None)
      end in
    if _mutex o then
      Some (mkThread current (store k (mkGlWindow false previous (_window o)) (objects t)))
    else None
  else Some t.

Inductive Op :=
| SetAsCurrentContext (k : nat)
| ReleaseContext (k : nat).

Definition op (t : Thread) (o : Op) : option Thread :=
  match o with
  | SetAsCurrentContext k => setAsCurrentContext k t
  | ReleaseContext k => releaseContext k t
  end.

Fixpoint ops (t : Thread) (os : list Op) : option Thread :=
  match os with
  | [] => Some t
  | o :: rest =>
      match op t o with
      | None => None
      | Some t' => ops t' rest
      end
  end.

End GlContext.

(** Calls in matching pairs (set ... release), a pair inside another
    one being on another object. *)
Module GlContextSpec.
Import GlContext.

Inductive nested : list nat -> list Op -> Prop :=
| nested_nil (held : list nat) : nested held []
| nested_pair (held : list nat) (k : nat) (body rest : list Op) :
    ~ In k held ->
    nested (k :: held) body ->
    nested held rest ->
    nested held (SetAsCurrentContext k :: body ++ ReleaseContext k :: rest).

Definition objectOf (o : Op) : nat :=
  match o with SetAsCurrentContext k | ReleaseContext k => k end.

End GlContextSpec.

(** ** Attribute values (struct Value of coretypes.h) *)

Module Values.
Import Ascii.

(** Value::Type. *)
Inductive Type_ := Type_i | Type_l | Type_f | Type_s | Type_v.

Definition Type_eqb (a b : Type_) : bool :=
  match a, b with
  | Type_i, Type_i | Type_l, Type_l | Type_f, Type_f | Type_s, Type_s | Type_v, Type_v => true
  | _, _ => false
  end.

(** The members of a Value; [_v] is a pointer to a deque of values,
    [None] when it is nullptr. *)
Local Unset Elimination Schemes.
Inductive Value := mkValue {
  _type : Type_;
  _i : Z;
  _l : Z;
  _f : R;
  _s : string;
  _v : option (list Value)
}.
Local Set Elimination Schemes.

Definition Values : Type := list Value.

(** The copy constructor: operator= on a new object, whose [_v] is
    nullptr; the deque is copied element by element. *)
Fixpoint copy (v : Value) : Value :=
  mkValue (_type v) (_i v) (_l v) (_f v) (_s v)
          (match _v v with
           | None => None
           | Some l => Some (map copy l)
           end).

(** The constructors. *)
Definition Value_default : Value := mkValue Type_i 0 0 0%R EmptyString None.
Definition Value_int (v : Z) : Value := mkValue Type_i v 0 0%R EmptyString None.
Definition Value_long (v : Z) : Value := mkValue Type_l 0 v 0%R EmptyString None.
Definition Value_float (v : R) : Value := mkValue Type_f 0 0 v EmptyString None.
Definition Value_string (v : string) : Value := mkValue Type_s 0 0 0%R v None.
Definition Value_values (v : Values) : Value :=
  mkValue Type_v 0 0 0%R EmptyString (Some (map copy v)).

(** operator=: every member is taken from [v], except the deque, which
    is copied only when this value has none. *)
Definition assign (this v : Value) : Value :=
  mkValue (_type v) (_i v) (_l v) (_f v) (_s v)
          (match _v this, _v v with
           | None, Some l => Some (map copy l)
           | mine, _ => mine
           end).

(** operator==; its argument is passed by value.  With type v both
    deques are read, a null one having no defined result. *)
Fixpoint operator_eq (this v : Value) {struct this} : option bool :=
  if negb (Type_eqb (_type this) (_type v)) then Some false
  else
    match _type this with
    | Type_i => Some (_i this =? _i v)
    | Type_l => Some (_l this =? _l v)
    | Type_f => Some (Glm.Reqb (_f this) (_f v))
    | Type_s => Some (String.eqb (_s this) (_s v))
    | Type_v =>
        match _v this, _v v with
        | Some mine, Some theirs =>
            if negb (Nat.eqb (List.length mine) (List.length theirs)) then Some false
            else
              (fix loop (mine theirs : list Value) (isEqual : bool) : option bool :=
                 match mine, theirs with
                 | x :: mine', y :: theirs' =>
                     match operator_eq x (copy y) with
                     | None => None
                     | Some e => loop mine' theirs' (isEqual && e)
                     end
                 | _, _ => Some isEqual
                 end) mine theirs true
        | _, _ => None
        end
    end.

(** std::stoi: white space, an optional sign, decimal digits; [None]
    when it throws (no digit, or a value that is no int). *)
Definition isspace (c : ascii) : bool :=
  let n := nat_of_ascii c in
  (Nat.eqb n 32 || (Nat.leb 9 n && Nat.leb n 13))%bool.

Definition digit (c : ascii) : option Z :=
  let n := nat_of_ascii c in
  if (Nat.leb 48 n && Nat.leb n 57)%bool then Some (Z.of_nat n - 48) else None.

Fixpoint skipSpaces (s : string) : string :=
  match s with
  | String c rest => if isspace c then skipSpaces rest else s
  | EmptyString => s
  end.

Fixpoint digits (s : string) (acc : Z) (seen : bool) : option Z :=
  match s with
  | String c rest =>
      match digit c with
      | Some d => digits rest (acc * 10 + d) true
      | None => if seen then Some acc else None
      end
  | EmptyString => if seen then Some acc else None
  end.

Definition stoi (s : string) : option Z :=
  let number :=
    match skipSpaces s with
    | String "-"%char rest => option_map Z.opp (digits rest 0 false)
    | String "+"%char rest => digits rest 0 false
    | rest => digits rest 0 false
    end in
  match number with
  | Some n => if ((- 2 ^ 31 <=? n) && (n <=? 2 ^ 31 - 1))%bool then Some n else None
  | None => None
  end.

(** The conversion of a float to int: truncation, undefined when the
    truncated value is no int. *)
Definition truncate (r : R) : Z :=
  if Rle_dec 0 r then Int_part r else - Int_part (- r).

Definition float_to_int (r : R) : option Z :=
  let n := truncate r in
  if ((- 2 ^ 31 <=? n) && (n <=? 2 ^ 31 - 1))%bool then Some n else None.

(** Value::asInt. *)
Definition asInt (this : Value) : option Z :=
  match _type this with
  | Type_i => Some (_i this)
  | Type_l => Some (Camera.to_int (_l this))
  | Type_f => float_to_int (_f this)
  | Type_s => match stoi (_s this) with Some n => Some n | None => Some 0 end
  | Type_v => Some 0
  end.

(** Value::asValues; with type v it reads the deque, a null one having
    no defined result. *)
Definition asValues (this : Value) : option Values :=
  match _type this with
  | Type_i => Some [Value_int (_i this)]
  | Type_l => Some [Value_long (_l this)]
  | Type_f => Some [Value_float (_f this)]
  | Type_s => Some [Value_string (_s this)]
  | Type_v => match _v this with Some l => Some (map copy l) | None => None end
  end.

End Values.

(** ** The resizing of a window's inputs (end of Window::render) *)

Module WindowResize.
Import Values.

(** The inner loop, from [j] to the number of input textures ([count]
    iterations left): [_layout[j]] is read without a check. *)
Fixpoint innerLoop (_layout : Values) (value : Z) (j count : nat) (resize : bool)
    : option bool :=
  match count with
  | O => Some resize
  | S count' =>
      match _layout !! j with
      | None => None
      | Some vj =>
          match asInt vj with
          | None => None
          | Some x =>
              innerLoop _layout value (S j) count'
                        (if negb (x =? value) then false else resize)
          end
      end
  end.

(** The outer loop over the [size] input textures. *)
Fixpoint outerLoop (_layout : Values) (size i count : nat) (resize : bool) : option bool :=
  match count with
  | O => Some resize
  | S count' =>
      match _layout !! i with
      | None => None
      | Some vi =>
          match asInt vi with
          | None => None
          | Some value =>
              match innerLoop _layout value (S i) (size - S i) resize with
              | None => None
              | Some resize' => outerLoop _layout size (S i) count' resize'
              end
          end
      end
  end.

(** Whether render resizes the input textures to the window's size:
    [size] is [_inTextures.size()]. *)
Definition resizes (size : nat) (_layout : Values) : option bool :=
  outerLoop _layout size 0 size true.

End WindowResize.

Module WindowResizeSpec.
Import Values.

(** The layout values that render reads, as ints. *)
Definition layoutInts (_layout : Values) (ints : list Z) : Prop :=
  forall i x, ints !! i = Some x -> exists v, _layout !! i = Some v /\ asInt v = Some x.


(** All values of a list are the same. *)
Definition uniform (ints : list Z) : bool :=
  match ints with
  | [] => true
  | x :: rest => forallb (Z.eqb x) rest
  end.

Fixpoint pairwise (ints : list Z) : bool :=
  match ints with
  | [] => true
  | x :: rest => forallb (Z.eqb x) rest && pairwise rest
  end.

End WindowResizeSpec.

(** A value whose type is v has a deque, and so have the values of
    that deque. *)
Module ValuesSpec.
Import Values.

Local Unset Elimination Schemes.
Inductive wellFormed : Value -> Prop :=
| wellFormed_scalar (v : Value) : _type v <> Type_v -> wellFormed v
| wellFormed_values (v : Value) (l : list Value) :
    _type v = Type_v -> _v v = Some l -> Forall wellFormed l -> wellFormed v.
Local Set Elimination Schemes.

End ValuesSpec.

(** ** Setting and picking calibration points, and their attributes *)

Module CameraEdit.
Import Glm Camera Values.
Local Open Scope R_scope.

(** Camera::setCalibrationPoint (screenPoint); the argument is the
    list of the values' [asFloat ()].  The selected index is used
    without a check, as are the two values. *)
Definition setCalibrationPoint {O} (screenPoint : list R) (cam : Camera O)
    : option (bool * Camera O) :=
  if (_selectedCalibrationPoint cam =? -1)%Z then Some (false, cam)
  else
    let index := Z.to_nat (to_size_t (_selectedCalibrationPoint cam)) in
    match _calibrationPoints cam !! index, screenPoint !! 0%nat, screenPoint !! 1%nat with
    | Some p, Some x, Some y =>
        Some (true,
              set_points cam
                (<[index := mkPoint (world p) (mkVec2 x y) true]> (_calibrationPoints cam))
                (_selectedCalibrationPoint cam) false (_objects cam))
    | _, _, _ => None
    end.

(** Camera::pickCalibrationPoint (x, y), in normalized coordinates. *)
Definition pickCalibrationPoint {O} (x y : R) (cam : Camera O) : option (list R) :=
  let screenPoint := mkVec3 (x * _width cam) (y * _height cam) 0 in
  let lookM := lookAt (_eye cam) (_target cam) (_up cam) in
  let projM := computeProjectionMatrix cam (_fov cam) (_cx cam) (_cy cam) in
  let viewport := mkVec4 0 0 (_width cam) (_height cam) in
  let '(minDist, index) :=
    nearestLoop (_calibrationPoints cam) screenPoint lookM projM viewport
      0 DBL_MAX (-1)%Z in
  if negb (index =? -1)%Z then
    match _calibrationPoints cam !! Z.to_nat index with
    | None => None
    | Some p => Some [x3 (world p); y3 (world p); z3 (world p)]
    end
  else Some [].

(** Value::asFloat; [stof] is std::stof, [None] when it throws. *)
Definition asFloat (stof : string -> option R) (this : Value) : R :=
  match _type this with
  | Type_i => IZR (_i this)
  | Type_l => IZR (_l this)
  | Type_f => _f this
  | Type_s => match stof (_s this) with Some r => r | None => 0 end
  | Type_v => 0
  end.

(** The attribute removeCalibrationPoint.  [unlessSetDefault] is the
    default value of the second parameter of
    Camera::removeCalibrationPoint, declared in camera.h. *)
Definition attribute_removeCalibrationPoint {O} `{Renderable O}
    (stof : string -> option R) (unlessSetDefault : bool)
    (args : Values) (cam : Camera O) : option (bool * Camera O) :=
  if (List.length args <? 2)%nat then Some (false, cam)
  else if (List.length args =? 3)%nat then
    match args !! 0%nat, args !! 1%nat, args !! 2%nat with
    | Some a0, Some a1, Some a2 =>
        match removeCalibrationPoint [asFloat stof a0; asFloat stof a1; asFloat stof a2]
                unlessSetDefault cam with
        | None => None
        | Some cam' => Some (true, cam')
        end
    | _, _, _ => None
    end
  else
    match args !! 0%nat, args !! 1%nat, args !! 2%nat, args !! 3%nat with
    | Some a0, Some a1, Some a2, Some a3 =>
        match asInt a3 with
        | None => None
        | Some unlessSet =>
            match removeCalibrationPoint [asFloat stof a0; asFloat stof a1; asFloat stof a2]
                    (negb (unlessSet =? 0)%Z) cam with
            | None => None
            | Some cam' => Some (true, cam')
            end
        end
    | _, _, _, _ => None
    end.

(** Camera::sendCalibrationPointsToObjects. *)
Definition sendCalibrationPointsToObjects {O} `{Renderable O}
    (pts : list CalibrationPoint) (objs : list (option O)) : option (list (option O)) :=
  forEachObject
    (fun object => fold_left (fun o point => Object_addCalibrationPoint (world point) o)
                             pts object)
    objs.

(** The loop of the setter of the attribute calibrationPoints. *)
Fixpoint readCalibrationPoints (stof : string -> option R) (args : Values)
    (pts : list CalibrationPoint) : option (list CalibrationPoint) :=
  match args with
  | [] => Some pts
  | arg :: rest =>
      match _type arg with
      | Type_v =>
          match asValues arg with
          | None => None
          | Some v =>
              match v !! 0%nat, v !! 1%nat, v !! 2%nat, v !! 3%nat, v !! 4%nat, v !! 5%nat with
              | Some v0, Some v1, Some v2, Some v3, Some v4, Some v5 =>
                  match asInt v5 with
                  | None => None
                  | Some set =>
                      readCalibrationPoints stof rest
                        (pts ++ [mkPoint (mkVec3 (asFloat stof v0) (asFloat stof v1)
                                                 (asFloat stof v2))
                                         (mkVec2 (asFloat stof v3) (asFloat stof v4))
                                         (negb (set =? 0)%Z)])
                  end
              | _, _, _, _, _, _ => None
              end
          end
      | _ => readCalibrationPoints stof rest pts
      end
  end.

(** The setter of the attribute calibrationPoints. *)
Definition attribute_calibrationPoints_set {O} `{Renderable O}
    (stof : string -> option R) (args : Values) (cam : Camera O)
    : option (bool * Camera O) :=
  match readCalibrationPoints stof args (_calibrationPoints cam) with
  | None => None
  | Some pts =>
      match sendCalibrationPointsToObjects pts (_objects cam) with
      | None => None
      | Some objs =>
          Some (true, set_points cam pts (_selectedCalibrationPoint cam)
                                 (_calibrationCalledOnce cam) objs)
      end
  end.

(** The getter of the attribute calibrationPoints. *)
Definition attribute_calibrationPoints_get {O} (cam : Camera O) : Values :=
  map (fun p =>
         Value_values
           [Value_float (x3 (world p)); Value_float (y3 (world p)); Value_float (z3 (world p));
            Value_float (x2 (screen p)); Value_float (y2 (screen p));
            Value_int (if isSet p then 1 else 0)])
      (_calibrationPoints cam).

End CameraEdit.

(** ** The colour balance of a camera (Camera::colorBalanceFromTemperature
    and the attribute colorTemperature) *)

Module ColorBalance.
Local Open Scope R_scope.

(** [max (0.0, min (c, 255.0))]. *)
Definition clamp255 (c : R) : R := Rmax 0 (Rmin c 255).

(** Camera::colorBalanceFromTemperature (temp).  The logarithm of a
    temperature that is not positive, and the division by a green
    component that is zero, give no number: [None]. *)
Definition colorBalanceFromTemperature (temp : R) : option (R * R) :=
  let t := temp / 100 in
  if Rle_dec t 0 then None
  else
    let r :=
      if Rle_dec t 66 then 255
      else clamp255 (329.698727466 * Rpower (t - 60) (- 0.1332047592)) in
    let g :=
      if Rle_dec t 66 then clamp255 (99.4708025861 * ln t - 161.1195681661)
      else clamp255 (288.1221695283 * Rpower (t - 60) (- 0.0755148492)) in
    let b :=
      if Rle_dec 66 t then 255
      else if Rle_dec t 19 then 0
      else clamp255 (138.5177312231 * ln (t - 10) - 305.0447927307) in
    if Req_dec_T g 0 then None
    else Some (r / g, b / g).

(** The value the setter of the attribute colorTemperature stores for
    the argument [a]: [max (1000.f, min (15000.f, a))]. *)
Definition colorTemperature (a : R) : R := Rmax 1000 (Rmin 15000 a).

End ColorBalance.

(** ** The copy of the pixels in chunks (Image::serialize,
    Image::deserialize) *)

Module ImageCopy.

Definition SPLASH_IMAGE_COPY_THREADS : Z := 4.

Section Bytes.
Variable B : Type.

(** [std::copy (src + first, src + last, dst + d_first)]: a read or a
    write out of a buffer is undefined. *)
Definition copy (src : list B) (first last : Z) (dst : list B) (d_first : Z)
    : option (list B) :=
  if ((0 <=? first) && (first <=? last) && (last <=? Z.of_nat (List.length src))
      && (0 <=? d_first) && (d_first + (last - first) <=? Z.of_nat (List.length dst)))%bool
  then
    Some (take (Z.to_nat d_first) dst
          ++ take (Z.to_nat (last - first)) (drop (Z.to_nat first) src)
          ++ drop (Z.to_nat (d_first + (last - first))) dst)
  else None.

(** One copy: the offsets of its source range and of its destination. *)
Record Task := mkTask { first : Z; last : Z; d_first : Z }.

(** The copies of one call: those given to the thread pool, for [i]
    from 0 to [stride - 2], and the one the caller makes itself. *)
Definition copyTasks (stride imgSize : Z) : list Task :=
  map (fun i => mkTask (Z.quot imgSize stride * Z.of_nat i)
                       (Z.quot imgSize stride * (Z.of_nat i + 1))
                       (Z.quot imgSize stride * Z.of_nat i))
      (seq 0 (Z.to_nat (stride - 1)))
  ++ [mkTask (Z.quot imgSize stride * (stride - 1)) imgSize
             (Z.quot imgSize stride * (stride - 1))].

(** The copies made one after the other, in the order in which the
    threads happen to make them. *)
Fixpoint runTasks (src : list B) (order : list Task) (dst : list B) : option (list B) :=
  match order with
  | [] => Some dst
  | t :: rest =>
      match copy src (first t) (last t) dst (d_first t) with
      | None => None
      | Some dst' => runTasks src rest dst'
      end
  end.

End Bytes.

End ImageCopy.

(** The bytes a copy writes, and the copies that stay in the image and
    write where they read. *)
Module ImageCopySpec.
Import ImageCopy.

Definition covers (t : Task) (k : nat) : Prop :=
  first t <= Z.of_nat k < last t.

Definition inImage (imgSize : Z) (t : Task) : Prop :=
  0 <= first t <= last t /\ last t <= imgSize /\ d_first t = first t.

End ImageCopySpec.

(** The range of the cells a camera has marked, and what the
    hole-filling pass keeps of a map. *)
Module BlendMapRange.




End BlendMapRange.

(** ** The value a camera writes in a cell of its map (first loop of
    Camera::computeBlendingMap) *)

Module BlendWeight.
Local Open Scope R_scope.

(** [glm::clamp (x, 0.0, 1.0)]. *)
Definition clamp01 (x : R) : R := Rmin (Rmax x 0) 1.

(** The distance to the nearest border along one axis, for the pixel
    at [p] of [size]. *)
Definition borderDistance (p size : Z) (_blendWidth : R) : R :=
  clamp01 (IZR (Z.min p (size - 1 - p)) / IZR size / _blendWidth).

(** [1.0 / (1.0 / distX + 1.0 / distY)]: a distance of zero gives an
    infinite inverse, and the weight is zero. *)
Definition weight (distX distY : R) : R :=
  if Req_dec_T distX 0 then 0
  else if Req_dec_T distY 0 then 0
  else 1 / (1 / distX + 1 / distY).

(** [blendAddition] for the pixel (px, py) of the rendered image of
    [width] x [height]. *)
Definition blendAddition (px py width height : Z) (_blendWidth : R) : Z :=
  let distX := borderDistance px width _blendWidth in
  let distY := borderDistance py height _blendWidth in
  let blendAddition := 0%Z in
  let blendAddition :=
    if Rlt_dec 0 _blendWidth then
      let smoothDist := (Rmin (Rmax (weight distX distY) 0) 1) ^ 2 * 256 in
      let blendValue := Values.truncate smoothDist in
      BlendMap.to_ushort (blendAddition + blendValue)
    else BlendMap.to_ushort (blendAddition + 256) in
  BlendMap.to_ushort (blendAddition + 4096).

End BlendWeight.

(** ** Colours (struct RgbValue of cgUtils.h) *)

Module Rgb.
Local Open Scope R_scope.

Record RgbValue := mkRgb { r : R; g : R; b : R }.

(** RgbValue::operator* (float). *)
Definition scale (c : RgbValue) (v : R) : RgbValue := mkRgb (r c * v) (g c * v) (b c * v).

(** RgbValue::luminance. *)
Definition luminance (c : RgbValue) : R := 0.2126 * r c + 0.7152 * g c + 0.0722 * b c.

(** RgbValue::normalize; a division by a maximum of zero gives no
    number. *)
Definition normalize (c : RgbValue) : option RgbValue :=
  let max := Rmax (Rmax (r c) (g c)) (b c) in
  if Req_dec_T max 0 then None
  else Some (mkRgb (r c / max) (g c / max) (b c / max)).

End Rgb.

(** * Theorems *)

(** ** Hole filling *)

(** C4, at a failing input: on the row set at columns 0, 2 and 4 the
    pass fills column 1 from column 0 and the last set cell of the row,
    column 4, not from the bracketing cells 0 and 2: it writes 4184
    where the interpolation between the bracketing cells is 4246. *)
Theorem fillRow_interpolates_to_last_set_cell :
  fillRow 5 0 threeSetCells threeSetFlags
    = Some ([4196; 4184; 4296; 4221; 4146], [true; true; true; true; true])
  /\ bracketValue 4196 4296 0 2 1 = 4246
  /\ bracketValue 4196 4146 0 4 1 = 4184.
Proof. repeat split; vm_compute; reflexivity. Qed.

(** The hole-filling loop ends: a set cell that closes a hole is
    visited twice, every other column once, so the fuel of [fillRow]
    is never used up. *)
Lemma fillRowFrom_total (width base : nat) (fuel x : nat) (st : HoleState)
    (camMap : list Z) (isSet : list bool) :
  (2 * (width - x) + (if hole st then 1 else 0) < fuel)%nat ->
  exists r, fillRowFrom width base fuel x st camMap isSet = Some r.
Proof.
  revert x st camMap isSet.
  induction fuel as [|fuel IH]; intros x st camMap isSet Hm; [lia|].
  cbn [fillRowFrom].
  destruct (Nat.leb_spec width x) as [Hx | Hx]; [eexists; reflexivity|].
  destruct (getSet isSet (base + x)) eqn:Hset, (hole st) eqn:Hhole;
    cbn [negb andb].
  - apply IH. cbn [hole]. lia.
  - destruct ((x <? width - 1)%nat && getSet isSet (base + x + 1)).
    + apply IH. rewrite Hhole. lia.
    + apply IH.
      destruct (hole (findHoleEnd base camMap isSet (width - (x + 2)) (x + 2) _)); lia.
  - apply IH. rewrite Hhole. lia.
  - apply IH. rewrite Hhole. lia.
Qed.

Lemma fillRow_total (width base : nat) (camMap : list Z) (isSet : list bool) :
  exists r, fillRow width base camMap isSet = Some r.
Proof. apply fillRowFrom_total. cbn. lia. Qed.

(** The hole-filling pass returns a result on every map. *)
Theorem fillHoles_total (width height : nat) (camMap : list Z) (isSet : list bool) :
  exists r, fillHoles width height camMap isSet = Some r.
Proof.
  unfold fillHoles. generalize 0%nat as y. revert camMap isSet.
  induction height as [|n IH]; intros camMap isSet y; cbn [fillHolesFrom].
  - eexists; reflexivity.
  - destruct (fillRow_total width (y * width) camMap isSet) as [[cm' is'] ->].
    apply IH.
Qed.

(** *** A row with two set cells *)

Lemma fillRowFrom_more_fuel (width base : nat) (fuel fuel' x : nat) (st : HoleState)
    (camMap : list Z) (isSet : list bool) (r : list Z * list bool) :
  fillRowFrom width base fuel x st camMap isSet = Some r ->
  (fuel <= fuel')%nat ->
  fillRowFrom width base fuel' x st camMap isSet = Some r.
Proof.
  revert fuel' x st camMap isSet.
  induction fuel as [|fuel IH]; intros fuel' x st camMap isSet; [discriminate|].
  intros Hr Hle. destruct fuel' as [|fuel']; [lia|].
  cbn [fillRowFrom] in *.
  repeat match goal with
         | |- context [if ?c then _ else _] => destruct c
         end; try exact Hr; (apply IH; [exact Hr | lia]).
Qed.

Lemma fillRow_finishes (width base : nat) (camMap : list Z) (isSet : list bool)
    (r : list Z * list bool) :
  finishes width base 0 initHole camMap isSet r ->
  fillRow width base camMap isSet = Some r.
Proof.
  intros [fuel Hf]. unfold fillRow.
  destruct (fillRow_total width base camMap isSet) as [r' Hr']. unfold fillRow in Hr'.
  destruct (Nat.le_ge_cases fuel (2 * width + 1)) as [Hle | Hge].
  - eapply fillRowFrom_more_fuel; eauto.
  - pose proof (fillRowFrom_more_fuel _ _ _ _ _ _ _ _ _ Hr' Hge) as E.
    rewrite Hf in E. injection E as ->. exact Hr'.
Qed.

Section TwoSetCells.
Variables width base : nat.

Lemma finishes_end (x : nat) (st : HoleState) (camMap : list Z) (isSet : list bool) :
  (width <= x)%nat -> finishes width base x st camMap isSet (camMap, isSet).
Proof.
  intros Hx. exists 1%nat. cbn [fillRowFrom].
  destruct (Nat.leb_spec width x); [reflexivity | lia].
Qed.

(** An unset cell outside a hole is passed. *)
Lemma finishes_skip (x : nat) (st : HoleState) (camMap : list Z) (isSet : list bool) r :
  (x < width)%nat -> getSet isSet (base + x) = false -> hole st = false ->
  finishes width base (S x) st camMap isSet r ->
  finishes width base x st camMap isSet r.
Proof.
  intros Hx Hset Hhole [fuel Hf]. exists (S fuel). cbn [fillRowFrom].
  destruct (Nat.leb_spec width x); [lia|]. rewrite Hset, Hhole. exact Hf.
Qed.

(** A set cell outside a hole, followed by an unset cell or by the end
    of the row, starts the search for the end of a hole. *)
Lemma finishes_start (x : nat) (st : HoleState) (camMap : list Z) (isSet : list bool) r :
  (x < width)%nat -> getSet isSet (base + x) = true -> hole st = false ->
  ((x <? width - 1)%nat && getSet isSet (base + x + 1) = false) ->
  finishes width base (S x)
    (findHoleEnd base camMap isSet (width - (x + 2)) (x + 2)
       (mkHole (getPix camMap (base + x)) (nextFilledPixel st) x (holeEnd st) false))
    camMap isSet r ->
  finishes width base x st camMap isSet r.
Proof.
  intros Hx Hset Hhole Hnext [fuel Hf]. exists (S fuel). cbn [fillRowFrom].
  destruct (Nat.leb_spec width x); [lia|]. rewrite Hset, Hhole, Hnext.
  cbn [negb andb]. exact Hf.
Qed.

(** A set cell inside a hole closes it and is visited again. *)
Lemma finishes_close (x : nat) (st : HoleState) (camMap : list Z) (isSet : list bool) r :
  (x < width)%nat -> getSet isSet (base + x) = true -> hole st = true ->
  finishes width base x
    (mkHole (lastFilledPixel st) (nextFilledPixel st) (holeStart st) (holeEnd st) false)
    camMap isSet r ->
  finishes width base x st camMap isSet r.
Proof.
  intros Hx Hset Hhole [fuel Hf]. exists (S fuel). cbn [fillRowFrom].
  destruct (Nat.leb_spec width x); [lia|]. rewrite Hset, Hhole.
  cbn [negb andb]. exact Hf.
Qed.

(** An unset cell inside a hole is filled. *)
Lemma finishes_fill (x : nat) (st : HoleState) (camMap : list Z) (isSet : list bool) r :
  (x < width)%nat -> getSet isSet (base + x) = false -> hole st = true ->
  finishes width base (S x) st
    (<[(base + x)%nat := holeValue st x]> camMap) (<[(base + x)%nat := true]> isSet) r ->
  finishes width base x st camMap isSet r.
Proof.
  intros Hx Hset Hhole [fuel Hf]. exists (S fuel). cbn [fillRowFrom].
  destruct (Nat.leb_spec width x); [lia|]. rewrite Hset, Hhole.
  cbn [negb andb]. exact Hf.
Qed.

Lemma getSet_insert_ne (isSet : list bool) (i j : nat) (v : bool) :
  i <> j -> getSet (<[i := v]> isSet) j = getSet isSet j.
Proof. intros Hne. unfold getSet. rewrite list_lookup_insert_ne by exact Hne. reflexivity. Qed.

(** A run of [k] unset cells outside a hole is passed. *)
Lemma finishes_skip_run (k x : nat) (st : HoleState) (camMap : list Z) (isSet : list bool) r :
  (x + k <= width)%nat -> hole st = false ->
  (forall j, (x <= j < x + k)%nat -> getSet isSet (base + j) = false) ->
  finishes width base (x + k) st camMap isSet r ->
  finishes width base x st camMap isSet r.
Proof.
  revert x. induction k as [|k IH]; intros x Hx Hhole Hun Hf.
  - rewrite Nat.add_0_r in Hf. exact Hf.
  - apply finishes_skip; [lia | apply Hun; lia | exact Hhole |].
    apply IH; [lia | exact Hhole | intros j Hj; apply Hun; lia |].
    replace (S x + k)%nat with (x + S k)%nat by lia. exact Hf.
Qed.

(** A run of [k] unset cells inside a hole is filled. *)
Lemma finishes_fill_run (k x : nat) (st : HoleState) (camMap : list Z) (isSet : list bool) r :
  (x + k <= width)%nat -> hole st = true ->
  (forall j, (x <= j < x + k)%nat -> getSet isSet (base + j) = false) ->
  finishes width base (x + k) st
    (fillRange base st x k camMap) (setRange base x k isSet) r ->
  finishes width base x st camMap isSet r.
Proof.
  revert x camMap isSet. induction k as [|k IH]; intros x camMap isSet Hx Hhole Hun Hf.
  - rewrite Nat.add_0_r in Hf. exact Hf.
  - apply finishes_fill; [lia | apply Hun; lia | exact Hhole |].
    apply IH; [lia | exact Hhole | |].
    + intros j Hj. rewrite getSet_insert_ne by lia. apply Hun. lia.
    + replace (S x + k)%nat with (x + S k)%nat by lia. exact Hf.
Qed.

(** The search for the end of a hole over cells that are not set. *)
Lemma findHoleEnd_unset (camMap : list Z) (isSet : list bool) (n xx : nat) (st : HoleState) :
  (forall j, (xx <= j < xx + n)%nat -> getSet isSet (base + j) = false) ->
  findHoleEnd base camMap isSet n xx st = st.
Proof.
  revert xx st. induction n as [|n IH]; intros xx st Hun; [reflexivity|].
  cbn [findHoleEnd]. rewrite (Hun xx) by lia. apply IH. intros j Hj. apply Hun. lia.
Qed.

Lemma findHoleEnd_app (camMap : list Z) (isSet : list bool) (n m xx : nat) (st : HoleState) :
  findHoleEnd base camMap isSet (n + m) xx st
  = findHoleEnd base camMap isSet m (xx + n)
      (findHoleEnd base camMap isSet n xx st).
Proof.
  revert xx st. induction n as [|n IH]; intros xx st.
  - cbn. rewrite Nat.add_0_r. reflexivity.
  - cbn [Nat.add findHoleEnd]. rewrite IH. replace (S xx + n)%nat with (xx + S n)%nat by lia.
    reflexivity.
Qed.

(** The search finds the one set cell [b] that is left in the row. *)
Lemma findHoleEnd_one (camMap : list Z) (isSet : list bool) (xx b : nat) (st : HoleState) :
  (xx <= b < width)%nat ->
  (forall j, (xx <= j < width)%nat -> (getSet isSet (base + j) = true <-> j = b)) ->
  findHoleEnd base camMap isSet (width - xx) xx st
  = mkHole (lastFilledPixel st) (getPix camMap (base + b)) (holeStart st) b true.
Proof.
  intros Hb Hset.
  replace (width - xx)%nat with ((b - xx) + (1 + (width - S b)))%nat by lia.
  rewrite findHoleEnd_app.
  rewrite (findHoleEnd_unset _ _ (b - xx)).
  2:{ intros j Hj. destruct (getSet isSet (base + j)) eqn:E; [|reflexivity].
      apply Hset in E; lia. }
  replace (xx + (b - xx))%nat with b by lia.
  rewrite findHoleEnd_app. cbn [findHoleEnd].
  rewrite (proj2 (Hset b ltac:(lia)) eq_refl).
  apply findHoleEnd_unset.
  intros j Hj. destruct (getSet isSet (base + j)) eqn:E; [|reflexivity].
  apply Hset in E; lia.
Qed.

Lemma getSet_setRange_outside (isSet : list bool) (x k j : nat) :
  ~ (base + x <= j < base + x + k)%nat ->
  getSet (setRange base x k isSet) j = getSet isSet j.
Proof.
  revert x isSet. induction k as [|k IH]; intros x isSet Hj; [reflexivity|].
  cbn [setRange]. rewrite IH by lia. apply getSet_insert_ne. lia.
Qed.

Lemma fillRange_outside (st : HoleState) (camMap : list Z) (x k j : nat) :
  ~ (base + x <= j < base + x + k)%nat ->
  fillRange base st x k camMap !! j = camMap !! j.
Proof.
  revert x camMap. induction k as [|k IH]; intros x camMap Hj; [reflexivity|].
  cbn [fillRange]. rewrite IH by lia. apply list_lookup_insert_ne. lia.
Qed.

Lemma fillRange_inside (st : HoleState) (camMap : list Z) (x k j : nat) :
  (x <= j < x + k)%nat -> (base + j < List.length camMap)%nat ->
  fillRange base st x k camMap !! (base + j)%nat = Some (holeValue st j).
Proof.
  revert x camMap. induction k as [|k IH]; intros x camMap Hj Hlen; [lia|].
  cbn [fillRange]. destruct (Nat.eq_dec j x) as [-> | Hne].
  - rewrite fillRange_outside by lia. apply list_lookup_insert_eq. exact Hlen.
  - apply IH; [lia | rewrite length_insert; exact Hlen].
Qed.

End TwoSetCells.

(** The truncated quotient that the interpolation adds lies between 0
    and the difference of the two known values. *)
Lemma quot_step_bounds (m k d : Z) :
  0 <= k <= d -> 0 < d ->
  (0 <= m -> 0 <= Z.quot (m * k) d <= m)
  /\ (m <= 0 -> m <= Z.quot (m * k) d <= 0).
Proof.
  intros Hk Hd.
  assert (Hpos : forall n, 0 <= n -> 0 <= Z.quot (n * k) d <= n).
  { intros n Hn. rewrite Z.quot_div_nonneg by nia. split.
    - apply Z.div_pos; nia.
    - apply Z.div_le_upper_bound; nia. }
  split; intros Hm; [apply Hpos; exact Hm|].
  replace (m * k) with (- ((- m) * k)) by ring.
  rewrite Z.quot_opp_l by lia.
  specialize (Hpos (- m) ltac:(lia)). lia.
Qed.

(** Between two known values that fit an [unsigned short], the value
    written in the hole is the interpolated one: no wrap-around. *)
Lemma holeValue_bracket (va vb : Z) (a b x : nat) :
  0 <= va < 65536 -> 0 <= vb < 65536 -> (a < x < b)%nat ->
  holeValue (mkHole va vb a b true) x
  = bracketValue va vb (Z.of_nat a) (Z.of_nat b) (Z.of_nat x).
Proof.
  intros Hva Hvb Hx. unfold holeValue, bracketValue, to_ushort.
  cbn [lastFilledPixel nextFilledPixel holeStart holeEnd].
  rewrite Zplus_mod_idemp_r.
  destruct (quot_step_bounds (vb - va) (Z.of_nat x - Z.of_nat a) (Z.of_nat b - Z.of_nat a)
              ltac:(lia) ltac:(lia)) as [Hp Hn].
  apply Z.mod_small.
  destruct (Z.le_ge_cases 0 (vb - va)) as [H0 | H0].
  - specialize (Hp H0). lia.
  - specialize (Hn H0). lia.
Qed.

Lemma fillRow_between_two_cells (width base a b : nat) (camMap : list Z) (isSet : list bool) :
  (a + 1 < b < width)%nat ->
  (base + width <= List.length camMap)%nat ->
  onlySetAt width base a b isSet ->
  0 <= getPix camMap (base + a) < 65536 ->
  0 <= getPix camMap (base + b) < 65536 ->
  exists camMap' isSet',
    fillRow width base camMap isSet = Some (camMap', isSet')
    /\ (forall x, (a < x < b)%nat ->
          camMap' !! (base + x)%nat
          = Some (bracketValue (getPix camMap (base + a)) (getPix camMap (base + b))
                    (Z.of_nat a) (Z.of_nat b) (Z.of_nat x)))
    /\ (forall i, ~ (base + a < i < base + b)%nat -> camMap' !! i = camMap !! i).
Proof.
  intros Hab Hlen Hset Hva Hvb.
  set (va := getPix camMap (base + a)) in *.
  set (vb := getPix camMap (base + b)) in *.
  set (stH := mkHole va vb a b true).
  assert (Hun : forall j, (j < width)%nat -> j <> a -> j <> b ->
                          getSet isSet (base + j) = false).
  { intros j Hj Ha Hb. destruct (getSet isSet (base + j)) eqn:E; [|reflexivity].
    apply Hset in E; [lia | exact Hj]. }
  assert (HsetA : getSet isSet (base + a) = true) by (apply Hset; [lia | auto]).
  assert (HsetB : getSet isSet (base + b) = true) by (apply Hset; [lia | auto]).
  exists (fillRange base stH (S a) (b - a - 1) camMap),
         (setRange base (S a) (b - a - 1) isSet).
  split; [|split].
  - apply fillRow_finishes.
    apply (finishes_skip_run width base a 0);
      [lia | reflexivity | intros j Hj; apply Hun; lia |].
    cbn [Nat.add].
    apply finishes_start; [lia | exact HsetA | reflexivity | |].
    { replace (base + a + 1)%nat with (base + (a + 1))%nat by lia.
      rewrite Hun by lia. apply andb_false_r. }
    rewrite (findHoleEnd_one width base camMap isSet (a + 2) b);
      [| lia
       | intros j Hj; split;
         [intros E; apply Hset in E; lia | intros ->; exact HsetB]].
    cbn [lastFilledPixel holeStart initHole]. fold va vb stH.
    apply (finishes_fill_run width base (b - a - 1) (S a));
      [lia | reflexivity | intros j Hj; apply Hun; lia |].
    replace (S a + (b - a - 1))%nat with b by lia.
    set (cmF := fillRange base stH (S a) (b - a - 1) camMap).
    set (isF := setRange base (S a) (b - a - 1) isSet).
    assert (HF : forall j, (b <= j)%nat -> getSet isF (base + j) = getSet isSet (base + j)).
    { intros j Hj. apply getSet_setRange_outside. lia. }
    apply finishes_close; [lia | rewrite HF by lia; exact HsetB | reflexivity |].
    apply finishes_start; [lia | rewrite HF by lia; exact HsetB | reflexivity | |].
    { destruct (Nat.ltb_spec b (width - 1)) as [Hlt | Hge]; [|reflexivity].
      replace (base + b + 1)%nat with (base + (b + 1))%nat by lia.
      rewrite HF by lia. rewrite Hun by lia. reflexivity. }
    rewrite findHoleEnd_unset by (intros j Hj; rewrite HF by lia; apply Hun; lia).
    apply (finishes_skip_run width base (width - S b) (S b));
      [lia | reflexivity | intros j Hj; rewrite HF by lia; apply Hun; lia |].
    apply finishes_end. lia.
  - intros x Hx. rewrite fillRange_inside by lia.
    f_equal. apply holeValue_bracket; assumption.
  - intros i Hi. apply fillRange_outside. lia.
Qed.


Lemma rampFlags_onlySetAt : onlySetAt 10 0 0 9 rampFlags.
Proof.
  intros x Hx.
  do 10 (destruct x as [|x];
         [cbn; split;
          [intros E; first [left; reflexivity | right; reflexivity | discriminate E]
          | intros [E|E]; first [reflexivity | discriminate E]]|]).
  lia.
Qed.


(** In a row of any width whose only set cells are at columns 0 and 9,
    with the values 100 and 200, the pass leaves the ramp 111, 122,
    133, 144, 155, 166, 177, 188 at columns 1 to 8: every cell from
    column 0 to column 8 is smaller than its right neighbour. *)
Theorem fillRow_ramp_100_200 (width base : nat) (camMap : list Z) (isSet : list bool) :
  (10 <= width)%nat ->
  (base + width <= List.length camMap)%nat ->
  onlySetAt width base 0 9 isSet ->
  getPix camMap (base + 0) = 100 ->
  getPix camMap (base + 9) = 200 ->
  exists camMap' isSet',
    fillRow width base camMap isSet = Some (camMap', isSet')
    /\ map (fun x => getPix camMap' (base + x)) (seq 0 10)
       = [100; 111; 122; 133; 144; 155; 166; 177; 188; 200]
    /\ (forall x, (x < 9)%nat ->
          getPix camMap' (base + x) < getPix camMap' (base + S x)).
Proof.
  intros Hw Hlen Hset H0 H9.
  destruct (fillRow_between_two_cells width base 0 9 camMap isSet
              ltac:(lia) Hlen Hset ltac:(lia) ltac:(lia))
    as (camMap' & isSet' & Hrow & Hin & Hout).
  exists camMap', isSet'. split; [exact Hrow|].
  assert (Hcells : map (fun x => getPix camMap' (base + x)) (seq 0 10)
                   = [100; 111; 122; 133; 144; 155; 166; 177; 188; 200]).
  { rewrite H0, H9 in Hin. cbn [seq map]. unfold getPix at 1 10.
    rewrite !Hout by lia. fold (getPix camMap (base + 0)) (getPix camMap (base + 9)).
    rewrite H0, H9. unfold getPix.
    rewrite !Hin by lia. reflexivity. }
  split; [exact Hcells|].
  intros x Hx. cbn [seq map] in Hcells.
  injection Hcells as E0 E1 E2 E3 E4 E5 E6 E7 E8 E9.
  do 9 (destruct x as [|x]; [lia|]).
  lia.
Qed.

(** The row of ten cells. *)
Lemma fillRow_ramp_100_200_ten_cells :
  exists camMap' isSet',
    fillRow 10 0 rampCells rampFlags = Some (camMap', isSet')
    /\ map (fun x => getPix camMap' (0 + x)) (seq 0 10)
       = [100; 111; 122; 133; 144; 155; 166; 177; 188; 200]
    /\ (forall x, (x < 9)%nat ->
          getPix camMap' (0 + x) < getPix camMap' (0 + S x)).
Proof.
  apply (fillRow_ramp_100_200 10 0 rampCells rampFlags).
  - lia.
  - cbn. lia.
  - exact rampFlags_onlySetAt.
  - reflexivity.
  - reflexivity.
Defined.

(** ** Accumulation *)

(** C5, at a failing input: on a map 2 wide and 3 high the
    accumulation adds cell 2 of the camera's map twice and cell 5 not
    at all, where the cell-by-cell sum adds each cell once. *)
Theorem accumulate_non_square_map :
  accumulate 2 3 [1; 2; 3; 4; 5; 6] [0; 0; 0; 0; 0; 0] = Some [1; 2; 6; 4; 5; 0]
  /\ addMaps [0; 0; 0; 0; 0; 0] [1; 2; 3; 4; 5; 6] = [1; 2; 3; 4; 5; 6].
Proof. split; vm_compute; reflexivity. Qed.

(** ** The swap protocol *)

Section SwapProofs.
Import Window SwapSpec.

Lemma run_app (osx : bool) (c0 : Z) (s1 s2 : list Event) :
  run osx c0 (s1 ++ s2) = fold_left (step osx) s2 (run osx c0 s1).
Proof. unfold run. apply fold_left_app. Qed.

(** Renders only reset the counter: after at least one of them it is 0. *)
Lemma fold_renders (osx : bool) (rs : list nat) (r : Run) :
  fold_left (step osx) (map Render rs) r
  = mkRun (match rs with [] => count r | _ => 0 end)
          (List.length rs + resets r) (swaps r).
Proof.
  revert r. induction rs as [|w rs IH]; intros r.
  - destruct r; reflexivity.
  - cbn [map fold_left]. rewrite IH. cbn.
    f_equal; [destruct rs; reflexivity | lia].
Qed.

Lemma wrap_int_small (v : Z) : -2147483648 <= v < 2147483648 -> wrap_int v = v.
Proof. intros Hv. unfold wrap_int. rewrite Z.mod_small; lia. Qed.

(** Swaps read consecutive values of the counter. *)
Lemma fold_swaps (ws : list nat) (r : Run) :
  0 <= count r ->
  count r + Z.of_nat (List.length ws) < 2147483648 ->
  fold_left (step false) (map SwapBuffers ws) r
  = mkRun (count r + Z.of_nat (List.length ws)) (resets r)
          (swaps r ++ swapTrace (count r) ws).
Proof.
  revert r. induction ws as [|w ws IH]; intros r H0 Hlt.
  - destruct r; cbn. f_equal; [lia | symmetry; apply app_nil_r].
  - cbn [map fold_left]. rewrite IH.
    + cbn [step swapBuffers count resets swaps List.length swapTrace].
      rewrite wrap_int_small by (cbn [List.length] in Hlt; lia).
      rewrite <- app_assoc. cbn [app]. unfold actionAt.
      f_equal; [cbn [List.length]; lia |].
      destruct (count r =? 0); reflexivity.
    + cbn [step swapBuffers count]. cbn [List.length] in Hlt.
      rewrite wrap_int_small; lia.
    + cbn [step swapBuffers count]. cbn [List.length] in Hlt.
      rewrite wrap_int_small; lia.
Qed.

(** After the first one, no swap of a trace is a first claimant, and
    all of them bypass the presentation. *)
Lemma swapTrace_later (k : Z) (ws : list nat) :
  0 < k ->
  List.filter (fun s => windowIndex (snd s) =? 0) (swapTrace k ws) = []
  /\ forallb (fun s => (windowIndex (snd s) =? 0) || bypasses s) (swapTrace k ws) = true.
Proof.
  revert k. induction ws as [|w ws IH]; intros k Hk; [split; reflexivity|].
  destruct (IH (k + 1) ltac:(lia)) as [IH1 IH2].
  assert (Hk0 : (k =? 0) = false) by (apply Z.eqb_neq; lia).
  cbn [swapTrace List.filter forallb snd windowIndex actionAt].
  unfold bypasses. cbn [snd actionAt drawBuffer presented].
  rewrite Hk0. cbn. split; assumption.
Qed.

(** The run of a group whose renders all come first. *)
Lemma run_renders_then_swaps (rs ws : list nat) (c0 : Z) :
  rs <> [] -> Z.of_nat (List.length ws) < 2147483648 ->
  run false c0 (map Render rs ++ map SwapBuffers ws)
  = mkRun (Z.of_nat (List.length ws)) (List.length rs) (swapTrace 0 ws).
Proof.
  intros Hrs Hlen. rewrite run_app. unfold run. rewrite fold_renders.
  destruct rs as [|r0 rs]; [congruence|].
  rewrite fold_swaps by (cbn [count]; lia).
  cbn [count resets swaps app]. f_equal. lia.
Qed.

(** C6, as amended: when all the renders of the group come before its
    swaps, whatever the counter was before the group, it is 0 when the
    swaps start (every render resets it, so it is reset once per
    window), the swaps read 0, 1, 2, ... in order, exactly the first one
    is a first claimant, blits to the back buffer and presents, and
    every other one blits to the front buffer without presenting. *)
Theorem swap_after_all_renders (rs ws : list nat) (c0 : Z) :
  rs <> [] -> ws <> [] -> Z.of_nat (List.length ws) < 2147483648 ->
  let r := run false c0 (map Render rs ++ map SwapBuffers ws) in
  resets r = List.length rs
  /\ swaps r = swapTrace 0 ws
  /\ (exists w, firstClaimants r = [(w, mkSwap 0 GL_BACK true)])
  /\ othersBypass r = true.
Proof.
  intros Hrs Hws Hlen r. subst r.
  rewrite run_renders_then_swaps by assumption.
  unfold firstClaimants, othersBypass. cbn [count resets swaps].
  destruct ws as [|w ws]; [congruence|].
  destruct (swapTrace_later 1 ws ltac:(lia)) as [H1 H2].
  cbn [swapTrace List.filter forallb snd windowIndex actionAt].
  change (0 + 1) with 1. rewrite H1, H2.
  repeat split. exists w; reflexivity.
Qed.

(** Two windows, the renders first. *)
Lemma swap_after_all_renders_two_windows :
  let r := run false 7 (map Render [0; 1]%nat ++ map SwapBuffers [1; 0]%nat) in
  resets r = 2%nat
  /\ swaps r = swapTrace 0 [1; 0]%nat
  /\ (exists w, firstClaimants r = [(w, mkSwap 0 GL_BACK true)])
  /\ othersBypass r = true.
Proof.
  apply (swap_after_all_renders [0; 1]%nat [1; 0]%nat 7);
    [discriminate | discriminate | cbn; lia].
Defined.

(** C6, the counterexample: two windows that each render and then
    swap, one window after the other, form a frame-group; the counter
    is reset twice in it, and both swaps read 0, blit to the back buffer
    and present. *)
Lemma swap_one_window_after_the_other :
  frameGroup 2 oneWindowAfterTheOther = true
  /\ resets (run false 0 oneWindowAfterTheOther) = 2%nat
  /\ firstClaimants (run false 0 oneWindowAfterTheOther)
     = [(0%nat, mkSwap 0 GL_BACK true); (1%nat, mkSwap 0 GL_BACK true)].
Proof. repeat split; vm_compute; reflexivity. Qed.

(** On a build with HAVE_OSX every swapBuffers blits to the back buffer
    and presents, whatever the counter is. *)
Theorem swapBuffers_osx_always_presents (c : Z) :
  snd (swapBuffers true c) = mkSwap c GL_BACK true.
Proof. reflexivity. Qed.

End SwapProofs.

(** ** The projection matrix *)

Section ProjectionProofs.
Import Glm Camera.
Local Open Scope R_scope.

(** C7: with the principal point at (0.5, 0.5) the bounds handed to
    [frustum] are symmetric, left = -right and bottom = -top, with
    top = near * tan (fov / 2) (the field of view is in degrees, so
    the half angle is fov * pi / 360 radians) and
    right = top * width / height; the matrix is the frustum of these
    symmetric bounds. *)
Theorem computeProjectionMatrix_centered {O : Type} (cam : Camera O) (fov : R) :
  let k := projectionBounds cam fov 0.5 0.5 in
  bl k = - br k
  /\ bb k = - bt k
  /\ bt k = _near cam * tan (fov * PI / 360)
  /\ br k = bt k * _width cam / _height cam
  /\ bn k = _near cam
  /\ bf k = _far cam
  /\ computeProjectionMatrix cam fov 0.5 0.5
     = frustum (- br k) (br k) (- bt k) (bt k) (_near cam) (_far cam).
Proof.
  assert (Hb : forall k', k' = projectionBounds cam fov 0.5 0.5 ->
            bl k' = - br k' /\ bb k' = - bt k'
            /\ bt k' = _near cam * tan (fov * PI / 360)
            /\ br k' = bt k' * _width cam / _height cam
            /\ bn k' = _near cam /\ bf k' = _far cam).
  { intros k' ->. unfold projectionBounds, M_PI. cbn [bl br bb bt bn bf].
    set (t := _near cam * tan (fov * PI / 360)).
    repeat split; unfold Rdiv; ring. }
  intros k. destruct (Hb k eq_refl) as (H1 & H2 & H3 & H4 & H5 & H6).
  repeat split; try assumption.
  unfold computeProjectionMatrix. fold k.
  rewrite H1, H2, H5, H6. reflexivity.
Qed.

End ProjectionProofs.

(** ** The view matrix *)

Section ViewProofs.
Import Glm Camera CameraSpec.
Local Open Scope R_scope.

Lemma Reqb_true_iff (a b : R) : Reqb a b = true <-> a = b.
Proof. unfold Reqb. destruct (Req_dec_T a b); split; congruence. Qed.

Lemma Reqb_false_iff (a b : R) : Reqb a b = false <-> a <> b.
Proof. unfold Reqb. destruct (Req_dec_T a b); split; congruence. Qed.

Lemma vec3_eqb_true_iff (a b : dvec3) : vec3_eqb a b = true <-> a = b.
Proof.
  unfold vec3_eqb. rewrite !andb_true_iff, !Reqb_true_iff.
  destruct a, b; cbn. split.
  - intros [[-> ->] ->]. reflexivity.
  - intros [= -> -> ->]. auto.
Qed.

Lemma vec3_eqb_false_iff (a b : dvec3) : vec3_eqb a b = false <-> a <> b.
Proof.
  rewrite <- vec3_eqb_true_iff. destruct (vec3_eqb a b); split; congruence.
Qed.

Lemma sumsq3_zero (x y z : R) :
  x * x + y * y + z * z = 0 -> x = 0 /\ y = 0 /\ z = 0.
Proof.
  intros H.
  assert (Hx := Rle_0_sqr x). assert (Hy := Rle_0_sqr y). assert (Hz := Rle_0_sqr z).
  unfold Rsqr in *.
  assert (x * x = 0) by lra. assert (y * y = 0) by lra. assert (z * z = 0) by lra.
  repeat split; nra.
Qed.

(** The nudged target is the eye again exactly when up is zero. *)
Lemma nudged_target_distinct (eye up : dvec3) :
  eye <> mkVec3 (x3 eye + y3 up) (y3 eye + z3 up) (z3 eye + x3 up)
  <-> up <> mkVec3 0 0 0.
Proof.
  destruct eye as [ex ey ez], up as [a b c]; cbn. split; intros H E; apply H.
  - injection E as -> -> ->. f_equal; lra.
  - injection E as E1 E2 E3. f_equal; lra.
Qed.

(** With the nudged target, [lookAt] normalises a zero vector exactly
    when the three components of up are equal. *)
Lemma nudged_lookAt_degenerate (eye up : dvec3) :
  lookAt_degenerate eye
    (mkVec3 (x3 eye + y3 up) (y3 eye + z3 up) (z3 eye + x3 up)) up
  <-> x3 up = y3 up /\ y3 up = z3 up.
Proof.
  destruct eye as [ex ey ez], up as [a b c].
  unfold lookAt_degenerate, normalize, scale3, inversesqrt, cross, dot, sub3.
  cbn [x3 y3 z3].
  replace (ex + b - ex) with b by ring.
  replace (ey + c - ey) with c by ring.
  replace (ez + a - ez) with a by ring.
  set (dd := b * b + c * c + a * a).
  assert (Hdd : 0 <= dd) by (unfold dd; nra).
  split.
  - intros [H0 | H1].
    + apply sumsq3_zero in H0. lra.
    + destruct (Req_dec_T dd 0) as [H0 | Hne]; [apply sumsq3_zero in H0; lra|].
      assert (Hs : 0 < sqrt dd) by (apply sqrt_lt_R0; lra).
      set (k := 1 / sqrt dd) in *.
      assert (Hk : 0 < k).
      { unfold k. apply Rdiv_lt_0_compat; lra. }
      assert (Hsq : (c * c - a * b) ^ 2 + (a * a - b * c) ^ 2 + (b * b - a * c) ^ 2 = 0).
      { assert (Hk2 : 0 < k * k) by nra.
        apply (Rmult_eq_reg_l (k * k)); [|lra].
        rewrite Rmult_0_r. rewrite <- H1. ring. }
      assert (Hsq' : (c * c - a * b) * (c * c - a * b)
                     + (a * a - b * c) * (a * a - b * c)
                     + (b * b - a * c) * (b * b - a * c) = 0) by lra.
      apply sumsq3_zero in Hsq'. destruct Hsq' as (E1 & E2 & E3).
      assert (E : (a - b) * (a - b) + (b - c) * (b - c) + (c - a) * (c - a) = 0) by lra.
      apply sumsq3_zero in E. lra.
  - intros [-> ->]. right. ring.
Qed.

(** C8, as amended: when eye == target, computeViewMatrix replaces
    target by eye plus the cyclic permutation of up before it builds
    the look-at matrix; the look-at then receives an eye and a target
    that differ exactly when up is not the zero vector, and normalises
    no zero vector exactly when the three components of up are not all
    equal.  A camera with eye != target is left as it is. *)
Theorem computeViewMatrix_nudges_target {O : Type} (cam : Camera O) :
  (vec3_eqb (_eye cam) (_target cam) = true ->
     let cam' := fst (computeViewMatrix cam) in
     cam' = set_target cam
              (mkVec3 (x3 (_eye cam) + y3 (_up cam))
                      (y3 (_eye cam) + z3 (_up cam))
                      (z3 (_eye cam) + x3 (_up cam)))
     /\ snd (computeViewMatrix cam) = lookAt (_eye cam') (_target cam') (_up cam')
     /\ (vec3_eqb (_eye cam') (_target cam') = false <-> _up cam <> mkVec3 0 0 0)
     /\ (~ lookAt_degenerate (_eye cam') (_target cam') (_up cam')
         <-> ~ (x3 (_up cam) = y3 (_up cam) /\ y3 (_up cam) = z3 (_up cam))))
  /\ (vec3_eqb (_eye cam) (_target cam) = false ->
      computeViewMatrix cam = (cam, lookAt (_eye cam) (_target cam) (_up cam))).
Proof.
  split; intros Heq.
  - unfold computeViewMatrix, fixTarget. rewrite Heq.
    cbv zeta. cbn [fst snd set_target _eye _target _up].
    split; [reflexivity|]. split; [reflexivity|]. split.
    + rewrite vec3_eqb_false_iff. apply nudged_target_distinct.
    + split; intros H D; apply H.
      * apply (proj2 (nudged_lookAt_degenerate (_eye cam) (_up cam))). exact D.
      * apply (proj1 (nudged_lookAt_degenerate (_eye cam) (_up cam))). exact D.
  - unfold computeViewMatrix, fixTarget. rewrite Heq. reflexivity.
Qed.

(** The default up vector (0, 0, 1): the nudge works. *)
Lemma computeViewMatrix_default_up :
  let cam' := fst (computeViewMatrix cameraDefaultUp) in
  _target cam' = mkVec3 1 1 5
  /\ vec3_eqb (_eye cam') (_target cam') = false
  /\ ~ lookAt_degenerate (_eye cam') (_target cam') (_up cam').
Proof.
  assert (Heq : vec3_eqb (_eye cameraDefaultUp) (_target cameraDefaultUp) = true)
    by (apply vec3_eqb_true_iff; reflexivity).
  destruct (proj1 (computeViewMatrix_nudges_target cameraDefaultUp) Heq)
    as (E & _ & Hne & Hnd).
  intros cam'. subst cam'. rewrite E. cbn [set_target _target _eye _up] in *.
  rewrite E in Hne, Hnd. cbn [set_target _target _eye _up] in *.
  split; [|split].
  - cbn. f_equal; lra.
  - apply Hne. cbn. intros [= H]. lra.
  - apply Hnd. cbn. intros [H1 H2]. lra.
Defined.

(** C8, the counterexample: with eye == target and the zero vector as
    up, the target computeViewMatrix leaves is the eye again, and the
    look-at normalises a zero vector; with up = (1, 1, 1) the eye and
    the target differ and the look-at still normalises a zero vector. *)
Lemma computeViewMatrix_still_degenerate :
  (let cam' := fst (computeViewMatrix cameraWithoutUp) in
   vec3_eqb (_eye cameraWithoutUp) (_target cameraWithoutUp) = true
   /\ vec3_eqb (_eye cam') (_target cam') = true
   /\ lookAt_degenerate (_eye cam') (_target cam') (_up cam'))
  /\ (let cam' := fst (computeViewMatrix cameraDiagonalUp) in
      vec3_eqb (_eye cameraDiagonalUp) (_target cameraDiagonalUp) = true
      /\ vec3_eqb (_eye cam') (_target cam') = false
      /\ lookAt_degenerate (_eye cam') (_target cam') (_up cam')).
Proof.
  split.
  - assert (Heq : vec3_eqb (_eye cameraWithoutUp) (_target cameraWithoutUp) = true)
      by (apply vec3_eqb_true_iff; reflexivity).
    intros cam'. subst cam'. unfold computeViewMatrix, fixTarget.
    rewrite Heq. cbn [fst set_target _eye _target _up].
    split; [reflexivity|]. split.
    + apply vec3_eqb_true_iff. cbn. f_equal; lra.
    + apply (proj2 (nudged_lookAt_degenerate _ _)). cbn. lra.
  - assert (Heq : vec3_eqb (_eye cameraDiagonalUp) (_target cameraDiagonalUp) = true)
      by (apply vec3_eqb_true_iff; reflexivity).
    intros cam'. subst cam'. unfold computeViewMatrix, fixTarget.
    rewrite Heq. cbn [fst set_target _eye _target _up].
    split; [reflexivity|]. split.
    + apply vec3_eqb_false_iff. cbn. intros [= H]. lra.
    + apply (proj2 (nudged_lookAt_degenerate _ _)). cbn. lra.
Qed.

End ViewProofs.

(** ** The calibration objective *)

Section ObjectiveProofs.
Import Glm Camera CameraSpec.
Local Open Scope R_scope.

(** The two vectors the objective collects: one entry per set point,
    in the order of the list. *)
Lemma collectPoints_filter {O : Type} (cam : Camera O)
    (pts : list CalibrationPoint) (ops ips : list dvec3) :
  collectPoints cam pts ops ips
  = (ops ++ map world (List.filter isSet pts),
     ips ++ map (fun p => mkVec3 (x2 (observedPixel cam (screen p)))
                                 (y2 (observedPixel cam (screen p))) 0)
                (List.filter isSet pts)).
Proof.
  revert ops ips. induction pts as [|p pts IH]; intros ops ips.
  - cbn. rewrite !app_nil_r. reflexivity.
  - cbn [collectPoints List.filter]. destruct (isSet p); cbn [negb].
    + rewrite IH. rewrite <- !app_assoc. cbn [map app].
      destruct (world p); reflexivity.
    + apply IH.
Qed.

(** The summing loop over the entries from [pre] on. *)
Lemma sumDistances_sum {O : Type} (cam : Camera O) (v : list R)
    (pre suf : list CalibrationPoint) (acc : R) :
  sumDistances
    (map world (pre ++ suf))
    (map (fun p => mkVec3 (x2 (observedPixel cam (screen p)))
                          (y2 (observedPixel cam (screen p))) 0) (pre ++ suf))
    (calibrationView v)
    (computeProjectionMatrix cam (nth 0 v 0) (nth 1 v 0) (nth 2 v 0))
    (mkVec4 0 0 (_width cam) (_height cam))
    (List.length suf) (List.length pre) acc
  = acc + sumR (map (squaredError cam v) suf).
Proof.
  revert pre acc. induction suf as [|p suf IH]; intros pre acc.
  - cbn. ring.
  - cbn [List.length sumDistances].
    replace (pre ++ p :: suf) with ((pre ++ [p]) ++ suf)
      by (rewrite <- app_assoc; reflexivity).
    replace (S (List.length pre)) with (List.length (pre ++ [p]))
      by (rewrite length_app; cbn; lia).
    rewrite IH.
    assert (Hw : nth (List.length pre) (map world ((pre ++ [p]) ++ suf)) zero3 = world p).
    { rewrite <- app_assoc, map_app. rewrite app_nth2; rewrite length_map; [|lia].
      rewrite Nat.sub_diag. reflexivity. }
    assert (Hs : forall f : CalibrationPoint -> dvec3,
               nth (List.length pre) (map f ((pre ++ [p]) ++ suf)) zero3 = f p).
    { intros f. rewrite <- app_assoc, map_app. rewrite app_nth2; rewrite length_map; [|lia].
      rewrite Nat.sub_diag. reflexivity. }
    rewrite Hw, Hs. cbn [x3 y3 map sumR fold_right].
    unfold squaredError, projectedPixel, sumR. ring.
Qed.

(** C1: the calibration objective is the mean squared reprojection
    error over the calibration points that are set: each of them is
    projected through the look-at view of the eye and the rotated
    forward and up vectors and through the off-axis projection of
    (fov, cx, cy), compared in pixels with its screen point mapped from
    [-1, 1], and the sum of the squared distances is divided by the
    number of set points.  Points that are not set do not enter it. *)
Theorem cameraCalibration_f_mean_squared_error {O : Type} (cam : Camera O) (v : list R) :
  cameraCalibration_f v (Some cam) = meanSquaredError cam v.
Proof.
  unfold cameraCalibration_f, meanSquaredError.
  rewrite collectPoints_filter. cbn [app xyz x3 y3 z3].
  rewrite length_map.
  pose proof (sumDistances_sum cam v [] (List.filter isSet (_calibrationPoints cam)) 0) as H.
  cbn [app List.length] in H. unfold calibrationView, gsl_vector_get in *.
  cbn [xyz x3 y3 z3] in H. rewrite H. f_equal. ring.
Qed.

End ObjectiveProofs.

(** ** Calibration *)

Section CalibrationProofs.
Import Glm Camera CameraSpec.

Lemma countPointsSet_filter (pts : list CalibrationPoint) (n : Z) :
  countPointsSet pts n = (n + Z.of_nat (List.length (List.filter isSet pts)))%Z.
Proof.
  revert n. induction pts as [|p pts IH]; intros n; cbn [countPointsSet List.filter].
  - cbn. lia.
  - rewrite IH. destruct (isSet p); cbn [List.length]; lia.
Qed.

(** C2: doCalibration returns false exactly when fewer than 6
    calibration points are set; it then runs no minimisation (its
    outcome is the same whatever the minimiser) and leaves the camera,
    with its fov, cx, cy, eye, target and up, as it was; with 6 points
    or more it returns true and the camera holds the selected values,
    and with exactly 6 it logs the line that recommends at least 7
    points (at priority MESSAGE; the line for fewer than 6 is the
    WARNING). *)
Theorem doCalibration_needs_six_points {O : Type} (gsl : Minimizer O) (cam : Camera O) :
  (fst (fst (doCalibration gsl cam)) = false <-> (numberSet cam < 6)%nat)
  /\ ((numberSet cam < 6)%nat ->
      forall gsl' : Minimizer O, doCalibration gsl' cam = (false, cam, [msgNeeds6]))
  /\ ((6 <= numberSet cam)%nat ->
      fst (fst (doCalibration gsl cam)) = true
      /\ snd (fst (doCalibration gsl cam))
         = applySelectedValues (set_calibrationCalledOnce cam true)
             (selectedValues
                (gsl (fun v => cameraCalibration_f v
                                 (Some (set_calibrationCalledOnce cam true)))
                     (set_calibrationCalledOnce cam true))))
  /\ (numberSet cam = 6%nat -> In msgUse7 (snd (doCalibration gsl cam)))
  /\ ((7 <= numberSet cam)%nat -> ~ In msgUse7 (snd (doCalibration gsl cam))).
Proof.
  unfold doCalibration, numberSet. rewrite countPointsSet_filter.
  set (n := List.length (List.filter isSet (_calibrationPoints cam))).
  destruct (Z.ltb_spec (0 + Z.of_nat n) 6) as [Hlt | Hge].
  - cbn [fst snd]. repeat split; try reflexivity; lia.
  - cbn [fst snd]. split; [split; [discriminate | lia]|].
    split; [lia|]. split; [intros _; split; reflexivity|].
    split.
    + intros Hn. destruct (Z.ltb_spec (0 + Z.of_nat n) 7); [|lia].
      cbn. left. reflexivity.
    + intros Hn. destruct (Z.ltb_spec (0 + Z.of_nat n) 7); [lia|].
      cbn [app]. intros [Hin | Hin]; [discriminate Hin|].
      apply in_app_or in Hin. destruct Hin as [Hin | Hin].
      * apply repeat_spec in Hin. discriminate Hin.
      * cbn in Hin. destruct Hin as [Hin | [Hin | []]]; discriminate Hin.
Qed.

(** Six set points: the calibration runs and logs the recommendation. *)
Lemma doCalibration_six_points :
  fst (fst (doCalibration idleMinimizer cameraSixPoints)) = true
  /\ In msgUse7 (snd (doCalibration idleMinimizer cameraSixPoints)).
Proof.
  pose proof (doCalibration_needs_six_points idleMinimizer cameraSixPoints)
    as (_ & _ & H6 & H7 & _).
  split.
  - apply H6. unfold numberSet. cbn. lia.
  - apply H7. reflexivity.
Defined.

End CalibrationProofs.

(** ** Adding calibration points *)

Section AddProofs.
Import Glm Camera CameraSpec.
Context {O : Type} `{Renderable O}.

(** The search loop returns the first index of the world point. *)
Lemma findWorld_None (pts : list CalibrationPoint) (w : dvec3) (k : nat) :
  findWorld pts w k = None <-> ~ In w (map world pts).
Proof.
  revert k. induction pts as [|p pts IH]; intros k; cbn [findWorld map In].
  - split; [intros _ []| reflexivity].
  - destruct (vec3_eqb (world p) w) eqn:E.
    + apply vec3_eqb_true_iff in E. split; [discriminate | intros Hn; exfalso; auto].
    + apply vec3_eqb_false_iff in E. rewrite IH. split; [intros Hn [?|?]; auto | auto].
Qed.

Lemma findWorld_Some (pts : list CalibrationPoint) (w : dvec3) (k j : nat) :
  findWorld pts w k = Some j ->
  exists i, j = (k + i)%nat /\ map world pts !! i = Some w.
Proof.
  revert k. induction pts as [|p pts IH]; intros k; cbn [findWorld map]; [discriminate|].
  destruct (vec3_eqb (world p) w) eqn:E.
  - apply vec3_eqb_true_iff in E. intros [= <-]. exists 0%nat. split; [lia|].
    cbn. congruence.
  - intros Hf. destruct (IH _ Hf) as (i & -> & Hi). exists (S i). split; [lia | exact Hi].
Qed.

(** In a list without duplicates the index of a world point is unique. *)
Lemma findWorld_NoDup (pts : list CalibrationPoint) (w : dvec3) (i : nat) :
  NoDup (map world pts) -> map world pts !! i = Some w ->
  findWorld pts w 0 = Some i.
Proof.
  intros Hnd Hi. destruct (findWorld pts w 0) as [j|] eqn:Hf.
  - destruct (findWorld_Some _ _ _ _ Hf) as (i' & -> & Hi'). cbn.
    f_equal. eapply NoDup_lookup; eauto.
  - apply findWorld_None in Hf. exfalso. apply Hf.
    apply list_elem_of_In. eapply list_elem_of_lookup_2; eauto.
Qed.

Lemma forEachObject_alive (f : O -> O) (objs : list (option O)) :
  Forall (fun o => o <> None) objs ->
  forEachObject f objs = Some (map (option_map f) objs).
Proof.
  induction 1 as [|o objs Ho _ IH]; [reflexivity|].
  cbn [forEachObject map]. destruct o as [o|]; [|congruence].
  rewrite IH. reflexivity.
Qed.

(** addCalibrationPoint keeps the world coordinates free of duplicates. *)
Lemma addCalibrationPoint_NoDup (cam cam' : Camera O) (worldPoint : list R) (ret : bool) :
  NoDup (worlds cam) ->
  addCalibrationPoint worldPoint cam = Some (ret, cam') ->
  NoDup (worlds cam').
Proof.
  intros Hnd. unfold addCalibrationPoint.
  destruct (List.length worldPoint <? 3)%nat; [intros [= _ <-]; exact Hnd|].
  destruct (findWorld _ _ 0) as [i|] eqn:Hf.
  - intros [= _ <-]. exact Hnd.
  - destruct (forEachObject _ _) as [objs|]; [|discriminate].
    intros [= _ <-]. unfold worlds in *. cbn [set_points _calibrationPoints].
    rewrite map_app. cbn [map CalibrationPoint_of_world world].
    apply findWorld_None in Hf.
    apply NoDup_app. split; [exact Hnd|]. split.
    + intros x Hx Hx'. apply list_elem_of_In in Hx.
      apply list_elem_of_singleton in Hx'. subst x. auto.
    + apply NoDup_singleton.
Qed.

Lemma reachableByAdd_NoDup (cam : Camera O) :
  reachableByAdd cam -> NoDup (worlds cam).
Proof.
  induction 1 as [cam Hempty | cam cam' wp ret _ IH Hadd].
  - unfold worlds. rewrite Hempty. constructor.
  - eapply addCalibrationPoint_NoDup; eauto.
Qed.

(** C9: in every state reachable through addCalibrationPoint the world
    coordinates of the calibration points are pairwise different;
    adding a world coordinate that point number [i] already has changes
    nothing but the selection, which becomes [i]; adding a fresh one
    appends one point that is not set, selects it (it is the last
    one), and calls addCalibrationPoint on every linked object. *)
Theorem addCalibrationPoint_no_duplicate (cam : Camera O) (x y z : R) (rest : list R) :
  reachableByAdd cam ->
  NoDup (worlds cam)
  /\ (forall i : nat, worlds cam !! i = Some (mkVec3 x y z) ->
      addCalibrationPoint (x :: y :: z :: rest) cam
      = Some (true, set_selected cam (Z.of_nat i)))
  /\ (~ In (mkVec3 x y z) (worlds cam) -> allObjectsAlive cam ->
      addCalibrationPoint (x :: y :: z :: rest) cam
      = Some (true,
              set_points cam
                (_calibrationPoints cam ++ [mkPoint (mkVec3 x y z) (mkVec2 0 0) false])
                (Z.of_nat (List.length (_calibrationPoints cam)))
                (_calibrationCalledOnce cam)
                (map (option_map (Object_addCalibrationPoint (mkVec3 x y z)))
                     (_objects cam)))).
Proof.
  intros Hreach. pose proof (reachableByAdd_NoDup cam Hreach) as Hnd.
  split; [exact Hnd|]. split.
  - intros i Hi. unfold addCalibrationPoint. cbn [List.length Nat.ltb Nat.leb nth].
    unfold worlds in *. rewrite (findWorld_NoDup _ _ i Hnd Hi). reflexivity.
  - intros Hfresh Halive. unfold addCalibrationPoint.
    cbn [List.length Nat.ltb Nat.leb nth]. unfold worlds in *.
    apply findWorld_None with (k := 0%nat) in Hfresh. rewrite Hfresh.
    rewrite (forEachObject_alive _ _ Halive). unfold CalibrationPoint_of_world.
    do 3 f_equal. rewrite length_app. cbn [List.length]. lia.
Qed.

End AddProofs.

Section AddWitness.
Import Glm Camera CameraSpec.
Local Open Scope R_scope.

Lemma cameraOnePoint_reachable : reachableByAdd cameraOnePoint.
Proof.
  apply (reach_add
           (mkCamera 35 0.5 0.5 0.1 100 512 512
              (mkVec3 1 0 5) (mkVec3 0 0 0) (mkVec3 0 0 1)
              [] 0%Z false false [Some []; Some []])
           cameraOnePoint [1; 2; 3] true).
  - apply reach_empty. reflexivity.
  - reflexivity.
Qed.

(** Adding (1, 2, 3) a second time selects point 0 and adds nothing;
    adding (4, 5, 6) appends it. *)
Lemma addCalibrationPoint_twice :
  NoDup (worlds cameraOnePoint)
  /\ addCalibrationPoint [1; 2; 3] cameraOnePoint
     = Some (true, set_selected cameraOnePoint 0%Z)
  /\ addCalibrationPoint [4; 5; 6] cameraOnePoint
     = Some (true,
             set_points cameraOnePoint
               [mkPoint (mkVec3 1 2 3) (mkVec2 0 0) false;
                mkPoint (mkVec3 4 5 6) (mkVec2 0 0) false]
               1%Z false
               [Some [mkVec3 1 2 3; mkVec3 4 5 6]; Some [mkVec3 1 2 3; mkVec3 4 5 6]]).
Proof.
  destruct (addCalibrationPoint_no_duplicate cameraOnePoint 1 2 3 []
              cameraOnePoint_reachable) as (Hnd & Hdup & _).
  destruct (addCalibrationPoint_no_duplicate cameraOnePoint 4 5 6 []
              cameraOnePoint_reachable) as (_ & _ & Hfresh).
  split; [exact Hnd|]. split.
  - apply (Hdup 0%nat). reflexivity.
  - apply Hfresh.
    + cbn. intros [[= E _ _] | []]. lra.
    + repeat constructor; discriminate.
Defined.

End AddWitness.

(** ** Selecting the next calibration point *)

Section SelectProofs.
Import Glm Camera CameraSpec.

(** C10, as amended: with at least one calibration point and a
    selection that is -1 (nothing selected) or more, the handler
    selects (selected + 1) mod size; with no calibration point the
    divisor is zero and the handler has no defined result. *)
Theorem selectNextCalibrationPoint_wraps {O : Type} (cam : Camera O) :
  let size := Z.of_nat (List.length (_calibrationPoints cam)) in
  (_calibrationPoints cam <> [] ->
   -1 <= _selectedCalibrationPoint cam < INT_MAX ->
   size <= INT_MAX ->
   selectNextCalibrationPoint cam
   = Some (true, set_selected cam ((_selectedCalibrationPoint cam + 1) mod size)))
  /\ (_calibrationPoints cam = [] -> selectNextCalibrationPoint cam = None).
Proof.
  intros size. unfold selectNextCalibrationPoint. fold size. split.
  - intros Hne Hsel Hsize.
    assert (Hpos : 0 < size).
    { unfold size. destruct (_calibrationPoints cam); [congruence | cbn; lia]. }
    unfold INT_MAX in *.
    destruct (Z.ltb_spec (2 ^ 31 - 1) (_selectedCalibrationPoint cam + 1)); [lia|].
    destruct (Z.eqb_spec size 0); [lia|].
    do 3 f_equal. unfold to_size_t, to_int.
    rewrite (Z.mod_small (_selectedCalibrationPoint cam + 1)) by lia.
    pose proof (Z.mod_pos_bound (_selectedCalibrationPoint cam + 1) size Hpos).
    rewrite Z.mod_small; lia.
  - intros Hnil. unfold size. rewrite Hnil. cbn [List.length Z.of_nat Z.eqb].
    destruct (INT_MAX <? _selectedCalibrationPoint cam + 1); reflexivity.
Qed.

(** From the first of three points the handler selects the second. *)
Lemma selectNextCalibrationPoint_second :
  selectNextCalibrationPoint cameraThreePoints
  = Some (true, set_selected cameraThreePoints ((0 + 1) mod 3)).
Proof.
  apply (proj1 (selectNextCalibrationPoint_wraps cameraThreePoints)).
  - discriminate.
  - cbn. unfold INT_MAX. lia.
  - cbn. unfold INT_MAX. lia.
Defined.

(** C10, the counterexample: the selection -2 is reached from the
    first point by deselectCalibrationPoint and the handler
    selectPreviousCalibrationPoint; from it, with three points, the
    handler selects point 0, and (-2 + 1) mod 3 is 2 (-1 with the
    remainder of C). *)
Lemma selectNextCalibrationPoint_below :
  selectPreviousCalibrationPoint (deselectCalibrationPoint cameraThreePoints)
  = Some (true, cameraSelectionBelow)
  /\ selectNextCalibrationPoint cameraSelectionBelow
     = Some (true, set_selected cameraSelectionBelow 0)
  /\ (_selectedCalibrationPoint cameraSelectionBelow + 1) mod 3 = 2
  /\ Z.rem (_selectedCalibrationPoint cameraSelectionBelow + 1) 3 = -1.
Proof. repeat split. Qed.

End SelectProofs.

(** ** Removing calibration points *)

Section RemoveProofs.
Import Glm Camera CameraSpec.
Local Open Scope R_scope.

Lemma sqrt_of_1 (e : R) : e = 1 -> sqrt e = 1.
Proof. intros ->. apply sqrt_1. Qed.

Lemma sqrt_of_0 (e : R) : e = 0 -> sqrt e = 0.
Proof. intros ->. apply sqrt_0. Qed.

Lemma tan_of_PI4 (e : R) : e = PI / 4 -> tan e = 1.
Proof. intros ->. apply tan_PI4. Qed.

Lemma DBL_MAX_pos : 0 < DBL_MAX.
Proof.
  unfold DBL_MAX. apply Rmult_lt_0_compat.
  - assert (H : 0 < / 2 ^ 52 < 1).
    { assert (H1 : 1 < 2 ^ 52) by (apply Rlt_pow_R1; [lra | lia]).
      split; [apply Rinv_0_lt_compat; lra|].
      rewrite <- Rinv_1. apply Rinv_lt_contravar; lra. }
    lra.
  - apply pow_lt. lra.
Qed.

Lemma Rltb_true_iff (a b : R) : Rltb a b = true <-> a < b.
Proof. unfold Rltb. destruct (Rlt_dec a b); split; congruence. Qed.

(** The screen-point branch does not read [unlessSet]. *)
Lemma removeCalibrationPoint_screen_ignores_unlessSet {O : Type} `{Renderable O}
    (cam : Camera O) (x y : R) (unlessSet : bool) :
  removeCalibrationPoint [x; y] unlessSet cam = removeCalibrationPoint [x; y] false cam.
Proof. reflexivity. Qed.

(** The view of the example camera is the identity. *)
Lemma lookAt_down_z :
  lookAt (mkVec3 0 0 0) (mkVec3 0 0 (-1)) (mkVec3 0 1 0)
  = mkMat4 (mkVec4 1 0 0 0) (mkVec4 0 1 0 0) (mkVec4 0 0 1 0) (mkVec4 0 0 0 1).
Proof.
  unfold lookAt, normalize, scale3, inversesqrt, cross, dot, sub3.
  cbn [x3 y3 z3].
  rewrite !(sqrt_of_1 (_ + _)) by lra.
  f_equal; f_equal; lra.
Qed.

(** The projection of the example camera. *)
Lemma computeProjectionMatrix_example :
  computeProjectionMatrix cameraOneSetPoint 90 0.5 0.5
  = mkMat4 (mkVec4 1 0 0 0) (mkVec4 0 1 0 0) (mkVec4 0 0 (-2) (-1)) (mkVec4 0 0 (-3) 0).
Proof.
  unfold computeProjectionMatrix, projectionBounds, frustum, M_PI.
  cbn [bl br bb bt bn bf cameraOneSetPoint _near _far _width _height].
  rewrite !(tan_of_PI4 (90 * PI / 360)) by lra.
  f_equal; f_equal; try lra; field; lra.
Qed.

(** Its calibration point projects to the pixel (1, 1). *)
Lemma project_example :
  project (mkVec3 0 0 (-2))
    (mkMat4 (mkVec4 1 0 0 0) (mkVec4 0 1 0 0) (mkVec4 0 0 1 0) (mkVec4 0 0 0 1))
    (mkMat4 (mkVec4 1 0 0 0) (mkVec4 0 1 0 0) (mkVec4 0 0 (-2) (-1)) (mkVec4 0 0 (-3) 0))
    (mkVec4 0 0 2 2)
  = mkVec3 1 1 0.75.
Proof.
  unfold project, mulMV. cbn [x3 y3 z3 x4 y4 z4 w4 col0 col1 col2 col3].
  f_equal; lra.
Qed.

(** C3, at a failing input: the camera has one calibration point, which
    is set; removing by the screen point (1, 1) with [unlessSet = true]
    erases it. *)
Theorem removeCalibrationPoint_screen_removes_set_point :
  map isSet (_calibrationPoints cameraOneSetPoint) = [true]
  /\ removeCalibrationPoint [1; 1] true cameraOneSetPoint
     = Some (set_points cameraOneSetPoint [] 0%Z false []).
Proof.
  split; [reflexivity|].
  unfold removeCalibrationPoint.
  cbn [List.length Nat.eqb nth cameraOneSetPoint _eye _target _up _fov _cx _cy
       _width _height _calibrationPoints _objects _selectedCalibrationPoint].
  rewrite lookAt_down_z.
  change (computeProjectionMatrix _ 90 0.5 0.5)
    with (computeProjectionMatrix cameraOneSetPoint 90 0.5 0.5).
  rewrite computeProjectionMatrix_example.
  cbn [nearestLoop world]. rewrite project_example. cbn [x3 y3].
  assert (Hd : length (sub3 (mkVec3 1 1 0) (mkVec3 1 1 0)) = 0).
  { unfold length, dot, sub3. cbn [x3 y3 z3]. apply sqrt_of_0. lra. }
  rewrite Hd.
  rewrite (proj2 (Rltb_true_iff 0 DBL_MAX) DBL_MAX_pos).
  reflexivity.
Qed.

(** *** Removing by world point *)

Lemma filter_delete_unset (pts : list CalibrationPoint) (i : nat) (p : CalibrationPoint) :
  pts !! i = Some p -> isSet p = false ->
  List.filter isSet (delete i pts) = List.filter isSet pts.
Proof.
  revert i. induction pts as [|q pts IH]; intros i Hi Hp; [discriminate|].
  destruct i as [|i]; cbn in Hi.
  - injection Hi as ->. cbn [delete list_delete List.filter]. rewrite Hp. reflexivity.
  - change (delete (S i) (q :: pts)) with (q :: delete i pts).
    cbn [List.filter]. rewrite (IH i Hi Hp). reflexivity.
Qed.

Lemma removeWorldLoop_keeps_set {O : Type} `{Renderable O} (n i : nat) (w : dvec3)
    (pts pts' : list CalibrationPoint) (sel sel' : Z) (objs objs' : list (option O)) :
  removeWorldLoop n i w true pts sel objs = Some (pts', sel', objs') ->
  List.filter isSet pts' = List.filter isSet pts.
Proof.
  revert i pts sel objs. induction n as [|n IH]; intros i pts sel objs Hr.
  - injection Hr as <- _ _. reflexivity.
  - cbn [removeWorldLoop] in Hr. destruct (pts !! i) as [p|] eqn:Hp.
    + destruct (vec3_eqb (world p) w); [|eauto].
      destruct (isSet p) eqn:Hset; cbn [andb] in Hr; [eauto|].
      destruct (forEachObject _ objs) as [objs1|]; [|discriminate].
      rewrite (IH _ _ _ _ Hr). eapply filter_delete_unset; eauto.
    + injection Hr as <- _ _. reflexivity.
Qed.

(** Removing by world point with [unlessSet = true] removes no
    calibration point that is set: the set points of the camera are
    the same before and after, in the same order. *)
Theorem removeCalibrationPoint_world_keeps_set {O : Type} `{Renderable O}
    (cam cam' : Camera O) (x y z : R) :
  removeCalibrationPoint [x; y; z] true cam = Some cam' ->
  List.filter isSet (_calibrationPoints cam')
  = List.filter isSet (_calibrationPoints cam).
Proof.
  unfold removeCalibrationPoint. cbn [List.length Nat.eqb nth].
  destruct (removeWorldLoop _ 0 _ true _ _ _) as [[[pts sel] objs]|] eqn:Hr; [|discriminate].
  intros [= <-]. cbn [set_points _calibrationPoints].
  eapply removeWorldLoop_keeps_set; eauto.
Qed.

Lemma vec3_eqb_refl (a : dvec3) : vec3_eqb a a = true.
Proof. apply vec3_eqb_true_iff. reflexivity. Qed.

(** With [unlessSet = true] the world point (1, 2, 3) is removed where
    it is not set and kept where it is. *)
Lemma removeCalibrationPoint_world_example :
  removeCalibrationPoint [1; 2; 3] true cameraMixedPoints
  = Some (set_points cameraMixedPoints
            [mkPoint (mkVec3 1 2 3) (mkVec2 0 0) true;
             mkPoint (mkVec3 4 5 6) (mkVec2 0 0) false]
            (-1)%Z false []).
Proof.
  unfold removeCalibrationPoint.
  cbn [List.length Nat.eqb nth cameraMixedPoints _calibrationPoints
       _selectedCalibrationPoint _objects].
  cbn [removeWorldLoop lookup list_lookup world isSet andb].
  rewrite vec3_eqb_refl.
  assert (Hne : vec3_eqb (mkVec3 4 5 6) (mkVec3 1 2 3) = false).
  { apply vec3_eqb_false_iff. intros [= E _ _]. lra. }
  rewrite Hne. cbn [forEachObject delete list_delete lookup list_lookup].
  reflexivity.
Qed.

Lemma removeCalibrationPoint_world_keeps_set_example :
  List.filter isSet
    (_calibrationPoints
       (set_points cameraMixedPoints
          [mkPoint (mkVec3 1 2 3) (mkVec2 0 0) true;
           mkPoint (mkVec3 4 5 6) (mkVec2 0 0) false]
          (-1)%Z false []))
  = List.filter isSet (_calibrationPoints cameraMixedPoints).
Proof.
  apply (removeCalibrationPoint_world_keeps_set cameraMixedPoints _ 1 2 3).
  exact removeCalibrationPoint_world_example.
Defined.

(** *** Removing by screen point *)

Section Nearest.
Variables (screenPoint : dvec3) (lookM projM : dmat4) (viewport : dvec4).



End Nearest.



End RemoveProofs.

(** ** Accumulation: what the loop adds *)

Section AccumulateProofs.

Lemma addCells_app (l1 l2 : list nat) (camMap imageMap : list Z) :
  addCells (l1 ++ l2) camMap imageMap
  = match addCells l1 camMap imageMap with
    | None => None
    | Some imageMap' => addCells l2 camMap imageMap'
    end.
Proof.
  revert imageMap. induction l1 as [|i l1 IH]; intros imageMap; [reflexivity|].
  cbn [app addCells]. destruct (addCell i camMap imageMap); [apply IH | reflexivity].
Qed.

Lemma accumulateRow_addCells (width y n x : nat) (camMap imageMap : list Z) :
  accumulateRow width y n x camMap imageMap
  = addCells (map (fun x => (y + width * x)%nat) (seq x n)) camMap imageMap.
Proof.
  revert x imageMap. induction n as [|n IH]; intros x imageMap; [reflexivity|].
  cbn [accumulateRow seq map addCells].
  destruct (addCell _ camMap imageMap); [apply IH | reflexivity].
Qed.

Lemma accumulateFrom_addCells (width n y : nat) (camMap imageMap : list Z) :
  accumulateFrom width n y camMap imageMap
  = addCells
      (flat_map (fun y => map (fun x => (y + width * x)%nat) (seq 0 width)) (seq y n))
      camMap imageMap.
Proof.
  revert y imageMap. induction n as [|n IH]; intros y imageMap; [reflexivity|].
  cbn [accumulateFrom seq flat_map]. rewrite addCells_app, accumulateRow_addCells.
  destruct (addCells _ camMap imageMap); [apply IH | reflexivity].
Qed.

(** The accumulation is the addition of the cells at [accIndices]. *)
Lemma accumulate_addCells (width height : nat) (camMap imageMap : list Z) :
  accumulate width height camMap imageMap
  = addCells (accIndices width height) camMap imageMap.
Proof. apply accumulateFrom_addCells. Qed.

Lemma addCell_Some (i : nat) (camMap imageMap : list Z) :
  (i < List.length imageMap)%nat -> (i < List.length camMap)%nat ->
  addCell i camMap imageMap
  = Some (<[i := to_ushort (getPix imageMap i + getPix camMap i)]> imageMap).
Proof.
  intros Hi Hc. unfold addCell, getPix.
  destruct (lookup_lt_is_Some_2 imageMap i Hi) as [a ->].
  destruct (lookup_lt_is_Some_2 camMap i Hc) as [c ->]. reflexivity.
Qed.

Lemma addCell_None (i : nat) (camMap imageMap : list Z) :
  ~ ((i < List.length imageMap)%nat /\ (i < List.length camMap)%nat) ->
  addCell i camMap imageMap = None.
Proof.
  intros Hn. unfold addCell.
  destruct (imageMap !! i) as [a|] eqn:Ea; [|reflexivity].
  destruct (camMap !! i) as [c|] eqn:Ec; [|reflexivity].
  exfalso. apply Hn. split; eapply lookup_lt_Some; eauto.
Qed.

(** The additions are defined exactly when every index is inside both
    maps; they keep the length of the shared map. *)
Lemma addCells_defined (idx : list nat) (camMap imageMap : list Z) :
  Forall (fun i => (i < List.length imageMap)%nat /\ (i < List.length camMap)%nat) idx ->
  exists imageMap', addCells idx camMap imageMap = Some imageMap'.
Proof.
  revert imageMap. induction idx as [|i idx IH]; intros imageMap Hall.
  - eexists; reflexivity.
  - inversion Hall as [|? ? [Hi Hc] Hrest]; subst. cbn [addCells].
    rewrite addCell_Some by assumption. apply IH.
    rewrite length_insert. exact Hrest.
Qed.

Lemma addCells_in_range (idx : list nat) (camMap imageMap imageMap' : list Z) :
  addCells idx camMap imageMap = Some imageMap' ->
  List.length imageMap' = List.length imageMap
  /\ Forall (fun i => (i < List.length imageMap)%nat /\ (i < List.length camMap)%nat) idx.
Proof.
  revert imageMap. induction idx as [|i idx IH]; intros imageMap Hs.
  - injection Hs as <-. split; [reflexivity | constructor].
  - cbn [addCells] in Hs.
    destruct (Nat.lt_ge_cases i (List.length imageMap)) as [Hi | Hi];
      [|rewrite addCell_None in Hs by lia; discriminate].
    destruct (Nat.lt_ge_cases i (List.length camMap)) as [Hc | Hc];
      [|rewrite addCell_None in Hs by lia; discriminate].
    rewrite addCell_Some in Hs by assumption.
    destruct (IH _ Hs) as [Hlen Hall]. rewrite length_insert in Hlen, Hall.
    split; [exact Hlen | constructor; [split; assumption | exact Hall]].
Qed.

Lemma addTimes_S (n : nat) (c a : Z) :
  addTimes n c (to_ushort (a + c)) = addTimes (S n) c a.
Proof.
  unfold addTimes, to_ushort. destruct n as [|n].
  - f_equal. lia.
  - rewrite Zplus_mod_idemp_l. f_equal. lia.
Qed.

(** Cell [k] of the shared map receives the camera's cell [k] once per
    occurrence of [k] among the indices. *)
Lemma addCells_lookup (idx : list nat) (camMap imageMap imageMap' : list Z) (k : nat) :
  addCells idx camMap imageMap = Some imageMap' ->
  imageMap' !! k
  = addTimes (count_occ Nat.eq_dec idx k) (getPix camMap k) <$> imageMap !! k.
Proof.
  revert imageMap. induction idx as [|i idx IH]; intros imageMap Hs.
  - injection Hs as <-. cbn. destruct (imageMap !! k); reflexivity.
  - pose proof (addCells_in_range _ _ _ _ Hs) as [_ Hall].
    inversion Hall as [|? ? [Hi Hc] _]; subst.
    cbn [addCells] in Hs. rewrite addCell_Some in Hs by assumption.
    rewrite (IH _ Hs). cbn [count_occ].
    destruct (Nat.eq_dec i k) as [-> | Hne].
    + rewrite list_lookup_insert_eq by exact Hi.
      unfold getPix at 2. destruct (imageMap !! k) as [a|] eqn:Ea.
      * cbn. f_equal. apply addTimes_S.
      * apply lookup_ge_None in Ea. lia.
    + rewrite list_lookup_insert_ne by exact Hne. reflexivity.
Qed.

Lemma addTimes_comm (n : nat) (c1 c2 a : Z) :
  addTimes n c2 (addTimes n c1 a) = addTimes n c1 (addTimes n c2 a).
Proof.
  destruct n as [|n]; [reflexivity|]. unfold addTimes, to_ushort.
  rewrite !Zplus_mod_idemp_l. f_equal. lia.
Qed.

(** The accumulations of two cameras commute: adding the map of camera
    A and then the map of camera B gives the shared map that adding B's
    and then A's gives. *)
Theorem accumulate_commutes (width height : nat)
    (camMapA camMapB imageMap imageMap1 imageMap2 : list Z) :
  accumulate width height camMapA imageMap = Some imageMap1 ->
  accumulate width height camMapB imageMap1 = Some imageMap2 ->
  exists imageMap1',
    accumulate width height camMapB imageMap = Some imageMap1'
    /\ accumulate width height camMapA imageMap1' = Some imageMap2.
Proof.
  rewrite !accumulate_addCells. set (idx := accIndices width height).
  intros HA HB.
  destruct (addCells_in_range _ _ _ _ HA) as [Hlen1 HallA].
  destruct (addCells_in_range _ _ _ _ HB) as [Hlen2 HallB].
  destruct (addCells_defined idx camMapB imageMap) as [im1' HB'].
  { rewrite Hlen1 in HallB. exact HallB. }
  destruct (addCells_in_range _ _ _ _ HB') as [Hlen1' _].
  destruct (addCells_defined idx camMapA im1') as [im2' HA'].
  { rewrite Hlen1'. exact HallA. }
  exists im1'. split; [exact HB'|]. rewrite ?accumulate_addCells. fold idx.
  rewrite HA'. f_equal.
  apply list_eq. intros k.
  rewrite (addCells_lookup _ _ _ _ k HA'), (addCells_lookup _ _ _ _ k HB').
  rewrite (addCells_lookup _ _ _ _ k HB), (addCells_lookup _ _ _ _ k HA).
  destruct (imageMap !! k) as [a|]; [|reflexivity].
  cbn. f_equal. apply addTimes_comm.
Qed.

(** Two cameras on a map of 2 by 2 cells. *)
Lemma accumulate_commutes_2x2 :
  exists imageMap1',
    accumulate 2 2 [4196; 0; 4352; 4352] [0; 4200; 0; 65535] = Some imageMap1'
    /\ accumulate 2 2 [0; 4100; 4200; 4352] imageMap1' = Some [4196; 8300; 8552; 8703].
Proof.
  apply (accumulate_commutes 2 2 [0; 4100; 4200; 4352] [4196; 0; 4352; 4352]
           [0; 4200; 0; 65535] [0; 8300; 4200; 4351] [4196; 8300; 8552; 8703]);
    vm_compute; reflexivity.
Defined.

(** The indices of a square map: each cell once. *)
Lemma accIndices_In (width height k : nat) :
  In k (accIndices width height)
  <-> exists y x, (y < height)%nat /\ (x < width)%nat /\ k = (y + width * x)%nat.
Proof.
  unfold accIndices. rewrite in_flat_map. split.
  - intros (y & Hy & Hk). apply in_map_iff in Hk. destruct Hk as (x & <- & Hx).
    apply in_seq in Hy, Hx. exists y, x. repeat split; lia.
  - intros (y & x & Hy & Hx & ->). exists y. split; [apply in_seq; lia|].
    apply in_map_iff. exists x. split; [reflexivity | apply in_seq; lia].
Qed.

Lemma NoDup_map_index (width y n x0 : nat) :
  (0 < width)%nat ->
  NoDup (map (fun x => (y + width * x)%nat) (seq x0 n)).
Proof.
  intros Hw. revert x0. induction n as [|n IH]; intros x0; cbn [seq map]; constructor.
  - rewrite list_elem_of_In, in_map_iff. intros (x & Hx & Hin). apply in_seq in Hin. nia.
  - apply IH.
Qed.

Lemma accIndices_NoDup (width height : nat) :
  (height <= width)%nat -> NoDup (accIndices width height).
Proof.
  intros Hle. unfold accIndices.
  assert (Hgen : forall n y0, (y0 + n <= width)%nat ->
            NoDup (flat_map (fun y => map (fun x => (y + width * x)%nat) (seq 0 width))
                            (seq y0 n))).
  { induction n as [|n IH]; intros y0 Hy; cbn [seq flat_map]; [constructor|].
    apply NoDup_app. split; [apply NoDup_map_index; lia|]. split; [|apply IH; lia].
    intros k Hk Hk'. rewrite list_elem_of_In in Hk, Hk'.
    apply in_map_iff in Hk. destruct Hk as (x & <- & Hx). apply in_seq in Hx.
    apply in_flat_map in Hk'. destruct Hk' as (y & Hy' & Hk').
    apply in_seq in Hy'. apply in_map_iff in Hk'. destruct Hk' as (x' & E & Hx').
    apply in_seq in Hx'.
    assert (x = x' \/ x < x' \/ x' < x)%nat as [-> | [Hlt | Hlt]] by lia; nia. }
  apply Hgen. lia.
Qed.

Lemma accIndices_square_count (n k : nat) :
  (k < n * n)%nat -> count_occ Nat.eq_dec (accIndices n n) k = 1%nat.
Proof.
  intros Hk.
  apply (proj1 (NoDup_count_occ' Nat.eq_dec (accIndices n n))).
  - apply NoDup_ListNoDup, accIndices_NoDup. lia.
  - apply accIndices_In. exists (k mod n)%nat, (k / n)%nat.
    assert (Hn : (n <> 0)%nat) by lia.
    pose proof (Nat.mod_upper_bound k n Hn).
    pose proof (Nat.div_mod_eq k n).
    split; [lia|]. split; [|lia].
    apply Nat.Div0.div_lt_upper_bound. lia.
Qed.

(** On a square map the accumulation adds to every cell of the shared
    map the camera's cell of the same index, in unsigned 16-bit
    arithmetic, and nothing else. *)
Theorem accumulate_square_map (n : nat) (camMap imageMap : list Z) :
  List.length imageMap = (n * n)%nat ->
  List.length camMap = (n * n)%nat ->
  accumulate n n camMap imageMap = Some (addMaps imageMap camMap).
Proof.
  intros Hi Hc. rewrite accumulate_addCells.
  destruct (addCells_defined (accIndices n n) camMap imageMap) as [im' Hs].
  { apply Forall_forall. intros k Hk. apply list_elem_of_In, accIndices_In in Hk.
    destruct Hk as (y & x & Hy & Hx & ->). rewrite Hi, Hc. nia. }
  rewrite Hs. f_equal. apply list_eq. intros k.
  rewrite (addCells_lookup _ _ _ _ k Hs). unfold addMaps.
  rewrite lookup_zip_with.
  destruct (imageMap !! k) as [a|] eqn:Ea; [|reflexivity].
  pose proof (lookup_lt_Some _ _ _ Ea) as Hk. rewrite Hi in Hk.
  rewrite accIndices_square_count by exact Hk.
  destruct (lookup_lt_is_Some_2 camMap k ltac:(lia)) as [c Ec].
  unfold getPix. rewrite Ec. cbn. unfold to_ushort. do 2 f_equal. lia.
Qed.

(** A map of 2 by 2 cells. *)
Lemma accumulate_square_map_2x2 :
  accumulate 2 2 [4196; 0; 4352; 4352] [0; 4200; 0; 65535]
  = Some (addMaps [0; 4200; 0; 65535] [4196; 0; 4352; 4352]).
Proof.
  apply (accumulate_square_map 2 [4196; 0; 4352; 4352] [0; 4200; 0; 65535]);
    reflexivity.
Defined.

End AccumulateProofs.

(** ** The input queues of the windows *)

Section WindowInputProofs.
Import WindowInput WindowInputSpec.

Lemma pushPaths_all (paths dropped : list string) :
  pushPaths (List.length paths) paths dropped = Some (dropped ++ paths).
Proof.
  revert dropped. induction paths as [|p paths IH]; intros dropped; cbn [List.length pushPaths].
  - rewrite app_nil_r. reflexivity.
  - rewrite IH, <- app_assoc. reflexivity.
Qed.

Lemma delivered_app (ps qs : list (Z * KeyOut)) :
  delivered (ps ++ qs) = delivered ps ++ delivered qs.
Proof. unfold delivered. rewrite List.filter_app, map_app. reflexivity. Qed.

(** One call on well-formed queues: it is defined, keeps the queues
    well formed, and adds to what the run has seen exactly the event
    of the call. *)
Lemma call_seen (n : nat) (t : Trace) (c : Call) :
  wellFormed n (queues t) ->
  Z.of_nat n < 2 ^ 31 ->
  exists t',
    call t c = Some t'
    /\ wellFormed (S n) (queues t')
    /\ keysSeen t' = keysSeen t ++ keyEvents [c]
    /\ mouseSeen t' = mouseSeen t ++ mouseEvents [c]
    /\ pathsSeen t' = pathsSeen t ++ droppedPaths [c].
Proof.
  intros (Hk & Hm & Hnk & Hnm) Hn. destruct t as [q ko mo co p].
  cbn [queues] in Hk, Hm, Hnk, Hnm.
  unfold keysSeen, mouseSeen, pathsSeen, wellFormed, pendingKeys, pendingMouse, delivered.
  destruct c; cbn [call queues polled keyOut mouseOut charOut].
  - eexists. split; [reflexivity|]. cbn.
    rewrite ?map_app, ?app_nil_r, <- ?app_assoc, ?length_app. cbn.
    repeat split; try assumption; try lia.
    apply Forall_app. split; [assumption | repeat constructor].
  - eexists. split; [reflexivity|]. cbn. rewrite ?app_nil_r.
    repeat split; try assumption; lia.
  - eexists. split; [reflexivity|]. cbn.
    rewrite ?map_app, ?app_nil_r, <- ?app_assoc, ?length_app. cbn.
    repeat split; try assumption; try lia.
    apply Forall_app. split; [assumption | repeat constructor].
  - unfold pathdropCallback. rewrite pushPaths_all.
    eexists. split; [reflexivity|]. cbn.
    rewrite ?app_nil_r, <- ?app_assoc. repeat split; try assumption; lia.
  - eexists. split; [reflexivity|]. cbn. rewrite ?app_nil_r.
    repeat split; try assumption; lia.
  - unfold getKeys. destruct (_keys q) as [|[win keys] rest] eqn:Eq.
    + eexists. split; [reflexivity|]. cbn.
      rewrite Eq, List.filter_app. cbn. rewrite ?app_nil_r.
      repeat split; try assumption; try constructor; try lia.
    + inversion Hk as [|? ? Hlen Hrest]; subst. cbn [snd] in Hlen.
      destruct keys as [|k0 [|k1 [|k2 [|k3 [|]]]]]; try discriminate Hlen.
      cbn [List.length] in Hnk.
      cbn [lookup list_lookup]. eexists. split; [reflexivity|]. cbn.
      rewrite List.filter_app, map_app. cbn [List.filter fst].
      rewrite (wrap_int_small (Z.of_nat (List.length rest) + 1)) by lia.
      destruct (Z.eqb_spec (Z.of_nat (List.length rest) + 1) 0) as [E|_]; [lia|].
      cbn. rewrite ?app_nil_r, <- ?app_assoc. cbn.
      repeat split; try assumption; lia.
  - unfold getMouseBtn. destruct (_mouseBtn q) as [|[win mouse] rest] eqn:Eq.
    + eexists. split; [reflexivity|]. cbn.
      rewrite Eq, List.filter_app. cbn. rewrite ?app_nil_r.
      repeat split; try assumption; try constructor; try lia.
    + inversion Hm as [|? ? Hlen Hrest]; subst. cbn [snd] in Hlen.
      destruct mouse as [|k0 [|k1 [|k2 [|]]]]; try discriminate Hlen.
      cbn [List.length] in Hnm.
      cbn [lookup list_lookup]. eexists. split; [reflexivity|]. cbn.
      rewrite List.filter_app, map_app. cbn [List.filter fst].
      rewrite (wrap_int_small (Z.of_nat (List.length rest) + 1)) by lia.
      destruct (Z.eqb_spec (Z.of_nat (List.length rest) + 1) 0) as [E|_]; [lia|].
      cbn. rewrite ?app_nil_r, <- ?app_assoc. cbn.
      repeat split; try assumption; lia.
  - unfold getChars. destruct (_chars q) as [|[win cp] rest];
      (eexists; split; [reflexivity|]); cbn; rewrite ?app_nil_r;
      repeat split; try assumption; lia.
  - eexists. split; [reflexivity|]. cbn.
    rewrite concat_app. cbn. rewrite ?app_nil_r. repeat split; try assumption; lia.
Qed.

Lemma calls_seen (cs : list Call) (n : nat) (t : Trace) :
  wellFormed n (queues t) ->
  Z.of_nat n + Z.of_nat (List.length cs) < 2 ^ 31 ->
  exists t',
    calls t cs = Some t'
    /\ wellFormed (n + List.length cs) (queues t')
    /\ keysSeen t' = keysSeen t ++ keyEvents cs
    /\ mouseSeen t' = mouseSeen t ++ mouseEvents cs
    /\ pathsSeen t' = pathsSeen t ++ droppedPaths cs.
Proof.
  revert n t. induction cs as [|c cs IH]; intros n t Hwf Hn.
  - exists t. cbn. rewrite ?app_nil_r, Nat.add_0_r. auto.
  - cbn [List.length] in Hn.
    destruct (call_seen n t c Hwf ltac:(lia)) as (t1 & Hc & Hwf1 & Hk1 & Hm1 & Hp1).
    destruct (IH (S n) t1 Hwf1 ltac:(lia)) as (t' & Hcs & Hwf' & Hk & Hm & Hp).
    exists t'. cbn [calls]. rewrite Hc.
    split; [exact Hcs|]. split.
    { replace (n + List.length (c :: cs))%nat with (S n + List.length cs)%nat
        by (cbn [List.length]; lia). exact Hwf'. }
    rewrite Hk, Hm, Hp, Hk1, Hm1, Hp1, <- !app_assoc.
    unfold keyEvents, mouseEvents, droppedPaths. cbn [flat_map].
    rewrite ?app_nil_r. auto.
Qed.

(** Whatever the order in which the callbacks and the polls of a run
    take the mutex (fewer than 2^31 calls in all), no call reads out of
    range, and each kind of event is delivered in first-in first-out
    order, none lost and none twice: the key events that getKeys has
    delivered (the polls that returned a non-zero value) followed by
    those still queued are the key events of the run in the order of
    their callbacks, as (window, key, action, mods); likewise the
    mouse-button events through getMouseBtn; and the paths returned by
    getPathDropped followed by those still queued are the dropped paths
    in order. *)
Theorem input_queues_fifo (cs : list Call) (out0 : KeyOut) :
  Z.of_nat (List.length cs) < 2 ^ 31 ->
  exists t,
    calls (start out0) cs = Some t
    /\ keysSeen t = keyEvents cs
    /\ mouseSeen t = mouseEvents cs
    /\ pathsSeen t = droppedPaths cs.
Proof.
  intros Hn.
  destruct (calls_seen cs 0 (start out0)) as (t & Hc & _ & Hk & Hm & Hp).
  { repeat split; try constructor. }
  { cbn. lia. }
  exists t. split; [exact Hc|]. auto.
Qed.

Lemma input_queues_fifo_key_then_polls :
  exists t,
    calls (start (mkKeyOut 0%nat 0 0 0))
          [KeyEvent 1%nat 65 38 1 0; MouseBtnEvent 1%nat 0 1 0; PollKeys; PollKeys;
           PathDrop 1%nat ["a.obj"%string]; PollPaths; KeyEvent 1%nat 66 39 1 0] = Some t
    /\ keysSeen t = [mkKeyOut 1%nat 65 1 0; mkKeyOut 1%nat 66 1 0]
    /\ mouseSeen t = [mkKeyOut 1%nat 0 1 0]
    /\ pathsSeen t = ["a.obj"%string].
Proof.
  apply (input_queues_fifo
           [KeyEvent 1%nat 65 38 1 0; MouseBtnEvent 1%nat 0 1 0; PollKeys; PollKeys;
            PathDrop 1%nat ["a.obj"%string]; PollPaths; KeyEvent 1%nat 66 39 1 0]
           (mkKeyOut 0%nat 0 0 0)).
  cbn. lia.
Defined.

End WindowInputProofs.

(** ** The input textures of a window *)

Section WindowTexturesProofs.
Import WindowTextures WindowTexturesSpec.

Lemma sameTexture_true (s : State) (tex t : Texture) :
  sameTexture s tex t = true <-> expired s t = false /\ t = tex.
Proof.
  unfold sameTexture. destruct (expired s t); [split; [discriminate | intros [? _]; discriminate]|].
  destruct (Nat.eqb_spec t tex); split; auto; try discriminate. intros [_ ?]. contradiction.
Qed.

Lemma find_if_None (p : Texture -> bool) (l : list Texture) :
  find_if p l = None -> forall t, In t l -> p t = false.
Proof.
  induction l as [|x l IH]; cbn [find_if]; intros H t Ht; [destruct Ht|].
  destruct (p x) eqn:Ex; [discriminate|].
  destruct (find_if p l); [discriminate|].
  destruct Ht as [<-|Ht]; auto.
Qed.

Lemma find_if_Some (p : Texture -> bool) (l : list Texture) (i : nat) :
  find_if p l = Some i -> exists t, l !! i = Some t /\ p t = true.
Proof.
  revert i. induction l as [|x l IH]; cbn [find_if]; intros i H; [discriminate|].
  destruct (p x) eqn:Ex.
  - inversion H; subst. exists x. auto.
  - destruct (find_if p l) as [j|]; [|discriminate]. inversion H; subst.
    destruct (IH j eq_refl) as (t & Ht & Hp). exists t. auto.
Qed.

Lemma In_elem_of (x : Texture) (l : list Texture) : In x l <-> x ∈ l.
Proof. symmetry. apply list_elem_of_In. Qed.

Lemma delete_not_in (l : list Texture) (i : nat) (x : Texture) :
  NoDup l -> l !! i = Some x -> ~ In x (delete i l).
Proof.
  revert i. induction l as [|y l IH]; intros i Hnd Hi; [discriminate|].
  apply NoDup_cons in Hnd as [Hy Hnd]. destruct i as [|i]; cbn in Hi |- *.
  - inversion Hi; subst. intros H. apply Hy, In_elem_of, H.
  - intros [->|H].
    + apply Hy. eapply list_elem_of_lookup_2. exact Hi.
    + exact (IH i Hnd Hi H).
Qed.

Lemma delete_NoDup (l : list Texture) (i : nat) : NoDup l -> NoDup (delete i l).
Proof.
  intros H. exact (sublist_NoDup _ _ H (sublist_delete _ _)).
Qed.

Lemma entries_delete (tex : Texture) (l : list Texture) (i : nat) (x : Texture) :
  l !! i = Some x ->
  entries tex l = (entries tex (delete i l) + (if Nat.eqb x tex then 1 else 0))%nat.
Proof.
  unfold entries. revert i. induction l as [|y l IH]; intros i Hi; [discriminate|].
  destruct i as [|i]; cbn in Hi.
  - inversion Hi; subst. cbn. destruct (Nat.eqb x tex); cbn; lia.
  - change (delete (S i) (y :: l)) with (y :: delete i l). cbn [List.filter].
    specialize (IH i Hi). destruct (Nat.eqb y tex); cbn [List.length]; lia.
Qed.

Lemma gone_setTexture (tex : Texture) (s : State) : gone (setTexture tex s) = gone s.
Proof. unfold setTexture. destruct find_if; reflexivity. Qed.

Lemma gone_unsetTexture (tex : Texture) (s : State) : gone (unsetTexture tex s) = gone s.
Proof. unfold unsetTexture. destruct find_if; reflexivity. Qed.

Lemma expired_gone (s s' : State) (t : Texture) : gone s' = gone s -> expired s' t = expired s t.
Proof. unfold expired. intros ->. reflexivity. Qed.

Lemma setTexture_NoDup (tex : Texture) (s : State) :
  expired s tex = false -> NoDup (_inTextures s) -> NoDup (_inTextures (setTexture tex s)).
Proof.
  intros He Hnd. unfold setTexture.
  destruct (find_if (sameTexture s tex) (_inTextures s)) eqn:Ef; [exact Hnd|].
  cbn [_inTextures]. apply NoDup_app. split; [exact Hnd|]. split; [|apply NoDup_singleton].
  intros x Hx Hx'. apply list_elem_of_singleton in Hx'. subst x.
  pose proof (find_if_None _ _ Ef tex (proj2 (In_elem_of _ _) Hx)) as Hp.
  assert (sameTexture s tex tex = true) by (apply sameTexture_true; auto).
  congruence.
Qed.

Lemma unsetTexture_NoDup (tex : Texture) (s : State) :
  NoDup (_inTextures s) -> NoDup (_inTextures (unsetTexture tex s)).
Proof.
  intros Hnd. unfold unsetTexture. destruct find_if; [|exact Hnd].
  cbn [_inTextures]. apply delete_NoDup, Hnd.
Qed.

Lemma call_NoDup (s : State) (c : Call) :
  usable s c -> NoDup (_inTextures s) -> NoDup (_inTextures (call s c)).
Proof.
  destruct c as [tex|tex|texs|texs|tex]; cbn [usable call].
  - apply setTexture_NoDup.
  - intros _. apply unsetTexture_NoDup.
  - unfold linkCamera. revert s. induction texs as [|tex texs IH]; intros s Hu Hnd; [exact Hnd|].
    cbn [fold_left]. inversion Hu; subst. apply IH.
    + eapply Forall_impl; [eassumption|]. intros t Ht. cbn beta.
      rewrite (expired_gone s); [exact Ht | apply gone_setTexture].
    + apply setTexture_NoDup; assumption.
  - intros _. unfold unlinkCamera. revert s.
    induction texs as [|tex texs IH]; intros s Hnd; [exact Hnd|].
    cbn [fold_left]. apply IH, unsetTexture_NoDup, Hnd.
  - intros _ Hnd. exact Hnd.
Qed.

Lemma calls_NoDup (cs : list Call) (s : State) :
  possible s cs -> NoDup (_inTextures s) -> NoDup (_inTextures (calls s cs)).
Proof.
  revert s. induction cs as [|c cs IH]; intros s Hp Hnd; [exact Hnd|].
  destruct Hp as [Hu Hp]. unfold calls. cbn [fold_left]. apply IH; [exact Hp|].
  apply call_NoDup; assumption.
Qed.

(** Whatever calls to setTexture and unsetTexture (alone or through the
    linking of a camera) a window has seen, and whichever textures were
    destroyed in between, no texture is an input of the window twice. *)
Theorem window_textures_linked_once (cs : list Call) :
  possible noTexture cs -> NoDup (_inTextures (calls noTexture cs)).
Proof.
  intros Hp. apply calls_NoDup; [exact Hp | constructor].
Qed.

Lemma window_textures_linked_once_camera :
  NoDup (_inTextures (calls noTexture
           [SetTexture 1%nat; LinkCamera [1%nat; 2%nat]; Destroyed 2%nat;
            UnsetTexture 1%nat; SetTexture 3%nat; SetTexture 3%nat])).
Proof.
  apply (window_textures_linked_once
           [SetTexture 1%nat; LinkCamera [1%nat; 2%nat]; Destroyed 2%nat;
            UnsetTexture 1%nat; SetTexture 3%nat; SetTexture 3%nat]).
  cbn. repeat split; repeat constructor.
Defined.

(** After any such run, setTexture makes a live texture an input of the
    window (once, already linked or not), and unsetTexture leaves no
    entry for it: the pair behaves as insertion in and removal from a
    set. *)
Theorem setTexture_links_unsetTexture_unlinks (cs : list Call) (tex : Texture) :
  possible noTexture cs ->
  expired (calls noTexture cs) tex = false ->
  entries tex (_inTextures (setTexture tex (calls noTexture cs))) = 1%nat
  /\ entries tex (_inTextures (unsetTexture tex (calls noTexture cs))) = 0%nat.
Proof.
  intros Hp He. pose proof (calls_NoDup cs noTexture Hp ltac:(constructor)) as Hnd.
  set (s := calls noTexture cs) in *.
  assert (Hcount : forall l, NoDup l -> In tex l -> entries tex l = 1%nat).
  { unfold entries. induction l as [|x l IH]; intros Hl Hin; [destruct Hin|].
    apply NoDup_cons in Hl as [Hx Hl]. cbn [List.filter].
    destruct (Nat.eqb_spec x tex) as [->|Hne].
    - cbn [List.length]. f_equal.
      assert (Hno : forall k, ~ In tex k -> List.length (List.filter (fun t => Nat.eqb t tex) k) = 0%nat).
      { induction k as [|y k IHk]; intros Hk; [reflexivity|]. cbn [List.filter].
        destruct (Nat.eqb_spec y tex) as [->|_]; [exfalso; apply Hk; left; reflexivity|].
        apply IHk. intros H. apply Hk. right. exact H. }
      apply Hno. intros H. apply Hx, In_elem_of, H.
    - apply IH; [exact Hl|]. destruct Hin as [->|Hin]; [contradiction|exact Hin]. }
  assert (Hzero : forall l, ~ In tex l -> entries tex l = 0%nat).
  { unfold entries. induction l as [|y k IHk]; intros Hk; [reflexivity|]. cbn [List.filter].
    destruct (Nat.eqb_spec y tex) as [->|_]; [exfalso; apply Hk; left; reflexivity|].
    apply IHk. intros H. apply Hk. right. exact H. }
  split.
  - apply Hcount; [apply setTexture_NoDup; assumption|].
    unfold setTexture. destruct (find_if (sameTexture s tex) (_inTextures s)) as [i|] eqn:Ef.
    + destruct (find_if_Some _ _ _ Ef) as (t & Ht & Hs).
      apply sameTexture_true in Hs as [_ ->].
      apply In_elem_of. eapply list_elem_of_lookup_2. exact Ht.
    + cbn [_inTextures]. apply in_or_app. right. left. reflexivity.
  - apply Hzero. unfold unsetTexture.
    destruct (find_if (sameTexture s tex) (_inTextures s)) as [i|] eqn:Ef.
    + destruct (find_if_Some _ _ _ Ef) as (t & Ht & Hs).
      apply sameTexture_true in Hs as [_ ->].
      cbn [_inTextures]. apply delete_not_in; assumption.
    + intros Hin. pose proof (find_if_None _ _ Ef tex Hin) as Hs.
      assert (sameTexture s tex tex = true) by (apply sameTexture_true; auto).
      congruence.
Qed.

Lemma setTexture_links_unsetTexture_unlinks_example :
  entries 2%nat (_inTextures (setTexture 2%nat
     (calls noTexture [LinkCamera [1%nat; 2%nat]; SetTexture 2%nat]))) = 1%nat
  /\ entries 2%nat (_inTextures (unsetTexture 2%nat
     (calls noTexture [LinkCamera [1%nat; 2%nat]; SetTexture 2%nat]))) = 0%nat.
Proof.
  apply (setTexture_links_unsetTexture_unlinks
           [LinkCamera [1%nat; 2%nat]; SetTexture 2%nat] 2%nat).
  - cbn. repeat split; repeat constructor.
  - reflexivity.
Defined.

Lemma setTexture_inSync (tex : Texture) (s : State) : inSync s -> inSync (setTexture tex s).
Proof.
  intros H t. unfold setTexture. destruct find_if; [apply H|].
  cbn [_inTextures _screen]. specialize (H t).
  unfold entries, removed, added, Texture in *. rewrite !List.filter_app, !length_app.
  cbn [List.filter List.length]. destruct (Nat.eqb tex t); cbn [List.length]; lia.
Qed.

Lemma unsetTexture_inSync (tex : Texture) (s : State) : inSync s -> inSync (unsetTexture tex s).
Proof.
  intros H t. unfold unsetTexture.
  destruct (find_if (sameTexture s tex) (_inTextures s)) as [i|] eqn:Ef; [|apply H].
  destruct (find_if_Some _ _ _ Ef) as (x & Hx & Hs).
  apply sameTexture_true in Hs as [_ ->].
  cbn [_inTextures _screen]. specialize (H t).
  rewrite (entries_delete t _ i tex Hx) in H.
  unfold entries, removed, added, Texture in *. rewrite !List.filter_app, !length_app.
  cbn [List.filter List.length]. destruct (Nat.eqb tex t); cbn [List.length]; lia.
Qed.

Lemma call_inSync (s : State) (c : Call) : inSync s -> inSync (call s c).
Proof.
  destruct c as [tex|tex|texs|texs|tex]; cbn [call].
  - apply setTexture_inSync.
  - apply unsetTexture_inSync.
  - unfold linkCamera. revert s. induction texs as [|tex texs IH]; intros s H; [exact H|].
    cbn [fold_left]. apply IH, setTexture_inSync, H.
  - unfold unlinkCamera. revert s. induction texs as [|tex texs IH]; intros s H; [exact H|].
    cbn [fold_left]. apply IH, unsetTexture_inSync, H.
  - intros H t. exact (H t).
Qed.

(** The screen object is told of every change of the window's inputs
    and of nothing else: after any run, for every texture, the number
    of addTexture calls the screen received equals the number of its
    removeTexture calls plus the number of entries the window holds for
    that texture, whether textures were destroyed in between or not. *)
Theorem screen_follows_window_textures (cs : list Call) (tex : Texture) :
  (entries tex (_inTextures (calls noTexture cs))
   + removed tex (_screen (calls noTexture cs)))%nat
  = added tex (_screen (calls noTexture cs)).
Proof.
  assert (H : forall s, inSync s -> inSync (calls s cs)).
  { induction cs as [|c cs IH]; intros s Hs; [exact Hs|].
    unfold calls. cbn [fold_left]. apply IH, call_inSync, Hs. }
  apply (H noTexture). intros t. reflexivity.
Qed.

End WindowTexturesProofs.

(** ** The GL context of a window *)

Section GlContextProofs.
Import GlContext GlContextSpec.

Lemma ops_app (t : Thread) (os1 os2 : list Op) :
  ops t (os1 ++ os2) = match ops t os1 with None => None | Some t' => ops t' os2 end.
Proof.
  revert t. induction os1 as [|o os1 IH]; intros t; [reflexivity|].
  cbn [ops app]. destruct (op t o); [apply IH | reflexivity].
Qed.

Lemma ptr_eqb_eq (a b : option GLFWwindow) : ptr_eqb a b = true <-> a = b.
Proof.
  destruct a as [x|], b as [y|]; cbn; split; try discriminate; try reflexivity.
  - intros H. apply Nat.eqb_eq in H. congruence.
  - intros H. inversion H. apply Nat.eqb_refl.
Qed.

Lemma ptr_eqb_refl (a : option GLFWwindow) : ptr_eqb a a = true.
Proof. apply ptr_eqb_eq. reflexivity. Qed.

Lemma ptr_eqb_sym (a b : option GLFWwindow) : ptr_eqb a b = ptr_eqb b a.
Proof.
  destruct a as [x|], b as [y|]; cbn; try reflexivity. apply Nat.eqb_sym.
Qed.

Lemma store_same (k : nat) (o : GlWindow) (objs : nat -> GlWindow) : store k o objs k = o.
Proof. unfold store. rewrite Nat.eqb_refl. reflexivity. Qed.

Lemma store_other (k j : nat) (o : GlWindow) (objs : nat -> GlWindow) :
  j <> k -> store k o objs j = objs j.
Proof. unfold store. intros H. apply Nat.eqb_neq in H. rewrite H. reflexivity. Qed.

(** Matching pairs from a thread [t]: the run returns, with the context
    and every mutex as before, every object outside the calls
    untouched, and the objects held around the run untouched too. *)
Lemma nested_restores (held : list nat) (os : list Op) :
  nested held os ->
  forall t,
    (forall o, In o os -> _mutex (objects t (objectOf o)) = false) ->
    exists t',
      ops t os = Some t'
      /\ currentContext t' = currentContext t
      /\ (forall j, _mutex (objects t' j) = _mutex (objects t j))
      /\ (forall j, _window (objects t' j) = _window (objects t j))
      /\ (forall j, In j held -> objects t' j = objects t j).
Proof.
  induction 1 as [held | held k body rest Hk Hbody IHbody Hrest IHrest]; intros t Hfree.
  - exists t. cbn. auto.
  - assert (Hmk : _mutex (objects t k) = false).
    { apply (Hfree (SetAsCurrentContext k)). left. reflexivity. }
    assert (Hset : exists t1,
               setAsCurrentContext k t = Some t1
               /\ (forall j, j <> k -> objects t1 j = objects t j)
               /\ _window (objects t1 k) = _window (objects t k)
               /\ _previousWindow (objects t1 k) = currentContext t
               /\ currentContext t1 = _window (objects t k)
               /\ _mutex (objects t1 k) = negb (ptr_eqb (currentContext t) (_window (objects t k)))).
    { unfold setAsCurrentContext.
      destruct (ptr_eqb (currentContext t) (_window (objects t k))) eqn:Ec.
      - eexists. split; [reflexivity|]. cbn [objects currentContext].
        rewrite store_same. cbn. repeat split; auto.
        + intros j Hj. apply store_other, Hj.
        + apply ptr_eqb_eq, Ec.
      - rewrite Hmk. eexists. split; [reflexivity|]. cbn [objects currentContext].
        rewrite store_same. cbn. repeat split; auto.
        intros j Hj. apply store_other, Hj. }
    destruct Hset as (t1 & Hs & Hoth1 & Hw1 & Hp1 & Hc1 & Hm1).
    destruct (IHbody t1) as (t2 & Hr2 & Hc2 & Hm2 & Hw2 & Hheld2).
    { intros o Ho. destruct (Nat.eq_dec (objectOf o) k) as [E|E].
      - exfalso. (* no call of the body is on k: the body holds k *)
        clear - Hbody Ho E.
        assert (Hgen : forall held os, nested held os ->
                   forall o, In o os -> ~ In (objectOf o) held).
        { clear. induction 1 as [|held k body rest Hk Hb IHb Hr IHr]; intros o Ho; [destruct Ho|].
          destruct Ho as [<-|Ho]; [exact Hk|].
          apply in_app_or in Ho as [Ho|[<-|Ho]].
          - intros Hin. apply (IHb o Ho). right. exact Hin.
          - exact Hk.
          - apply IHr, Ho. }
        apply (Hgen _ _ Hbody o Ho). left. symmetry. exact E.
      - rewrite Hoth1 by exact E. apply Hfree. right. apply in_or_app. left. exact Ho. }
    assert (Hk2 : objects t2 k = objects t1 k) by (apply Hheld2; left; reflexivity).
    assert (Hrel : exists t3,
               releaseContext k t2 = Some t3
               /\ currentContext t3 = currentContext t
               /\ (forall j, j <> k -> objects t3 j = objects t2 j)
               /\ _mutex (objects t3 k) = false
               /\ _window (objects t3 k) = _window (objects t k)).
    { unfold releaseContext. rewrite Hk2, Hp1, Hw1, Hm1, Hc2, Hc1.
      rewrite (ptr_eqb_sym (_window (objects t k)) (currentContext t)).
      destruct (ptr_eqb (currentContext t) (_window (objects t k))) eqn:Ec.
      - eexists. split; [reflexivity|]. cbn [objects currentContext].
        rewrite store_same. cbn. repeat split; auto.
        all: try (symmetry; apply ptr_eqb_eq, Ec).
        all: try (intros j Hj; apply store_other, Hj).
      - rewrite ptr_eqb_refl. cbn [negb].
        destruct (currentContext t) as [c|] eqn:Ecur;
          (eexists; split; [reflexivity|]); cbn [objects currentContext];
          rewrite store_same; cbn; repeat split; auto;
          intros j Hj; apply store_other, Hj. }
    destruct Hrel as (t3 & Hr3 & Hc3 & Hoth3 & Hm3 & Hw3).
    destruct (IHrest t3) as (t4 & Hr4 & Hc4 & Hm4 & Hw4 & Hheld4).
    { intros o Ho. destruct (Nat.eq_dec (objectOf o) k) as [->|E]; [exact Hm3|].
      rewrite Hoth3 by exact E. rewrite Hm2, Hoth1 by exact E.
      apply Hfree. right. apply in_or_app. right. right. exact Ho. }
    exists t4. cbn [ops op]. rewrite Hs, ops_app, Hr2. cbn [ops op]. rewrite Hr3.
    split; [exact Hr4|]. split; [congruence|].
    assert (Hkheld : forall j, In j held -> j <> k) by (intros j Hj ->; contradiction).
    repeat split.
    + intros j. rewrite Hm4. destruct (Nat.eq_dec j k) as [->|E]; [congruence|].
      rewrite Hoth3, Hm2, Hoth1 by exact E. reflexivity.
    + intros j. rewrite Hw4. destruct (Nat.eq_dec j k) as [->|E]; [exact Hw3|].
      rewrite Hoth3, Hw2, Hoth1 by exact E. reflexivity.
    + intros j Hj. rewrite (Hheld4 j Hj), (Hoth3 j (Hkheld j Hj)).
      rewrite (Hheld2 j (or_intror Hj)). apply Hoth1, Hkheld, Hj.
Qed.

(** Calls to setAsCurrentContext and releaseContext made in matching
    pairs, a pair inside another one being on another GlWindow object,
    with the mutexes of the objects free at the start: every call
    returns, and after the run the thread's current context is the one
    it had before and every mutex is as before. *)
Theorem setAsCurrentContext_releaseContext_nested (os : list Op) (t : Thread) :
  nested [] os ->
  (forall o, In o os -> _mutex (objects t (objectOf o)) = false) ->
  exists t',
    ops t os = Some t'
    /\ currentContext t' = currentContext t
    /\ (forall j, _mutex (objects t' j) = _mutex (objects t j)).
Proof.
  intros Hn Hfree.
  destruct (nested_restores [] os Hn t Hfree) as (t' & Hr & Hc & Hm & _).
  exists t'. auto.
Qed.

Lemma setAsCurrentContext_releaseContext_two_windows :
  exists t',
    ops (mkThread (Some 7%nat) (fun j => mkGlWindow false None (Some j)))
        [SetAsCurrentContext 0; SetAsCurrentContext 1; ReleaseContext 1;
         ReleaseContext 0; SetAsCurrentContext 1; ReleaseContext 1] = Some t'
    /\ currentContext t' = Some 7%nat
    /\ (forall j, _mutex (objects t' j) = false).
Proof.
  apply (setAsCurrentContext_releaseContext_nested
           [SetAsCurrentContext 0; SetAsCurrentContext 1; ReleaseContext 1;
            ReleaseContext 0; SetAsCurrentContext 1; ReleaseContext 1]
           (mkThread (Some 7%nat) (fun j => mkGlWindow false None (Some j)))).
  - apply (nested_pair [] 0%nat [SetAsCurrentContext 1; ReleaseContext 1]
                       [SetAsCurrentContext 1; ReleaseContext 1]).
    + intros H; exact H.
    + apply (nested_pair [0%nat] 1%nat [] []).
      * intros [H|H]; [discriminate H | exact H].
      * apply nested_nil.
      * apply nested_nil.
    + apply (nested_pair [] 1%nat [] []).
      * intros H; exact H.
      * apply nested_nil.
      * apply nested_nil.
  - intros o _. reflexivity.
Defined.

(** A pair on a GlWindow object inside a pair on the same object does
    not restore the context: when another window's context is current
    and the object's mutex is free, set, set, release, release all
    return and leave the thread with no current context. *)
Theorem setAsCurrentContext_twice_loses_context (t : Thread) (k : nat) (c0 : GLFWwindow) :
  currentContext t = Some c0 ->
  _window (objects t k) <> Some c0 ->
  _mutex (objects t k) = false ->
  exists t',
    ops t [SetAsCurrentContext k; SetAsCurrentContext k;
           ReleaseContext k; ReleaseContext k] = Some t'
    /\ currentContext t' = None.
Proof.
  intros Hc Hw Hm.
  assert (Hne : ptr_eqb (Some c0) (_window (objects t k)) = false).
  { destruct (ptr_eqb (Some c0) (_window (objects t k))) eqn:E; [|reflexivity].
    apply ptr_eqb_eq in E. congruence. }
  cbn [ops op]. unfold setAsCurrentContext at 1. rewrite Hc, Hne, Hm.
  unfold setAsCurrentContext. cbn [objects currentContext].
  rewrite store_same. cbn [_window _mutex _previousWindow].
  rewrite ptr_eqb_refl.
  unfold releaseContext at 1. cbn [objects currentContext].
  rewrite !store_same. cbn [_window _mutex _previousWindow].
  rewrite ptr_eqb_refl.
  unfold releaseContext. cbn [objects currentContext].
  rewrite !store_same. cbn [_window _mutex _previousWindow].
  destruct (_window (objects t k)) as [a|] eqn:Ew; cbn [ptr_eqb].
  - rewrite Nat.eqb_refl. eexists. split; reflexivity.
  - eexists. split; reflexivity.
Qed.

Lemma setAsCurrentContext_twice_loses_context_example :
  exists t',
    ops (mkThread (Some 7%nat) (fun j => mkGlWindow false None (Some j)))
        [SetAsCurrentContext 0; SetAsCurrentContext 0;
         ReleaseContext 0; ReleaseContext 0] = Some t'
    /\ currentContext t' = None.
Proof.
  apply (setAsCurrentContext_twice_loses_context
           (mkThread (Some 7%nat) (fun j => mkGlWindow false None (Some j))) 0%nat 7%nat).
  - reflexivity.
  - discriminate.
  - reflexivity.
Defined.

End GlContextProofs.

(** ** Attribute values *)

Section ValuesProofs.
Import Values ValuesSpec.

Lemma Value_induction (P : Value -> Prop) :
  (forall t i l f s, P (mkValue t i l f s None)) ->
  (forall t i l f s vs, Forall P vs -> P (mkValue t i l f s (Some vs))) ->
  forall v, P v.
Proof.
  intros Hnone Hsome.
  fix IH 1. intros [t i l f s [vs|]]; [|apply Hnone].
  apply Hsome. induction vs as [|x vs IHvs]; constructor; [apply IH | exact IHvs].
Qed.

Lemma copy_id (v : Value) : copy v = v.
Proof.
  induction v as [t i l f s | t i l f s vs Hvs] using Value_induction; [reflexivity|].
  cbn [copy _type _i _l _f _s _v]. do 2 f_equal.
  induction Hvs as [|x vs Hx _ IH]; [reflexivity|]. cbn [map]. rewrite Hx. f_equal. exact IH.
Qed.

Lemma map_copy_id (l : list Value) : map copy l = l.
Proof. induction l as [|x l IH]; [reflexivity|]. cbn [map]. rewrite copy_id, IH. reflexivity. Qed.

Lemma Type_eqb_refl (t : Type_) : Type_eqb t t = true.
Proof. destruct t; reflexivity. Qed.

Lemma Reqb_refl (r : R) : Glm.Reqb r r = true.
Proof. unfold Glm.Reqb. destruct (Req_dec_T r r); [reflexivity | contradiction]. Qed.

Lemma operator_eq_refl (v : Value) : wellFormed v -> operator_eq v v = Some true.
Proof.
  induction v as [t i l f s | t i l f s vs Hvs] using Value_induction; intros Hwf.
  - cbn. rewrite Type_eqb_refl. cbn.
    destruct t; try (f_equal; first [apply Z.eqb_refl | apply Reqb_refl | apply String.eqb_refl]).
    inversion Hwf as [? Hne | ? ? _ Hv _]; subst; [contradiction Hne; reflexivity | discriminate Hv].
  - cbn. rewrite Type_eqb_refl. cbn.
    destruct t; try (f_equal; first [apply Z.eqb_refl | apply Reqb_refl | apply String.eqb_refl]).
    rewrite Nat.eqb_refl. cbn [negb].
    assert (Hl : Forall wellFormed vs).
    { inversion Hwf as [? Hne | ? l' _ Hv Hl]; subst; [contradiction Hne; reflexivity|].
      cbn in Hv. inversion Hv; subst. exact Hl. }
    match goal with
    | |- ?F vs vs true = Some true => assert (Hloop : forall b, F vs vs b = Some b)
    end.
    { clear Hwf. induction Hvs as [|x vs Hx _ IH]; intros b; [reflexivity|].
      inversion Hl; subst. rewrite copy_id, (Hx ltac:(assumption)).
      rewrite andb_true_r. apply IH. assumption. }
    apply Hloop.
Qed.

(** Assigning to a value that has no deque of its own (as does the copy
    constructor) gives a value that compares equal to the one assigned,
    and the comparison reads no null deque. *)
Theorem assign_then_equal (this v : Value) :
  _v this = None ->
  wellFormed v ->
  operator_eq (assign this v) (copy v) = Some true.
Proof.
  intros Hnone Hwf. rewrite copy_id.
  assert (Ha : assign this v = v).
  { unfold assign. rewrite Hnone. destruct v as [t i l f s [vs|]]; cbn; [|reflexivity].
    rewrite map_copy_id. reflexivity. }
  rewrite Ha. apply operator_eq_refl, Hwf.
Qed.

Lemma assign_then_equal_nested :
  operator_eq (assign (Value_int 3) (Value_values [Value_int 1; Value_values [Value_string "a"]]))
              (copy (Value_values [Value_int 1; Value_values [Value_string "a"]])) = Some true.
Proof.
  apply (assign_then_equal (Value_int 3)
           (Value_values [Value_int 1; Value_values [Value_string "a"]])).
  - reflexivity.
  - eapply wellFormed_values; [reflexivity | reflexivity |].
    constructor; [apply wellFormed_scalar; discriminate|].
    constructor; [|constructor].
    eapply wellFormed_values; [reflexivity | reflexivity |].
    constructor; [apply wellFormed_scalar; discriminate | constructor].
Defined.

(** Assignment is no copy when the target already has a deque: after
    [a = b] between two values built from deques of different sizes,
    [a] still holds its old deque and [a == b] is false. *)
Theorem assign_keeps_old_values (mine theirs : Values) :
  List.length mine <> List.length theirs ->
  asValues (assign (Value_values mine) (Value_values theirs)) = Some mine
  /\ operator_eq (assign (Value_values mine) (Value_values theirs))
                 (copy (Value_values theirs)) = Some false.
Proof.
  intros Hlen. rewrite copy_id. unfold assign, Value_values, asValues.
  cbn [_v _type _i _l _f _s]. rewrite !map_copy_id. split; [reflexivity|].
  cbn. apply Nat.eqb_neq in Hlen. rewrite Hlen. reflexivity.
Qed.

Lemma assign_keeps_old_values_example :
  asValues (assign (Value_values [Value_int 1; Value_int 2]) (Value_values [Value_int 3]))
  = Some [Value_int 1; Value_int 2]
  /\ operator_eq (assign (Value_values [Value_int 1; Value_int 2]) (Value_values [Value_int 3]))
                 (copy (Value_values [Value_int 3])) = Some false.
Proof.
  apply (assign_keeps_old_values [Value_int 1; Value_int 2] [Value_int 3]).
  cbn. lia.
Defined.

End ValuesProofs.

(** ** The resizing of a window's inputs *)

Section WindowResizeProofs.
Import Values WindowResize WindowResizeSpec.

Lemma innerLoop_forallb (_layout : Values) (ints : list Z) (value : Z) :
  layoutInts _layout ints ->
  forall count j resize,
    (j + count = List.length ints)%nat ->
    innerLoop _layout value j count resize
    = Some (resize && forallb (Z.eqb value) (drop j ints)).
Proof.
  intros Hl. induction count as [|count IH]; intros j resize Hj.
  - cbn [innerLoop]. rewrite drop_ge by lia. cbn. rewrite andb_true_r. reflexivity.
  - destruct (lookup_lt_is_Some_2 ints j ltac:(lia)) as [x Hx].
    destruct (Hl j x Hx) as (v & Hv & Ha).
    cbn [innerLoop]. rewrite Hv, Ha, IH by lia.
    rewrite (drop_S ints x j Hx). cbn [forallb]. f_equal.
    rewrite (Z.eqb_sym value x).
    destruct (x =? value), resize; reflexivity.
Qed.

Lemma outerLoop_pairwise (_layout : Values) (ints : list Z) :
  layoutInts _layout ints ->
  forall count i resize,
    (i + count = List.length ints)%nat ->
    outerLoop _layout (List.length ints) i count resize
    = Some (resize && pairwise (drop i ints)).
Proof.
  intros Hl. induction count as [|count IH]; intros i resize Hi.
  - cbn [outerLoop]. rewrite drop_ge by lia. cbn. rewrite andb_true_r. reflexivity.
  - destruct (lookup_lt_is_Some_2 ints i ltac:(lia)) as [x Hx].
    destruct (Hl i x Hx) as (v & Hv & Ha).
    cbn [outerLoop]. rewrite Hv, Ha.
    rewrite (innerLoop_forallb _layout ints x Hl) by lia.
    rewrite IH by lia. rewrite (drop_S ints x i Hx). cbn [pairwise].
    f_equal. rewrite andb_assoc. reflexivity.
Qed.

Lemma pairwise_uniform (ints : list Z) : pairwise ints = uniform ints.
Proof.
  destruct ints as [|x rest]; [reflexivity|]. cbn [pairwise uniform].
  destruct (forallb (Z.eqb x) rest) eqn:E; [|reflexivity]. cbn [andb].
  assert (H : forall l, forallb (Z.eqb x) l = true -> pairwise l = true).
  { induction l as [|y l IH]; [reflexivity|]. cbn [forallb pairwise].
    intros Hy. apply andb_true_iff in Hy as [Hy Hl]. apply Z.eqb_eq in Hy. subst y.
    rewrite Hl, (IH Hl). reflexivity. }
  apply H, E.
Qed.

(** render resizes the input textures of the window exactly when the
    layout values of its inputs (the first [_inTextures.size()] values
    of [_layout], as ints) are all the same; in particular it always
    does with no input or a single one. *)
Theorem render_resizes_iff_uniform_layout (_layout : Values) (ints : list Z) :
  layoutInts _layout ints ->
  resizes (List.length ints) _layout = Some (uniform ints).
Proof.
  intros Hl. unfold resizes.
  rewrite (outerLoop_pairwise _layout ints Hl) by lia.
  rewrite drop_0. cbn [andb]. rewrite pairwise_uniform. reflexivity.
Qed.

Lemma render_resizes_iff_uniform_layout_example :
  resizes 3 [Value_int 0; Value_string "0"; Value_long 1; Value_int 7] = Some false.
Proof.
  apply (render_resizes_iff_uniform_layout
           [Value_int 0; Value_string "0"; Value_long 1; Value_int 7] [0; 0; 1]).
  intros i x Hi.
  destruct i as [|[|[|i]]]; cbn in Hi; inversion Hi; subst; eexists; split; reflexivity.
Defined.

Lemma outerLoop_short (_layout : Values) (size : nat) :
  (List.length _layout < size)%nat ->
  forall count i resize,
    (i + count = size)%nat -> (i <= List.length _layout)%nat ->
    outerLoop _layout size i count resize = None.
Proof.
  intros Hlen. induction count as [|count IH]; intros i resize Hi Hle; [lia|].
  cbn [outerLoop]. destruct (_layout !! i) as [vi|] eqn:Ev; [|reflexivity].
  destruct (asInt vi); [|reflexivity].
  destruct (innerLoop _layout z (S i) (size - S i) resize); [|reflexivity].
  apply IH; [lia|]. apply lookup_lt_Some in Ev. lia.
Qed.

(** With more input textures than layout values render reads
    [_layout] out of range. *)
Theorem render_layout_too_short (size : nat) (_layout : Values) :
  (List.length _layout < size)%nat -> resizes size _layout = None.
Proof.
  intros Hlen. apply (outerLoop_short _layout size Hlen); lia.
Qed.

Lemma render_layout_too_short_example :
  resizes 2 [Value_int 0] = None.
Proof.
  apply (render_layout_too_short 2 [Value_int 0]). cbn. lia.
Defined.

End WindowResizeProofs.

(** ** Setting, picking and restoring calibration points *)

Section CameraEditProofs.
Import Glm Camera CameraSpec CameraEdit.
Local Open Scope R_scope.

Lemma to_size_t_small (v : Z) : (0 <= v < 2 ^ 64)%Z -> to_size_t v = v.
Proof. intros Hv. unfold to_size_t. apply Z.mod_small. exact Hv. Qed.

(** What addCalibrationPoint leaves: the index it selects holds a
    point with the world coordinates given. *)
Lemma addCalibrationPoint_selects {O : Type} `{Renderable O}
    (cam cam1 : Camera O) (wx wy wz : R) (rest : list R) (ret : bool) :
  addCalibrationPoint (wx :: wy :: wz :: rest) cam = Some (ret, cam1) ->
  exists (i : nat) (p : CalibrationPoint),
    _selectedCalibrationPoint cam1 = Z.of_nat i
    /\ _calibrationPoints cam1 !! i = Some p
    /\ world p = mkVec3 wx wy wz
    /\ (List.length (_calibrationPoints cam1) <= S (List.length (_calibrationPoints cam)))%nat.
Proof.
  unfold addCalibrationPoint. cbn [List.length Nat.ltb Nat.leb nth].
  destruct (findWorld (_calibrationPoints cam) (mkVec3 wx wy wz) 0) as [j|] eqn:Hf.
  - intros [= _ <-]. destruct (findWorld_Some _ _ _ _ Hf) as (i & -> & Hi).
    cbn [Nat.add] in *. rewrite list_lookup_fmap in Hi.
    destruct (_calibrationPoints cam !! i) as [p|] eqn:Hp; [|discriminate].
    cbn in Hi. injection Hi as Hw. exists i, p.
    cbn [set_selected _selectedCalibrationPoint _calibrationPoints]. auto.
  - destruct (forEachObject _ _) as [objs|]; [|discriminate]. intros [= _ <-].
    exists (List.length (_calibrationPoints cam)), (CalibrationPoint_of_world (mkVec3 wx wy wz)).
    cbn [set_points _selectedCalibrationPoint _calibrationPoints].
    rewrite length_app. cbn [List.length]. split; [lia|]. split.
    + rewrite lookup_app_r by lia. rewrite Nat.sub_diag. reflexivity.
    + split; [reflexivity | lia].
Qed.

(** Adding a calibration point and then setting its screen position:
    both calls succeed, and the camera then has, at the selected index,
    the point with these world coordinates, this screen position and
    isSet = true; no other point has changed and the calibration is
    marked as not done. *)
Theorem addCalibrationPoint_then_setCalibrationPoint {O : Type} `{Renderable O}
    (cam cam1 : Camera O) (wx wy wz sx sy : R) (ret : bool) :
  (Z.of_nat (List.length (_calibrationPoints cam)) < INT_MAX)%Z ->
  addCalibrationPoint [wx; wy; wz] cam = Some (ret, cam1) ->
  exists (i : nat) (cam2 : Camera O),
    setCalibrationPoint [sx; sy] cam1 = Some (true, cam2)
    /\ _selectedCalibrationPoint cam2 = Z.of_nat i
    /\ _calibrationPoints cam2 !! i = Some (mkPoint (mkVec3 wx wy wz) (mkVec2 sx sy) true)
    /\ (forall j, j <> i -> _calibrationPoints cam2 !! j = _calibrationPoints cam1 !! j)
    /\ _calibrationCalledOnce cam2 = false.
Proof.
  intros Hlen Hadd.
  destruct (addCalibrationPoint_selects _ _ _ _ _ _ _ Hadd) as (i & p & Hsel & Hp & Hw & Hle).
  pose proof (lookup_lt_Some _ _ _ Hp) as Hi. unfold INT_MAX in Hlen.
  exists i. unfold setCalibrationPoint. rewrite Hsel.
  destruct (Z.eqb_spec (Z.of_nat i) (-1)) as [Hneg|_]; [lia|].
  rewrite to_size_t_small by lia. rewrite Nat2Z.id, Hp. cbn [lookup list_lookup].
  eexists. split; [reflexivity|].
  cbn [set_points _selectedCalibrationPoint _calibrationPoints _calibrationCalledOnce].
  split; [reflexivity|]. split.
  - rewrite list_lookup_insert_eq by exact Hi. rewrite Hw. reflexivity.
  - split; [|reflexivity]. intros j Hj. apply list_lookup_insert_ne. auto.
Qed.

Lemma addCalibrationPoint_then_setCalibrationPoint_first :
  exists (i : nat) (cam2 : Camera unit),
    setCalibrationPoint [10; 20]
      (set_points (cameraAt (mkVec3 0 0 5) (mkVec3 0 0 0) (mkVec3 0 1 0))
                  [CalibrationPoint_of_world (mkVec3 1 2 3)] 0%Z false [])
    = Some (true, cam2)
    /\ _selectedCalibrationPoint cam2 = Z.of_nat i
    /\ _calibrationPoints cam2 !! i = Some (mkPoint (mkVec3 1 2 3) (mkVec2 10 20) true)
    /\ (forall j, j <> i ->
          _calibrationPoints cam2 !! j
          = _calibrationPoints
              (set_points (cameraAt (mkVec3 0 0 5) (mkVec3 0 0 0) (mkVec3 0 1 0))
                          [CalibrationPoint_of_world (mkVec3 1 2 3)] 0%Z false []) !! j)
    /\ _calibrationCalledOnce cam2 = false.
Proof.
  apply (addCalibrationPoint_then_setCalibrationPoint
           (cameraAt (mkVec3 0 0 5) (mkVec3 0 0 0) (mkVec3 0 1 0)) _ 1 2 3 10 20 true).
  - cbn. unfold INT_MAX. lia.
  - reflexivity.
Defined.

(** The loop of removeCalibrationPoint on a list whose only point with
    the world coordinates [w] is the last one, which is not set. *)
Lemma removeWorldLoop_last {O : Type} `{Renderable O}
    (w : dvec3) (s : dvec2) (unlessSet : bool) (pts : list CalibrationPoint)
    (objs : list (option O)) :
  ~ In w (map world pts) ->
  Forall (fun o => o <> None) objs ->
  forall k i n sel,
    (i + k = List.length pts)%nat -> (k < n)%nat ->
    removeWorldLoop n i w unlessSet (pts ++ [mkPoint w s false]) sel objs
    = Some (pts, (-1)%Z, map (option_map (Object_removeCalibrationPoint w)) objs).
Proof.
  intros Hw Halive. induction k as [|k IH]; intros i n sel Hi Hn.
  - destruct n as [|n]; [lia|]. cbn [removeWorldLoop].
    rewrite lookup_app_r by lia. replace (i - List.length pts)%nat with 0%nat by lia.
    cbn [lookup list_lookup world isSet andb]. rewrite vec3_eqb_refl.
    rewrite (forEachObject_alive _ _ Halive).
    assert (Hdel : delete i (pts ++ [mkPoint w s false]) = pts).
    { replace i with (List.length pts) by lia. clear.
      induction pts as [|q pts IHpts]; [reflexivity|].
      cbn [List.length app].
      change (delete (S (List.length pts)) (q :: pts ++ [mkPoint w s false]))
        with (q :: delete (List.length pts) (pts ++ [mkPoint w s false])).
      rewrite IHpts. reflexivity. }
    rewrite Hdel. destruct n as [|n]; [reflexivity|]. cbn [removeWorldLoop].
    rewrite lookup_ge_None_2 by lia. reflexivity.
  - destruct n as [|n]; [lia|]. cbn [removeWorldLoop].
    destruct (lookup_lt_is_Some_2 pts i ltac:(lia)) as [p Hp].
    rewrite lookup_app_l by lia. rewrite Hp.
    assert (Hne : vec3_eqb (world p) w = false).
    { apply vec3_eqb_false_iff. intros E. apply Hw. rewrite <- E.
      apply in_map. apply list_elem_of_In. eapply list_elem_of_lookup_2. exact Hp. }
    rewrite Hne. apply IH; lia.
Qed.

(** Adding a calibration point with fresh world coordinates and then
    removing it by these coordinates: both calls succeed, the list of
    calibration points is the one before the two calls, whatever
    unlessSet is, and nothing is selected. *)
Theorem addCalibrationPoint_then_removeCalibrationPoint {O : Type} `{Renderable O}
    (cam : Camera O) (wx wy wz : R) (unlessSet : bool) :
  allObjectsAlive cam ->
  ~ In (mkVec3 wx wy wz) (worlds cam) ->
  exists cam1 cam2 : Camera O,
    addCalibrationPoint [wx; wy; wz] cam = Some (true, cam1)
    /\ removeCalibrationPoint [wx; wy; wz] unlessSet cam1 = Some cam2
    /\ _calibrationPoints cam2 = _calibrationPoints cam
    /\ _selectedCalibrationPoint cam2 = (-1)%Z.
Proof.
  intros Halive Hfresh. unfold addCalibrationPoint. cbn [List.length Nat.ltb Nat.leb nth].
  rewrite (proj2 (findWorld_None _ _ 0) Hfresh).
  rewrite (forEachObject_alive _ _ Halive).
  eexists. eexists. split; [reflexivity|].
  unfold removeCalibrationPoint. cbn [List.length Nat.eqb nth].
  cbn [set_points _calibrationPoints _selectedCalibrationPoint _objects].
  unfold CalibrationPoint_of_world.
  assert (Halive' : Forall (fun o => o <> None)
                      (map (option_map (Object_addCalibrationPoint (mkVec3 wx wy wz)))
                           (_objects cam))).
  { unfold allObjectsAlive in Halive. induction Halive as [|o objs Ho _ IHo]; [constructor|].
    cbn [map]. constructor; [|exact IHo]. destruct o; [discriminate | contradiction]. }
  rewrite (removeWorldLoop_last (mkVec3 wx wy wz) (mkVec2 0 0) unlessSet
             (_calibrationPoints cam) _ Hfresh Halive'
             (List.length (_calibrationPoints cam)) 0); [| lia | rewrite length_app; cbn; lia].
  split; [reflexivity|]. split; reflexivity.
Qed.

Lemma addCalibrationPoint_then_removeCalibrationPoint_example :
  exists cam1 cam2 : Camera Recorder,
    addCalibrationPoint [4; 5; 6] cameraOnePoint = Some (true, cam1)
    /\ removeCalibrationPoint [4; 5; 6] true cam1 = Some cam2
    /\ _calibrationPoints cam2 = _calibrationPoints cameraOnePoint
    /\ _selectedCalibrationPoint cam2 = (-1)%Z.
Proof.
  apply (addCalibrationPoint_then_removeCalibrationPoint cameraOnePoint 4 5 6 true).
  - repeat constructor; discriminate.
  - cbn. intros [E|[]]. injection E as E1 _ _. lra.
Defined.




(** The world point that pickCalibrationPoint returns for normalized
    coordinates is the one of the calibration point that
    removeCalibrationPoint erases for the same place in pixels
    (x * width, y * height). *)
Theorem pickCalibrationPoint_is_the_point_removed {O : Type} `{Renderable O}
    (cam : Camera O) (x y wx wy wz : R) (unlessSet : bool) :
  allObjectsAlive cam ->
  pickCalibrationPoint x y cam = Some [wx; wy; wz] ->
  exists (i : nat) (p : CalibrationPoint),
    _calibrationPoints cam !! i = Some p
    /\ world p = mkVec3 wx wy wz
    /\ removeCalibrationPoint [x * _width cam; y * _height cam] unlessSet cam
       = Some (set_points cam (delete i (_calibrationPoints cam))
                 (_selectedCalibrationPoint cam) false
                 (map (option_map (Object_removeCalibrationPoint (world p)))
                      (_objects cam))).
Proof.
  intros Halive. unfold pickCalibrationPoint, removeCalibrationPoint.
  cbn [List.length Nat.eqb nth].
  destruct (nearestLoop _ _ _ _ _ 0 DBL_MAX (-1)%Z) as [minDist index].
  destruct (negb (index =? -1)%Z); [|discriminate].
  destruct (_calibrationPoints cam !! Z.to_nat index) as [p|] eqn:Hp; [|discriminate].
  intros [= <- <- <-]. exists (Z.to_nat index), p.
  split; [exact Hp|]. split; [destruct (world p); reflexivity|].
  rewrite (forEachObject_alive _ _ Halive). reflexivity.
Qed.

Lemma pickCalibrationPoint_cameraOneSetPoint :
  pickCalibrationPoint 0.5 0.5 cameraOneSetPoint = Some [0; 0; -2].
Proof.
  unfold pickCalibrationPoint.
  cbn [cameraOneSetPoint _eye _target _up _fov _cx _cy _width _height
       _calibrationPoints nearestLoop world].
  rewrite lookAt_down_z.
  change (computeProjectionMatrix _ 90 0.5 0.5)
    with (computeProjectionMatrix cameraOneSetPoint 90 0.5 0.5).
  rewrite computeProjectionMatrix_example, project_example. cbn [x3 y3].
  replace (length (sub3 (mkVec3 1 1 0) (mkVec3 (0.5 * 2) (0.5 * 2) 0))) with 0.
  - rewrite (proj2 (Rltb_true_iff 0 DBL_MAX) DBL_MAX_pos). reflexivity.
  - symmetry. unfold length, dot, sub3. cbn [x3 y3 z3]. apply sqrt_of_0. lra.
Qed.

Lemma pickCalibrationPoint_is_the_point_removed_example :
  exists (i : nat) (p : CalibrationPoint),
    _calibrationPoints cameraOneSetPoint !! i = Some p
    /\ world p = mkVec3 0 0 (-2)
    /\ removeCalibrationPoint [0.5 * _width cameraOneSetPoint; 0.5 * _height cameraOneSetPoint]
         true cameraOneSetPoint
       = Some (set_points cameraOneSetPoint (delete i (_calibrationPoints cameraOneSetPoint))
                 (_selectedCalibrationPoint cameraOneSetPoint) false
                 (map (option_map (Object_removeCalibrationPoint (world p)))
                      (_objects cameraOneSetPoint))).
Proof.
  apply (pickCalibrationPoint_is_the_point_removed cameraOneSetPoint 0.5 0.5 0 0 (-2) true).
  - constructor.
  - exact pickCalibrationPoint_cameraOneSetPoint.
Defined.

Lemma readCalibrationPoints_get {O : Type} (stof : string -> option R)
    (source : list CalibrationPoint) (cam0 : Camera O) (pts : list CalibrationPoint) :
  readCalibrationPoints stof
    (attribute_calibrationPoints_get
       (set_points cam0 source (_selectedCalibrationPoint cam0)
                   (_calibrationCalledOnce cam0) (_objects cam0))) pts
  = Some (pts ++ source).
Proof.
  unfold attribute_calibrationPoints_get. cbn [set_points _calibrationPoints].
  revert pts. induction source as [|p source IH]; intros pts.
  - cbn. rewrite app_nil_r. reflexivity.
  - cbn [map readCalibrationPoints Values._type Values.Value_values].
    cbn [Values.asValues Values._type Values._v Values.Value_values map Values.copy
         Values.Value_float Values.Value_int
         Values._i Values._l Values._f Values._s lookup list_lookup Values.asInt asFloat].
    rewrite IH. rewrite <- app_assoc. cbn [app]. do 3 f_equal.
    destruct p as [[wx wy wz] [px py] set]. cbn. destruct set; reflexivity.
Qed.

(** The setter of the attribute calibrationPoints, given what the
    getter returns for a camera: it succeeds and appends that camera's
    calibration points, with their world and screen coordinates and
    isSet, to the ones the camera already has, and sends all of them
    to every linked object.  It does not look for points the camera
    already has: restoring a camera's own points doubles the list. *)
Theorem attribute_calibrationPoints_appends {O O' : Type} `{Renderable O}
    (stof : string -> option R) (cam : Camera O) (source : Camera O') :
  allObjectsAlive cam ->
  attribute_calibrationPoints_set stof (attribute_calibrationPoints_get source) cam
  = Some (true,
          set_points cam (_calibrationPoints cam ++ _calibrationPoints source)
            (_selectedCalibrationPoint cam) (_calibrationCalledOnce cam)
            (map (option_map
                    (fun object =>
                       fold_left (fun o point => Object_addCalibrationPoint (world point) o)
                                 (_calibrationPoints cam ++ _calibrationPoints source) object))
                 (_objects cam))).
Proof.
  intros Halive. unfold attribute_calibrationPoints_set.
  pose proof (readCalibrationPoints_get stof (_calibrationPoints source) source
                (_calibrationPoints cam)) as Hr.
  unfold attribute_calibrationPoints_get in *. cbn [set_points _calibrationPoints] in Hr.
  rewrite Hr. unfold sendCalibrationPointsToObjects.
  rewrite (forEachObject_alive _ _ Halive). reflexivity.
Qed.

Lemma attribute_calibrationPoints_appends_own :
  attribute_calibrationPoints_set (fun _ => None)
    (attribute_calibrationPoints_get cameraOnePoint) cameraOnePoint
  = Some (true,
          set_points cameraOnePoint
            (_calibrationPoints cameraOnePoint ++ _calibrationPoints cameraOnePoint)
            (_selectedCalibrationPoint cameraOnePoint) (_calibrationCalledOnce cameraOnePoint)
            (map (option_map
                    (fun object =>
                       fold_left (fun o point => Object_addCalibrationPoint (world point) o)
                                 (_calibrationPoints cameraOnePoint
                                  ++ _calibrationPoints cameraOnePoint) object))
                 (_objects cameraOnePoint))).
Proof.
  apply (attribute_calibrationPoints_appends (fun _ => None) cameraOnePoint cameraOnePoint).
  repeat constructor; discriminate.
Defined.

Lemma filter_delete_world (w : dvec3) (pts : list CalibrationPoint) (i : nat)
    (p : CalibrationPoint) :
  pts !! i = Some p -> vec3_eqb (world p) w = true ->
  List.filter (fun q => negb (vec3_eqb (world q) w)) (delete i pts)
  = List.filter (fun q => negb (vec3_eqb (world q) w)) pts.
Proof.
  revert i. induction pts as [|q pts IH]; intros i Hi Hp; [discriminate|].
  destruct i as [|i]; cbn in Hi.
  - injection Hi as ->. cbn [delete list_delete List.filter]. rewrite Hp. reflexivity.
  - change (delete (S i) (q :: pts)) with (q :: delete i pts).
    cbn [List.filter]. rewrite (IH i Hi Hp). reflexivity.
Qed.

Lemma removeWorldLoop_keeps_others {O : Type} `{Renderable O} (n i : nat) (w : dvec3)
    (unlessSet : bool)
    (pts pts' : list CalibrationPoint) (sel sel' : Z) (objs objs' : list (option O)) :
  removeWorldLoop n i w unlessSet pts sel objs = Some (pts', sel', objs') ->
  List.filter (fun q => negb (vec3_eqb (world q) w)) pts'
  = List.filter (fun q => negb (vec3_eqb (world q) w)) pts.
Proof.
  revert i pts sel objs. induction n as [|n IH]; intros i pts sel objs Hr.
  - injection Hr as <- _ _. reflexivity.
  - cbn [removeWorldLoop] in Hr. destruct (pts !! i) as [p|] eqn:Hp.
    + destruct (vec3_eqb (world p) w) eqn:Ew; [|eauto].
      destruct (isSet p && unlessSet); [eauto|].
      destruct (forEachObject _ objs) as [objs1|]; [|discriminate].
      rewrite (IH _ _ _ _ Hr). eapply filter_delete_world; eauto.
    + injection Hr as <- _ _. reflexivity.
Qed.

(** Through the attribute removeCalibrationPoint a point can only be
    removed by its world coordinates, never by a screen point: with
    fewer than two arguments the handler fails and changes nothing;
    with exactly two (a screen point) it reads its third and fourth
    arguments out of range; and whenever it succeeds, every
    calibration point whose world coordinates differ from the first
    three arguments is still there, in the same order. *)
Theorem attribute_removeCalibrationPoint_by_world_only {O : Type} `{Renderable O}
    (stof : string -> option R) (unlessSetDefault : bool) (args : Values.Values)
    (cam : Camera O) :
  ((List.length args < 2)%nat ->
     attribute_removeCalibrationPoint stof unlessSetDefault args cam = Some (false, cam))
  /\ (List.length args = 2%nat ->
        attribute_removeCalibrationPoint stof unlessSetDefault args cam = None)
  /\ (forall cam',
        attribute_removeCalibrationPoint stof unlessSetDefault args cam = Some (true, cam') ->
        exists a0 a1 a2 rest,
          args = a0 :: a1 :: a2 :: rest
          /\ List.filter
               (fun q => negb (vec3_eqb (world q)
                                 (mkVec3 (asFloat stof a0) (asFloat stof a1) (asFloat stof a2))))
               (_calibrationPoints cam')
             = List.filter
                 (fun q => negb (vec3_eqb (world q)
                                   (mkVec3 (asFloat stof a0) (asFloat stof a1) (asFloat stof a2))))
                 (_calibrationPoints cam)).
Proof.
  assert (Hworld : forall a0 a1 a2 u cam',
            removeCalibrationPoint [asFloat stof a0; asFloat stof a1; asFloat stof a2] u cam
            = Some cam' ->
            List.filter
              (fun q => negb (vec3_eqb (world q)
                                (mkVec3 (asFloat stof a0) (asFloat stof a1) (asFloat stof a2))))
              (_calibrationPoints cam')
            = List.filter
                (fun q => negb (vec3_eqb (world q)
                                  (mkVec3 (asFloat stof a0) (asFloat stof a1) (asFloat stof a2))))
                (_calibrationPoints cam)).
  { intros a0 a1 a2 u cam'. unfold removeCalibrationPoint. cbn [List.length Nat.eqb nth].
    destruct (removeWorldLoop _ 0 _ u _ _ _) as [[[pts sel] objs]|] eqn:Hr; [|discriminate].
    intros [= <-]. cbn [set_points _calibrationPoints].
    eapply removeWorldLoop_keeps_others; eauto. }
  unfold attribute_removeCalibrationPoint.
  destruct args as [|a0 [|a1 [|a2 [|a3 rest]]]]; cbn [List.length Nat.ltb Nat.leb Nat.eqb].
  - split; [reflexivity|]. split; [discriminate|]. intros cam' [=].
  - split; [reflexivity|]. split; [discriminate|]. intros cam' [=].
  - split; [lia|]. split; [reflexivity|]. intros cam' [=].
  - split; [lia|]. split; [discriminate|]. intros cam'. cbn [lookup list_lookup].
    destruct (removeCalibrationPoint _ unlessSetDefault cam) as [cam1|] eqn:Hr; [|discriminate].
    intros [= <-]. exists a0, a1, a2, []. split; [reflexivity|]. eapply Hworld; eauto.
  - split; [lia|]. split; [discriminate|]. intros cam'. cbn [lookup list_lookup].
    destruct (Values.asInt a3) as [u|]; [|discriminate].
    destruct (removeCalibrationPoint _ _ cam) as [cam1|] eqn:Hr; [|discriminate].
    intros [= <-]. exists a0, a1, a2, (a3 :: rest). split; [reflexivity|]. eapply Hworld; eauto.
Qed.

End CameraEditProofs.

(** ** The colour balance *)

Section ColorBalanceProofs.
Import ColorBalance.
Local Open Scope R_scope.

Lemma exp_162_lt_10 : exp 1.62 < 10.
Proof.
  replace 1.62 with (1 + 0.62) by lra. rewrite exp_plus.
  pose proof exp_le_3 as H3.
  assert (H062 : exp 0.62 < 2.7).
  { pose proof (exp_ineq1 (Ropp 0.62) ltac:(lra)) as Hi.
    rewrite exp_Ropp in Hi. pose proof (exp_pos 0.62) as Hp.
    assert (Hinv : / exp 0.62 * exp 0.62 = 1) by (field; lra).
    nra. }
  pose proof (exp_pos 1). pose proof (exp_pos 0.62). nra.
Qed.

Lemma ln_10_gt : 1.62 < ln 10.
Proof.
  rewrite <- (ln_exp 1.62). apply ln_increasing; [apply exp_pos | exact exp_162_lt_10].
Qed.

Lemma clamp255_bounds (c : R) : 0 <= clamp255 c <= 255.
Proof.
  unfold clamp255, Rmax, Rmin.
  destruct (Rle_dec c 255); destruct (Rle_dec 0 _); lra.
Qed.

Lemma clamp255_pos (c : R) : 0 < c -> 0 < clamp255 c.
Proof.
  unfold clamp255, Rmax, Rmin. intros Hc.
  destruct (Rle_dec c 255); destruct (Rle_dec 0 _); lra.
Qed.

Lemma colorTemperature_bounds (a : R) : 1000 <= colorTemperature a <= 15000.
Proof.
  unfold colorTemperature, Rmax, Rmin.
  destruct (Rle_dec 15000 a); destruct (Rle_dec 1000 _); lra.
Qed.

Lemma colorBalance_defined (temp : R) :
  1000 <= temp ->
  exists x y,
    colorBalanceFromTemperature temp = Some (x, y)
    /\ 0 < x /\ 0 <= y
    /\ (temp <= 6600 -> 1 <= x)
    /\ (6600 <= temp -> 1 <= y).
Proof.
  intros Ht. unfold colorBalanceFromTemperature.
  set (t := temp / 100). assert (Ht10 : 10 <= t) by (unfold t; lra).
  destruct (Rle_dec t 0) as [H0|_]; [lra|].
  set (r := if Rle_dec t 66 then 255 else _).
  set (g := if Rle_dec t 66 then _ else _).
  set (b := if Rle_dec 66 t then 255 else _).
  assert (Hg : 0 < g <= 255).
  { unfold g. destruct (Rle_dec t 66) as [Hle|Hgt].
    - split; [|apply clamp255_bounds]. apply clamp255_pos.
      assert (ln 10 <= ln t).
      { destruct (Req_dec_T t 10) as [->|Hne]; [lra|].
        left. apply ln_increasing; lra. }
      pose proof ln_10_gt. nra.
    - split; [|apply clamp255_bounds]. apply clamp255_pos.
      apply Rmult_lt_0_compat; [lra|]. unfold Rpower. apply exp_pos. }
  assert (Hr : 0 < r <= 255).
  { unfold r. destruct (Rle_dec t 66) as [Hle|Hgt]; [lra|].
    split; [|apply clamp255_bounds]. apply clamp255_pos.
    apply Rmult_lt_0_compat; [lra|]. unfold Rpower. apply exp_pos. }
  assert (Hb : 0 <= b <= 255).
  { unfold b. destruct (Rle_dec 66 t); [lra|]. destruct (Rle_dec t 19); [lra|].
    apply clamp255_bounds. }
  destruct (Req_dec_T g 0) as [Hz|_]; [lra|].
  exists (r / g), (b / g). split; [reflexivity|].
  assert (Hig : 0 < / g) by (apply Rinv_0_lt_compat; lra).
  split; [unfold Rdiv; apply Rmult_lt_0_compat; lra|].
  split; [unfold Rdiv; apply Rmult_le_pos; lra|].
  split.
  - intros Hlow. assert (Hr255 : r = 255).
    { unfold r. destruct (Rle_dec t 66); [reflexivity | unfold t in *; lra]. }
    rewrite Hr255. apply (Rmult_le_reg_r g); [lra|].
    replace (255 / g * g) with 255 by (field; lra). lra.
  - intros Hhigh. assert (Hb255 : b = 255).
    { unfold b. destruct (Rle_dec 66 t); [reflexivity | unfold t in *; lra]. }
    rewrite Hb255. apply (Rmult_le_reg_r g); [lra|].
    replace (255 / g * g) with 255 by (field; lra). lra.
Qed.

(** For every argument given to the attribute colorTemperature, the
    clamping of the setter to [1000, 15000] keeps the conversion to a
    colour balance away from its division by zero: the green component
    is positive, the balance is a pair of numbers, the red ratio is
    positive and the blue one not negative; the red ratio is at least 1
    up to 6600 K and the blue ratio at least 1 from 6600 K. *)
Theorem colorTemperature_balance_defined (a : R) :
  exists x y,
    colorBalanceFromTemperature (colorTemperature a) = Some (x, y)
    /\ 0 < x /\ 0 <= y
    /\ (colorTemperature a <= 6600 -> 1 <= x)
    /\ (6600 <= colorTemperature a -> 1 <= y).
Proof.
  apply colorBalance_defined. apply colorTemperature_bounds.
Qed.

End ColorBalanceProofs.

(** ** The copy of the pixels in chunks *)

Section ImageCopyProofs.
Import ImageCopy ImageCopySpec.
Context {B : Type}.

Lemma copy_lookup (src dst : list B) (imgSize : Z) (t : Task) :
  inImage imgSize t ->
  imgSize <= Z.of_nat (List.length src) ->
  imgSize <= Z.of_nat (List.length dst) ->
  exists dst',
    copy B src (first t) (last t) dst (d_first t) = Some dst'
    /\ List.length dst' = List.length dst
    /\ (forall k, covers t k -> dst' !! k = src !! k)
    /\ (forall k, ~ covers t k -> dst' !! k = dst !! k).
Proof.
  intros (Hf & Hl & Hd) Hsrc Hdst. unfold copy. rewrite Hd.
  replace ((0 <=? first t) && (first t <=? last t)
           && (last t <=? Z.of_nat (List.length src)) && (0 <=? first t)
           && (first t + (last t - first t) <=? Z.of_nat (List.length dst)))%bool
    with true
    by (symmetry; rewrite !andb_true_iff, !Z.leb_le; lia).
  eexists. split; [reflexivity|].
  replace (first t + (last t - first t)) with (last t) by lia.
  set (a := Z.to_nat (first t)). set (n := Z.to_nat (last t - first t)).
  assert (Hb : Z.to_nat (last t) = (a + n)%nat) by (unfold a, n; lia).
  rewrite Hb.
  assert (Hla : List.length (take a dst) = a) by (rewrite length_take; unfold a; lia).
  assert (Hln : List.length (take n (drop a src)) = n).
  { rewrite length_take, length_drop. unfold a, n. lia. }
  split.
  - rewrite !length_app, Hla, Hln, length_drop. unfold a, n. lia.
  - split.
    + intros k [Hk1 Hk2].
      rewrite lookup_app_r by (rewrite Hla; unfold a; lia).
      rewrite lookup_app_l by (rewrite Hln, Hla; unfold a, n; lia).
      rewrite lookup_take_lt by (rewrite Hla; unfold a, n; lia).
      rewrite lookup_drop, Hla. f_equal. unfold a. lia.
    + intros k Hk. unfold covers in Hk.
      destruct (Z_lt_le_dec (Z.of_nat k) (first t)) as [Hlt|Hge].
      * rewrite lookup_app_l by (rewrite Hla; unfold a; lia).
        apply lookup_take_lt. unfold a. lia.
      * rewrite lookup_app_r by (rewrite Hla; unfold a; lia).
        rewrite lookup_app_r by (rewrite Hln, Hla; unfold a, n; lia).
        rewrite lookup_drop, Hla, Hln. f_equal. unfold a, n. lia.
Qed.

Lemma runTasks_lookup (src : list B) (imgSize : Z) (order : list Task) :
  imgSize <= Z.of_nat (List.length src) ->
  Forall (inImage imgSize) order ->
  forall dst,
    imgSize <= Z.of_nat (List.length dst) ->
    exists dst',
      runTasks B src order dst = Some dst'
      /\ List.length dst' = List.length dst
      /\ (forall k, (exists t, In t order /\ covers t k) -> dst' !! k = src !! k)
      /\ (forall k, (forall t, In t order -> ~ covers t k) -> dst' !! k = dst !! k).
Proof.
  intros Hsrc. induction 1 as [|t order Ht _ IH]; intros dst Hdst.
  - exists dst. cbn. split; [reflexivity|]. split; [reflexivity|]. split.
    + intros k (t & [] & _).
    + reflexivity.
  - destruct (copy_lookup src dst imgSize t Ht Hsrc Hdst) as (d1 & Hc & Hlen1 & Hin1 & Hout1).
    destruct (IH d1 ltac:(lia)) as (d2 & Hr & Hlen2 & Hin2 & Hout2).
    exists d2. cbn [runTasks]. rewrite Hc. split; [exact Hr|]. split; [lia|]. split.
    + intros k (t' & Ht' & Hk).
      assert (Hdec : (exists t'', In t'' order /\ covers t'' k)
                     \/ (forall t'', In t'' order -> ~ covers t'' k)).
      { clear. induction order as [|u order IHo].
        - right. intros t'' [].
        - destruct IHo as [(t'' & Hi & Hc)|Hno].
          + left. exists t''. split; [right; exact Hi | exact Hc].
          + unfold covers.
            destruct (Z_le_dec (first u) (Z.of_nat k)) as [H1|H1];
              [destruct (Z_lt_dec (Z.of_nat k) (last u)) as [H2|H2]|].
            * left. exists u. split; [left; reflexivity | split; assumption].
            * right. intros t'' [<-|Hi]; [unfold covers; lia | apply Hno, Hi].
            * right. intros t'' [<-|Hi]; [unfold covers; lia | apply Hno, Hi]. }
      destruct Hdec as [Hyes|Hno]; [apply Hin2, Hyes|].
      rewrite (Hout2 k Hno). destruct Ht' as [<-|Ht']; [apply Hin1, Hk|].
      exfalso. exact (Hno t' Ht' Hk).
    + intros k Hno. rewrite Hout2 by (intros t' Ht'; apply Hno; right; exact Ht').
      apply Hout1, Hno. left. reflexivity.
Qed.

Lemma copyTasks_inImage (stride imgSize : Z) :
  1 <= stride -> 0 <= imgSize ->
  Forall (inImage imgSize) (copyTasks stride imgSize).
Proof.
  intros Hs Hi. unfold copyTasks.
  assert (Hq : 0 <= Z.quot imgSize stride) by (apply Z.quot_pos; lia).
  assert (Hqs : Z.quot imgSize stride * stride <= imgSize).
  { rewrite Z.mul_comm. apply Z.mul_quot_le; lia. }
  apply Forall_app. split.
  - apply Forall_forall. intros t Ht. apply list_elem_of_In, in_map_iff in Ht.
    destruct Ht as (i & <- & Hin). apply in_seq in Hin.
    unfold inImage. cbn [first last d_first]. nia.
  - constructor; [|constructor]. unfold inImage. cbn [first last d_first]. nia.
Qed.

Lemma copyTasks_cover (stride imgSize : Z) (k : nat) :
  1 <= stride -> 0 <= imgSize -> Z.of_nat k < imgSize ->
  exists t, In t (copyTasks stride imgSize) /\ covers t k.
Proof.
  intros Hs Hi Hk. unfold copyTasks.
  assert (Hq : 0 <= Z.quot imgSize stride) by (apply Z.quot_pos; lia).
  destruct (Z_lt_le_dec (Z.of_nat k) (Z.quot imgSize stride * (stride - 1))) as [Hlt|Hge].
  - assert (Hqpos : 0 < Z.quot imgSize stride) by nia.
    set (q := Z.quot imgSize stride) in *.
    exists (mkTask (q * Z.of_nat (Z.to_nat (Z.of_nat k / q)))
                   (q * (Z.of_nat (Z.to_nat (Z.of_nat k / q)) + 1))
                   (q * Z.of_nat (Z.to_nat (Z.of_nat k / q)))).
    assert (Hdiv : 0 <= Z.of_nat k / q) by (apply Z.div_pos; lia).
    pose proof (Z.mul_div_le (Z.of_nat k) q Hqpos) as Hlow.
    pose proof (Z.mul_succ_div_gt (Z.of_nat k) q Hqpos) as Hhigh.
    split.
    + apply in_or_app. left. apply in_map_iff. exists (Z.to_nat (Z.of_nat k / q)).
      split; [reflexivity|]. apply in_seq.
      assert (Z.of_nat k / q < stride - 1).
      { apply Z.div_lt_upper_bound; lia. }
      lia.
    + unfold covers. cbn [first last]. rewrite Z2Nat.id by lia. lia.
  - exists (mkTask (Z.quot imgSize stride * (stride - 1)) imgSize
                   (Z.quot imgSize stride * (stride - 1))).
    split; [apply in_or_app; right; left; reflexivity|].
    unfold covers. cbn [first last]. lia.
Qed.

(** The copy in chunks loses no byte, whatever the size of the image
    and the number of chunks (at least one), and in whatever order the
    threads make their copies: every copy stays inside both buffers,
    and afterwards the first [imgSize] bytes of the destination are the
    first [imgSize] bytes of the source, the rest of the destination
    being untouched. *)
Theorem copy_in_chunks_is_whole_copy (stride imgSize : Z) (src dst : list B)
    (order : list Task) :
  1 <= stride ->
  0 <= imgSize ->
  imgSize <= Z.of_nat (List.length src) ->
  imgSize <= Z.of_nat (List.length dst) ->
  Permutation order (copyTasks stride imgSize) ->
  runTasks B src order dst
  = Some (take (Z.to_nat imgSize) src ++ drop (Z.to_nat imgSize) dst).
Proof.
  intros Hs Hi Hsrc Hdst Hperm.
  assert (Hall : Forall (inImage imgSize) order).
  { apply Forall_forall. intros t Ht.
    pose proof (copyTasks_inImage stride imgSize Hs Hi) as Hc.
    rewrite Forall_forall in Hc. apply Hc. rewrite <- Hperm. exact Ht. }
  destruct (runTasks_lookup src imgSize order Hsrc Hall dst Hdst)
    as (dst' & Hr & Hlen & Hin & Hout).
  rewrite Hr. f_equal. apply list_eq. intros k.
  assert (Hlt : List.length (take (Z.to_nat imgSize) src) = Z.to_nat imgSize).
  { rewrite length_take. lia. }
  destruct (Z_lt_le_dec (Z.of_nat k) imgSize) as [Hk|Hk].
  - rewrite lookup_app_l by (rewrite Hlt; lia).
    rewrite lookup_take_lt by lia.
    apply Hin. destruct (copyTasks_cover stride imgSize k Hs Hi Hk) as (t & Ht & Hc).
    exists t. split; [|exact Hc].
    apply list_elem_of_In. rewrite Hperm. apply list_elem_of_In. exact Ht.
  - rewrite lookup_app_r by (rewrite Hlt; lia).
    rewrite lookup_drop, Hlt.
    replace (Z.to_nat imgSize + (k - Z.to_nat imgSize))%nat with k by lia.
    apply Hout. intros t Ht Hc.
    rewrite Forall_forall in Hall. apply list_elem_of_In in Ht.
    destruct (Hall t Ht) as (_ & Hl & _). unfold covers in Hc. lia.
Qed.

End ImageCopyProofs.

Section ImageCopyExample.
Import ImageCopy.

Lemma copy_in_chunks_is_whole_copy_ten_bytes :
  runTasks Z [1; 2; 3; 4; 5; 6; 7; 8; 9; 10]
           (rev (copyTasks SPLASH_IMAGE_COPY_THREADS 10))
           [0; 0; 0; 0; 0; 0; 0; 0; 0; 0; 0]
  = Some (take (Z.to_nat 10) [1; 2; 3; 4; 5; 6; 7; 8; 9; 10]
          ++ drop (Z.to_nat 10) [0; 0; 0; 0; 0; 0; 0; 0; 0; 0; 0]).
Proof.
  apply (copy_in_chunks_is_whole_copy SPLASH_IMAGE_COPY_THREADS 10).
  - unfold SPLASH_IMAGE_COPY_THREADS. lia.
  - lia.
  - cbn. lia.
  - cbn. lia.
  - symmetry. apply Permutation_rev.
Defined.

End ImageCopyExample.

(** ** Hole filling keeps the range of the set cells *)

Section BlendMapRangeProofs.
Import BlendMapRange.
Variables (lo hi : Z).
Hypothesis Hlo : 0 <= lo.
Hypothesis Hhi : hi < 65536.
Variable width : nat.






End BlendMapRangeProofs.

Section BlendMapRangeTheorem.
Import BlendMapRange.



End BlendMapRangeTheorem.

(** ** The value a camera writes in a cell *)

Section BlendWeightProofs.
Import BlendWeight.
Local Open Scope R_scope.

Lemma clamp01_bounds (x : R) : 0 <= clamp01 x <= 1.
Proof.
  unfold clamp01, Rmin, Rmax.
  destruct (Rle_dec x 0); destruct (Rle_dec _ 1); lra.
Qed.

Lemma weight_bounds (distX distY : R) :
  0 <= distX <= 1 -> 0 <= distY <= 1 -> 0 <= weight distX distY <= / 2.
Proof.
  intros Hx Hy. unfold weight.
  destruct (Req_dec_T distX 0) as [_|Hx0]; [lra|].
  destruct (Req_dec_T distY 0) as [_|Hy0]; [lra|].
  assert (Hix : 1 <= 1 / distX).
  { apply (Rmult_le_reg_r distX); [lra|]. replace (1 / distX * distX) with 1 by (field; lra). lra. }
  assert (Hiy : 1 <= 1 / distY).
  { apply (Rmult_le_reg_r distY); [lra|]. replace (1 / distY * distY) with 1 by (field; lra). lra. }
  set (s := 1 / distX + 1 / distY) in *. assert (Hs : 2 <= s) by (unfold s; lra).
  split.
  - unfold Rdiv. rewrite Rmult_1_l. left. apply Rinv_0_lt_compat. lra.
  - unfold Rdiv. rewrite Rmult_1_l. apply Rinv_le_contravar; lra.
Qed.

Lemma truncate_bounds (r : R) (n : Z) :
  0 <= r <= IZR n -> (0 <= Values.truncate r <= n)%Z.
Proof.
  intros Hr. unfold Values.truncate. destruct (Rle_dec 0 r) as [_|Hn]; [|lra].
  destruct (base_Int_part r) as [Hle Hgt]. split.
  - assert (H : (-1 < Int_part r)%Z) by (apply lt_IZR; lra). lia.
  - apply le_IZR. lra.
Qed.

Lemma truncate_0 : Values.truncate 0 = 0%Z.
Proof.
  pose proof (truncate_bounds 0 0 ltac:(lra)). lia.
Qed.

(** The value written in a cell holds the camera in its high bits and
    a weight in the low ones: with a blending width above zero it lies
    between 4096 and 4160 (the weight 1 / (1/dx + 1/dy) of two
    distances of at most 1 never exceeds one half), and it is 4096 on
    the border of the rendered image; without blending it is 4352. *)
Theorem blendAddition_range (px py width height : Z) (_blendWidth : R) :
  (0 <= px < width)%Z -> (0 <= py < height)%Z ->
  (4096 <= blendAddition px py width height _blendWidth <= 4352)%Z
  /\ (0 < _blendWidth ->
        (blendAddition px py width height _blendWidth <= 4160)%Z
        /\ (px = 0%Z \/ px = (width - 1)%Z \/ py = 0%Z \/ py = (height - 1)%Z ->
            blendAddition px py width height _blendWidth = 4096%Z))
  /\ (_blendWidth <= 0 -> blendAddition px py width height _blendWidth = 4352%Z).
Proof.
  intros Hpx Hpy. unfold blendAddition.
  set (distX := borderDistance px width _blendWidth).
  set (distY := borderDistance py height _blendWidth).
  assert (Hdx : 0 <= distX <= 1) by apply clamp01_bounds.
  assert (Hdy : 0 <= distY <= 1) by apply clamp01_bounds.
  pose proof (weight_bounds distX distY Hdx Hdy) as Hw.
  set (w := weight distX distY) in *.
  assert (Hc : Rmin (Rmax w 0) 1 = w).
  { unfold Rmin, Rmax. destruct (Rle_dec w 0); destruct (Rle_dec _ 1); lra. }
  assert (Hs : 0 <= w ^ 2 * 256 <= IZR 64).
  { cbn [pow]. rewrite Rmult_1_r. split; [nra|].
    assert (w * w <= / 2 * / 2) by nra. lra. }
  pose proof (truncate_bounds _ 64 Hs) as Ht.
  destruct (Rlt_dec 0 _blendWidth) as [Hb|Hb].
  - rewrite Hc. unfold BlendMap.to_ushort.
    rewrite (Z.mod_small (0 + _)) by lia.
    rewrite Z.mod_small by lia.
    split; [lia|]. split; [|lra]. intros _. split; [lia|].
    intros Hborder.
    assert (Hzero : distX = 0 \/ distY = 0).
    { unfold distX, distY, borderDistance.
      assert (Hz : forall p size, (0 <= p < size)%Z -> (p = 0 \/ p = size - 1)%Z ->
                     clamp01 (IZR (Z.min p (size - 1 - p)) / IZR size / _blendWidth) = 0).
      { intros p size Hp Hor. replace (Z.min p (size - 1 - p)) with 0%Z by lia.
        unfold Rdiv. rewrite !Rmult_0_l. unfold clamp01, Rmin, Rmax.
        destruct (Rle_dec 0 0); [|lra]. destruct (Rle_dec 0 1); lra. }
      destruct Hborder as [H|[H|[H|H]]];
        [left; apply Hz; lia | left; apply Hz; lia | right; apply Hz; lia | right; apply Hz; lia]. }
    assert (Hw0 : w = 0).
    { unfold w, weight. destruct Hzero as [E|E].
      - destruct (Req_dec_T distX 0); [reflexivity | contradiction].
      - destruct (Req_dec_T distX 0); [reflexivity|].
        destruct (Req_dec_T distY 0); [reflexivity | contradiction]. }
    rewrite Hw0. replace (0 ^ 2 * 256) with 0 by (cbn; lra). rewrite truncate_0. reflexivity.
  - assert (E : BlendMap.to_ushort (BlendMap.to_ushort (0 + 256) + 4096) = 4352%Z)
      by reflexivity.
    rewrite E. split; [lia|]. split; [intros; lra | reflexivity].
Qed.

Lemma blendAddition_range_corner :
  (4096 <= blendAddition 0 0 4 4 (/ 2) <= 4352)%Z
  /\ (0 < / 2 ->
        (blendAddition 0 0 4 4 (/ 2) <= 4160)%Z
        /\ (0%Z = 0%Z \/ 0%Z = (4 - 1)%Z \/ 0%Z = 0%Z \/ 0%Z = (4 - 1)%Z ->
            blendAddition 0 0 4 4 (/ 2) = 4096%Z))
  /\ (/ 2 <= 0 -> blendAddition 0 0 4 4 (/ 2) = 4352%Z).
Proof.
  apply (blendAddition_range 0 0 4 4 (/ 2)); lia.
Defined.

End BlendWeightProofs.

(** ** Colours *)

Section RgbProofs.
Import Rgb.
Local Open Scope R_scope.

Lemma Rmax3_cases (x y z : R) :
  (Rmax (Rmax x y) z = x /\ y <= x /\ z <= x)
  \/ (Rmax (Rmax x y) z = y /\ x <= y /\ z <= y)
  \/ (Rmax (Rmax x y) z = z /\ x <= z /\ y <= z).
Proof.
  unfold Rmax. destruct (Rle_dec x y); destruct (Rle_dec _ z); lra.
Qed.

(** normalize makes the largest component 1, as its comment says, when
    that component is positive: each component is then at most 1, the
    largest is 1, normalizing again changes nothing, and the luminance
    of a colour without negative component is at most 1 afterwards. *)
Theorem normalize_max_is_one (c : RgbValue) :
  0 < Rmax (Rmax (r c) (g c)) (b c) ->
  exists c',
    normalize c = Some c'
    /\ Rmax (Rmax (r c') (g c')) (b c') = 1
    /\ normalize c' = Some c'
    /\ (0 <= r c -> 0 <= g c -> 0 <= b c -> 0 < luminance c' <= 1).
Proof.
  intros Hm. unfold normalize. set (m := Rmax (Rmax (r c) (g c)) (b c)) in *.
  destruct (Req_dec_T m 0) as [E|_]; [lra|].
  eexists. split; [reflexivity|]. cbn [r g b].
  assert (Him : 0 < / m) by (apply Rinv_0_lt_compat; exact Hm).
  assert (Hr : r c / m <= 1).
  { apply (Rmult_le_reg_r m); [exact Hm|]. replace (r c / m * m) with (r c) by (field; lra).
    unfold m. pose proof (Rmax_l (Rmax (r c) (g c)) (b c)). pose proof (Rmax_l (r c) (g c)). lra. }
  assert (Hg : g c / m <= 1).
  { apply (Rmult_le_reg_r m); [exact Hm|]. replace (g c / m * m) with (g c) by (field; lra).
    unfold m. pose proof (Rmax_l (Rmax (r c) (g c)) (b c)). pose proof (Rmax_r (r c) (g c)). lra. }
  assert (Hb : b c / m <= 1).
  { apply (Rmult_le_reg_r m); [exact Hm|]. replace (b c / m * m) with (b c) by (field; lra).
    unfold m. pose proof (Rmax_r (Rmax (r c) (g c)) (b c)). lra. }
  assert (Hone : Rmax (Rmax (r c / m) (g c / m)) (b c / m) = 1).
  { destruct (Rmax3_cases (r c) (g c) (b c)) as [(E & _)|[(E & _)|(E & _)]];
      fold m in E.
    - assert (E1 : r c / m = 1) by (rewrite <- E at 1; field; lra).
      rewrite E1. unfold Rmax. destruct (Rle_dec 1 (g c / m)); destruct (Rle_dec _ (b c / m)); lra.
    - assert (E1 : g c / m = 1) by (rewrite <- E at 1; field; lra).
      rewrite E1. unfold Rmax. destruct (Rle_dec (r c / m) 1); destruct (Rle_dec _ (b c / m)); lra.
    - assert (E1 : b c / m = 1) by (rewrite <- E at 1; field; lra).
      rewrite E1. unfold Rmax. destruct (Rle_dec (r c / m) (g c / m)); destruct (Rle_dec _ 1); lra. }
  split; [exact Hone|]. split.
  - rewrite Hone. destruct (Req_dec_T 1 0) as [E|_]; [lra|].
    f_equal. f_equal; field; lra.
  - intros H0r H0g H0b. unfold luminance. cbn [r g b].
    assert (0 <= r c / m) by (unfold Rdiv; apply Rmult_le_pos; lra).
    assert (0 <= g c / m) by (unfold Rdiv; apply Rmult_le_pos; lra).
    assert (0 <= b c / m) by (unfold Rdiv; apply Rmult_le_pos; lra).
    split; [|lra].
    unfold Rmax in Hone.
    destruct (Rle_dec (r c / m) (g c / m)); destruct (Rle_dec _ (b c / m)); lra.
Qed.

Lemma normalize_max_is_one_orange :
  exists c',
    normalize (mkRgb 2 1 0) = Some c'
    /\ Rmax (Rmax (r c') (g c')) (b c') = 1
    /\ normalize c' = Some c'
    /\ (0 <= r (mkRgb 2 1 0) -> 0 <= g (mkRgb 2 1 0) -> 0 <= b (mkRgb 2 1 0) ->
        0 < luminance c' <= 1).
Proof.
  apply (normalize_max_is_one (mkRgb 2 1 0)).
  cbn [r g b]. unfold Rmax. destruct (Rle_dec 2 1); destruct (Rle_dec _ 0); lra.
Defined.

End RgbProofs.
